(** * express-async-rate-cache: cache, rate limiter and coalescing fetch queue

    A shallow embedding of the three stateful classes of the repository
    ([LRUCache], [RateLimiter], [DatabaseService]) and of the [GET /users/:id]
    route handler that wires the cache to the fetch queue, followed by the
    properties of the specification that concern them.

    Conventions of the embedding:
    - a JavaScript [number] that holds an integer (counters, sizes, epoch
      milliseconds, user ids) is a [Z];
    - [Date.now()] is a parameter of the operation that reads the clock;
    - the [Map<string, CacheEntry<T>>] of the cache, whose iteration order
      the eviction relies on, is an association list in insertion order;
      the maps whose order is never observed are [gmap]s;
    - an object mutated in place through a reference held in a map is
      written back into the map;
    - a promise's [resolve]/[reject] pair is identified by the id of the
      job that carries it, and calling it is recorded in a trace. *)

From Stdlib Require Import ZArith Lia.
From stdpp Require Import base option list sorting strings pretty gmap fin_maps.

Local Open Scope Z_scope.

(** ** src/types/index.ts *)

Record User := mkUser {
  id : Z;
  name : string;
  email : string;
  createdAt : option Z
}.

Record CacheEntry (T : Type) := mkCacheEntry {
  value : T;
  timestamp : Z;
  accessCount : Z;
  lastAccessed : Z
}.
Arguments mkCacheEntry {T} _ _ _ _.
Arguments value {T} _.
Arguments timestamp {T} _.
Arguments accessCount {T} _.
Arguments lastAccessed {T} _.

(** [averageResponseTime] is the floating-point quotient of a sum of
    integer samples by their number; it is kept as that exact pair
    (sum, number of samples), the constructor's [0] being [(0, 1)]. *)
Record CacheStats := mkCacheStats {
  hits : Z;
  misses : Z;
  currentSize : Z;
  maxSize : Z;
  averageResponseTime : Z * Z;
  totalRequests : Z
}.

Record RateLimitInfo := mkRateLimitInfo {
  count : Z;
  resetTime : Z;
  burstCount : Z;
  burstResetTime : Z
}.

(** [QueueJob]: the fields [resolve] and [reject] are the settle
    functions of the promise handed to the caller; the job id names them. *)
Record QueueJob := mkQueueJob {
  job_id : string;
  userId : Z;
  job_timestamp : Z
}.

#[global] Instance QueueJob_eq_dec : EqDecision QueueJob.
Proof. solve_decision. Defined.

(** ** JavaScript [Map] with observable insertion order *)

Module JsMap.
Section Map.
Context {V : Type}.

Definition t := list (string * V).

Fixpoint get (k : string) (m : t) : option V :=
  match m with
  | [] => None
  | (k', v) :: m' => if decide (k = k') then Some v else get k m'
  end.

Definition has (k : string) (m : t) : bool :=
  match get k m with Some _ => true | None => false end.

(** [Map.prototype.delete]: the remaining entries keep their order. *)
Fixpoint delete (k : string) (m : t) : t :=
  match m with
  | [] => []
  | (k', v) :: m' => if decide (k = k') then delete k m' else (k', v) :: delete k m'
  end.

(** [Map.prototype.set]: an existing key keeps its position, a new key
    goes to the end. *)
Fixpoint set (k : string) (v : V) (m : t) : t :=
  match m with
  | [] => [(k, v)]
  | (k', v') :: m' => if decide (k = k') then (k, v) :: m' else (k', v') :: set k v m'
  end.

Definition keys (m : t) : list string := m.*1.

Definition size (m : t) : Z := Z.of_nat (length m).

(** [m.keys().next().value]: [undefined] on an empty map. *)
Definition first_key (m : t) : option string := head (keys m).
End Map.
Arguments t : clear implicits.
End JsMap.

(** Truthiness of a [string | undefined]: [undefined] and the empty string
    are falsy. *)
Definition truthy (s : option string) : bool :=
  match s with
  | Some k => negb (String.eqb k "")
  | None => false
  end.

(** ** src/cache/LRUCache.ts *)

Module LRUCache.
Section Ops.
Context {T : Type}.

(** The fields of the class; [cache_maxSize] is its [maxSize] (the
    statistics have a [maxSize] of their own). *)
Record t := mk {
  cache : JsMap.t (CacheEntry T);
  cache_maxSize : Z;
  ttl : Z;
  stats : CacheStats;
  responseTimes : list Z
}.

Definition with_cache (m : JsMap.t (CacheEntry T)) (c : t) : t :=
  mk m (cache_maxSize c) (ttl c) (stats c) (responseTimes c).
Definition with_stats (s : CacheStats) (c : t) : t :=
  mk (cache c) (cache_maxSize c) (ttl c) s (responseTimes c).

Definition incr_totalRequests (s : CacheStats) : CacheStats :=
  mkCacheStats (hits s) (misses s) (currentSize s) (maxSize s)
               (averageResponseTime s) (totalRequests s + 1).
Definition incr_hits (s : CacheStats) : CacheStats :=
  mkCacheStats (hits s + 1) (misses s) (currentSize s) (maxSize s)
               (averageResponseTime s) (totalRequests s).
Definition incr_misses (s : CacheStats) : CacheStats :=
  mkCacheStats (hits s) (misses s + 1) (currentSize s) (maxSize s)
               (averageResponseTime s) (totalRequests s).
Definition incr_currentSize (s : CacheStats) : CacheStats :=
  mkCacheStats (hits s) (misses s) (currentSize s + 1) (maxSize s)
               (averageResponseTime s) (totalRequests s).
Definition decr_currentSize (s : CacheStats) : CacheStats :=
  mkCacheStats (hits s) (misses s) (currentSize s - 1) (maxSize s)
               (averageResponseTime s) (totalRequests s).
Definition set_average (a : Z * Z) (s : CacheStats) : CacheStats :=
  mkCacheStats (hits s) (misses s) (currentSize s) (maxSize s)
               a (totalRequests s).

(** [constructor(maxSize = 1000, ttlMs = 60000)]; the interval timer it
    installs is the [cleanupExpired] operation below. *)
Definition new (maxSize ttlMs : Z) : t :=
  mk [] maxSize ttlMs (mkCacheStats 0 0 0 maxSize (0, 1) 0) [].

Definition sum (l : list Z) : Z := foldl Z.add 0 l.

(** [updateResponseTime(startTime)], with [rt = Date.now() - startTime]. *)
Definition updateResponseTime (rt : Z) (c : t) : t :=
  let pushed := responseTimes c ++ [rt] in
  let kept :=
    if (1000 <? Z.of_nat (length pushed))%Z
    then drop (length pushed - 1000)%nat pushed
    else pushed in
  mk (cache c) (cache_maxSize c) (ttl c)
     (set_average (sum kept, Z.of_nat (length kept)) (stats c)) kept.

Definition expired (c : t) (now : Z) (entry : CacheEntry T) : bool :=
  ttl c <? now - timestamp entry.

(** [get(key)]: [now] is the clock read at the expiry check, [rt] the
    response time measured for the call. *)
Definition get (key : string) (now rt : Z) (c : t) : option T * t :=
  let c := with_stats (incr_totalRequests (stats c)) c in
  match JsMap.get key (cache c) with
  | None =>
      (None, updateResponseTime rt (with_stats (incr_misses (stats c)) c))
  | Some entry =>
      if expired c now entry then
        let c := with_cache (JsMap.delete key (cache c)) c in
        let c := with_stats (decr_currentSize (stats c)) c in
        let c := with_stats (incr_misses (stats c)) c in
        (None, updateResponseTime rt c)
      else
        let entry' :=
          mkCacheEntry (value entry) (timestamp entry)
                       (accessCount entry + 1) now in
        let c := with_cache (JsMap.delete key (cache c)) c in
        let c := with_cache (JsMap.set key entry' (cache c)) c in
        let c := with_stats (incr_hits (stats c)) c in
        (Some (value entry), updateResponseTime rt c)
  end.

(** [set(key, value)] *)
Definition set (key : string) (v : T) (now : Z) (c : t) : t :=
  let entry := mkCacheEntry v now 1 now in
  let c :=
    if JsMap.has key (cache c) then
      with_cache (JsMap.delete key (cache c)) c
    else
      let c :=
        if (cache_maxSize c <=? JsMap.size (cache c))%Z then
          let firstKey := JsMap.first_key (cache c) in
          if truthy firstKey then
            match firstKey with
            | Some k =>
                with_stats (decr_currentSize (stats c))
                           (with_cache (JsMap.delete k (cache c)) c)
            | None => c
            end
          else c
        else c in
      with_stats (incr_currentSize (stats c)) c in
  with_cache (JsMap.set key entry (cache c)) c.

(** [delete(key)] *)
Definition delete (key : string) (c : t) : bool * t :=
  let deleted := JsMap.has key (cache c) in
  let c := with_cache (JsMap.delete key (cache c)) c in
  if deleted then (true, with_stats (decr_currentSize (stats c)) c)
  else (false, c).

(** [clear()] *)
Definition clear (c : t) : t :=
  mk [] (cache_maxSize c) (ttl c)
     (mkCacheStats 0 0 0 (maxSize (stats c)) (0, 1) 0) [].

(** [has(key)] *)
Definition has (key : string) (now : Z) (c : t) : bool * t :=
  match JsMap.get key (cache c) with
  | None => (false, c)
  | Some entry =>
      if expired c now entry then
        let c := with_cache (JsMap.delete key (cache c)) c in
        (false, with_stats (decr_currentSize (stats c)) c)
      else (true, c)
  end.

(** [getStats()]: a copy of the statistics. *)
Definition getStats (c : t) : CacheStats := stats c.

(** [cleanupExpired()]: collect the expired keys, then delete each. *)
Definition keysToDelete (now : Z) (c : t) : list string :=
  (filter (fun p => expired c now p.2 = true) (cache c)).*1.

(** One round of its [forEach]: [this.cache.delete(key)] and
    [this.stats.currentSize--]. *)
Definition drop_key (c : t) (key : string) : t :=
  with_stats (decr_currentSize (stats c))
             (with_cache (JsMap.delete key (cache c)) c).

Definition cleanupExpired (now : Z) (c : t) : t :=
  foldl drop_key c (keysToDelete now c).

Definition keys (c : t) : list string := JsMap.keys (cache c).
Definition size (c : t) : Z := JsMap.size (cache c).

(** The public operations, as a caller can issue them in sequence. *)
Inductive op :=
| Get (key : string) (now rt : Z)
| Set_ (key : string) (v : T) (now : Z)
| Delete (key : string)
| Clear
| Has (key : string) (now : Z)
| CleanupExpired (now : Z).

Definition apply (c : t) (o : op) : t :=
  match o with
  | Get key now rt => (get key now rt c).2
  | Set_ key v now => set key v now c
  | Delete key => (delete key c).2
  | Clear => clear c
  | Has key now => (has key now c).2
  | CleanupExpired now => cleanupExpired now c
  end.

Definition run (c : t) (ops : list op) : t := foldl apply c ops.

(** Entries whose age at [now] does not exceed the time to live. *)
Definition live_count (now : Z) (c : t) : Z :=
  Z.of_nat (length (filter (fun p => expired c now p.2 = false) (cache c))).

(** Whether the result of [get] is a hit. *)
Definition is_hit (r : option T) : bool :=
  match r with Some _ => true | None => false end.

(** Request counters: (hits, misses, totalRequests). *)
Definition counters (c : t) : Z * Z * Z :=
  (hits (stats c), misses (stats c), totalRequests (stats c)).

Definition counters_consistent (c : t) : Prop :=
  hits (stats c) + misses (stats c) = totalRequests (stats c).

(** What one operation does to (hits, misses, totalRequests). *)
Definition counters_effect (c : t) (o : op) : Prop :=
  let '(h, m, n) := counters c in
  match o with
  | Get key now rt =>
      counters (apply c o) =
        match (get key now rt c).1 with
        | Some _ => (h + 1, m, n + 1)
        | None => (h, m + 1, n + 1)
        end
  | Clear => counters (apply c o) = (0, 0, 0)
  | _ => counters (apply c o) = (h, m, n)
  end.

(** The size statistic agrees with the map, whose keys are distinct. *)
Definition wf (c : t) : Prop :=
  NoDup (JsMap.keys (cache c)) ∧ currentSize (stats c) = JsMap.size (cache c).

(** Every stored key passes the truthiness test of [set], and the map
    holds at most [maxSize] entries. *)
Definition bounded (c : t) : Prop :=
  Forall (λ k, k ≠ "") (JsMap.keys (cache c)) ∧
  JsMap.size (cache c) ≤ cache_maxSize c.

Definition sets_nonempty_key (o : op) : Prop :=
  match o with
  | Set_ key _ _ => key ≠ ""
  | _ => True
  end.
(** The clock reading of an operation that reads the clock. *)
Definition op_now (o : op) : option Z :=
  match o with
  | Get _ now _ | Set_ _ _ now | Has _ now | CleanupExpired now => Some now
  | Delete _ | Clear => None
  end.

(** The clock never goes back along the operations, from [t0] on. *)
Fixpoint clock_monotone (t0 : Z) (ops : list op) : Prop :=
  match ops with
  | [] => True
  | o :: ops =>
      match op_now o with
      | Some now => t0 ≤ now ∧ clock_monotone now ops
      | None => clock_monotone t0 ops
      end
  end.

(** The map order is the order of last access, no access being later
    than [t]. *)
Definition recency_ordered (t : Z) (m : JsMap.t (CacheEntry T)) : Prop :=
  StronglySorted (λ p q, lastAccessed p.2 ≤ lastAccessed q.2) m ∧
  Forall (λ p, lastAccessed p.2 ≤ t) m.
(** The response times measured by the [get]s of a run since its last
    [clear], oldest first. *)
Definition samples (ops : list op) : list Z :=
  foldl (λ acc o,
           match o with
           | Get _ _ rt => acc ++ [rt]
           | Clear => []
           | _ => acc
           end) [] ops.

(** The map holds [v] under [key], in an entry inserted at [lo] or
    later, and at most [n] entries come after it in the order of the map
    (that is, are more recently used). *)
Definition held_within (key : string) (v : T) (lo : Z) (n : nat)
    (m : JsMap.t (CacheEntry T)) : Prop :=
  ∃ pre e post,
    m = pre ++ (key, e) :: post ∧
    value e = v ∧ lo ≤ timestamp e ∧ (length post ≤ n)%nat.
End Ops.
Arguments t : clear implicits.
Arguments op : clear implicits.
End LRUCache.


(** ** src/middleware/rateLimiter.ts *)

Module RateLimiter.

Record t := mk {
  clients : gmap string RateLimitInfo;
  maxRequests : Z;
  windowMs : Z;
  burstCapacity : Z;
  burstWindowMs : Z
}.

Definition with_clients (m : gmap string RateLimitInfo) (rl : t) : t :=
  mk m (maxRequests rl) (windowMs rl) (burstCapacity rl) (burstWindowMs rl).

(** [constructor(maxRequests = 10, windowMs = 60000, burstCapacity = 5,
    burstWindowMs = 10000)]; its interval timer is [cleanupExpired]. *)
Definition new (maxRequests windowMs burstCapacity burstWindowMs : Z) : t :=
  mk ∅ maxRequests windowMs burstCapacity burstWindowMs.

(** The limit a 429 response reports: the message and [limit] name either
    the burst limit or the regular one. *)
Inductive Scope := Burst | Window.

(** The [X-RateLimit-*] headers of an admitted request. *)
Record Headers := mkHeaders {
  x_limit : Z;
  x_remaining : Z;
  x_reset : Z;
  x_burst_limit : Z;
  x_burst_remaining : Z;
  x_burst_reset : Z
}.

Inductive Response :=
| Next (h : Headers)
| TooManyRequests (scope : Scope) (retryAfter limit remaining resetTime timestamp : Z).

(** [Math.ceil(x / 1000)] for an integer [x]. *)
Definition ceil_seconds (x : Z) : Z := - ((- x) / 1000).

(** The entry of the client, created on its first request. *)
Definition lookup_or_create (clientId : string) (now : Z) (rl : t) : RateLimitInfo :=
  match clients rl !! clientId with
  | Some info => info
  | None => mkRateLimitInfo 0 (now + windowMs rl) 0 (now + burstWindowMs rl)
  end.

(** "Reset counters if windows have expired": the regular window, then
    the burst window. *)
Definition refresh (now : Z) (rl : t) (info : RateLimitInfo) : RateLimitInfo :=
  let info :=
    if resetTime info <=? now
    then mkRateLimitInfo 0 (now + windowMs rl) (burstCount info) (burstResetTime info)
    else info in
  if burstResetTime info <=? now
  then mkRateLimitInfo (count info) (resetTime info) 0 (now + burstWindowMs rl)
  else info.

(** The function [middleware()] returns, applied to a request of
    [clientId] at time [now]. The entry is an object of the map mutated in
    place: every path leaves the updated entry in the map. *)
Definition middleware (clientId : string) (now : Z) (rl : t) : Response * t :=
  let info := refresh now rl (lookup_or_create clientId now rl) in
  if burstCapacity rl <=? burstCount info then
    (TooManyRequests Burst (ceil_seconds (burstResetTime info - now))
                     (burstCapacity rl) 0 (burstResetTime info) now,
     with_clients (<[clientId := info]> (clients rl)) rl)
  else if maxRequests rl <=? count info then
    (TooManyRequests Window (ceil_seconds (resetTime info - now))
                     (maxRequests rl) 0 (resetTime info) now,
     with_clients (<[clientId := info]> (clients rl)) rl)
  else
    let info :=
      mkRateLimitInfo (count info + 1) (resetTime info)
                      (burstCount info + 1) (burstResetTime info) in
    (Next (mkHeaders (maxRequests rl) (maxRequests rl - count info)
                     (resetTime info)
                     (burstCapacity rl) (burstCapacity rl - burstCount info)
                     (burstResetTime info)),
     with_clients (<[clientId := info]> (clients rl)) rl).

(** [cleanupExpired()]: entries past both reset times are removed. *)
Definition past_both (now : Z) (info : RateLimitInfo) : Prop :=
  resetTime info ≤ now ∧ burstResetTime info ≤ now.

Definition cleanupExpired (now : Z) (rl : t) : t :=
  with_clients (filter (λ kv, ¬ past_both now kv.2) (clients rl)) rl.

(** [getStatus(req)], on the client id of the request. *)
Definition getStatus (clientId : string) (rl : t) : option RateLimitInfo :=
  clients rl !! clientId.

(** [reset(clientId?)]: a falsy argument (none, or the empty string)
    clears every client. *)
Definition reset (clientId : option string) (rl : t) : t :=
  if truthy clientId then
    match clientId with
    | Some k => with_clients (delete k (clients rl)) rl
    | None => rl
    end
  else with_clients ∅ rl.

Inductive event :=
| Check_ (clientId : string) (now : Z)
| CleanupExpired (now : Z)
| Reset_ (clientId : option string).

Definition step (rl : t) (e : event) : t :=
  match e with
  | Check_ clientId now => (middleware clientId now rl).2
  | CleanupExpired now => cleanupExpired now rl
  | Reset_ clientId => reset clientId rl
  end.

Definition run (rl : t) (evs : list event) : t := foldl step rl evs.

(** The answers of the checks of a run, in order. *)
Fixpoint responses (rl : t) (evs : list event) : list Response :=
  match evs with
  | [] => []
  | Check_ clientId now :: evs =>
      (middleware clientId now rl).1 :: responses (step rl (Check_ clientId now)) evs
  | e :: evs => responses (step rl e) evs
  end.

(** Both counters of an entry are within their capacities. *)
Definition within_capacity (rl : t) (info : RateLimitInfo) : Prop :=
  0 ≤ count info ≤ maxRequests rl ∧ 0 ≤ burstCount info ≤ burstCapacity rl.

Definition all_within_capacity (rl : t) : Prop :=
  ∀ clientId info, clients rl !! clientId = Some info → within_capacity rl info.

(** What a check does to the counters of its client, [info] being the
    entry after the window resets: a denied request stores [info] as it
    is, an admitted one found both counters strictly below their
    capacities and raised each by one. *)
Definition check_effect (clientId : string) (now : Z) (rl : t) : Prop :=
  let info := refresh now rl (lookup_or_create clientId now rl) in
  let stored := clients (middleware clientId now rl).2 !! clientId in
  match (middleware clientId now rl).1 with
  | TooManyRequests Burst _ _ _ _ _ =>
      burstCapacity rl ≤ burstCount info ∧ stored = Some info
  | TooManyRequests Window _ _ _ _ _ =>
      burstCount info < burstCapacity rl ∧ maxRequests rl ≤ count info ∧
      stored = Some info
  | Next _ =>
      burstCount info < burstCapacity rl ∧ count info < maxRequests rl ∧
      stored = Some (mkRateLimitInfo (count info + 1) (resetTime info)
                                     (burstCount info + 1) (burstResetTime info))
  end.
(** Whether a response lets the request through. *)
Definition admitted (r : Response) : bool :=
  match r with Next _ => true | TooManyRequests _ _ _ _ _ _ => false end.

(** The limit a denial names. *)
Definition denial_scope (r : Response) : option Scope :=
  match r with Next _ => None | TooManyRequests scope _ _ _ _ _ => Some scope end.

(** The answers a run gives to the checks of one client, in order. *)
Fixpoint responses_of (clientId : string) (rl : t) (evs : list event) : list Response :=
  match evs with
  | [] => []
  | Check_ clientId' now :: evs =>
      (if decide (clientId' = clientId) then [(middleware clientId' now rl).1] else [])
        ++ responses_of clientId (step rl (Check_ clientId' now)) evs
  | e :: evs => responses_of clientId (step rl e) evs
  end.

Definition is_check (e : event) : Prop :=
  match e with Check_ _ _ => True | _ => False end.

Definition is_check_of (clientId : string) (e : event) : Prop :=
  match e with Check_ clientId' _ => clientId' = clientId | _ => False end.

#[global] Instance is_check_of_dec clientId e : Decision (is_check_of clientId e).
Proof. destruct e; simpl; apply _. Defined.

(** Two limiters that are configured alike and agree on one client. *)
Definition agree_on (clientId : string) (rl1 rl2 : t) : Prop :=
  maxRequests rl1 = maxRequests rl2 ∧ windowMs rl1 = windowMs rl2 ∧
  burstCapacity rl1 = burstCapacity rl2 ∧ burstWindowMs rl1 = burstWindowMs rl2 ∧
  clients rl1 !! clientId = clients rl2 !! clientId.
End RateLimiter.

(** ** src/services/DatabaseService.ts *)

Module DatabaseService.

(** [new Error(`User with ID ${userId} not found`)]: the only error the
    service constructs. The [catch] of [processJob] rejects with whatever
    its [try] block throws; nothing in that block throws. *)
Inductive Error := UserNotFound (userId : Z).

(** The instance together with the module-level [mockUsers] record.
    [processing] is the job whose [processJob] call is suspended on its
    200 ms timer, if any: the continuation the event loop holds. *)
Record t := mk {
  mockUsers : gmap Z User;
  processingQueue : list QueueJob;
  pendingRequests : gmap Z (list QueueJob);
  isProcessing : bool;
  nextUserId : Z;
  processing : option QueueJob
}.

Definition initialUsers : gmap Z User :=
  <[1 := mkUser 1 "John Doe" "john@example.com" (Some 1672531200000)]>
  (<[2 := mkUser 2 "Jane Smith" "jane@example.com" (Some 1672617600000)]>
  (<[3 := mkUser 3 "Alice Johnson" "alice@example.com" (Some 1672704000000)]> ∅)).

(** [constructor()]; the interval it starts is the [tick] event. *)
Definition new : t := mk initialUsers [] ∅ false 4 None.

(** What the service does that its callers and the backing record see:
    the read [mockUsers[userId]] of [processJob] (the backend call), and
    the calls of a job's [resolve] and [reject]. *)
Inductive Obs :=
| Lookup (userId : Z)
| Resolved (job : QueueJob) (user : User)
| Rejected (job : QueueJob) (error : Error).

(** [getUserById(userId)]: [id] is the uuid drawn for the job, [now] the
    clock. The promise returned is the one [job] settles. *)
Definition getUserById (userId : Z) (id : string) (now : Z) (s : t) : t :=
  let job := mkQueueJob id userId now in
  match pendingRequests s !! userId with
  | Some existingJobs =>
      mk (mockUsers s) (processingQueue s)
         (<[userId := existingJobs ++ [job]]> (pendingRequests s))
         (isProcessing s) (nextUserId s) (processing s)
  | None =>
      mk (mockUsers s) (processingQueue s ++ [job])
         (<[userId := [job]]> (pendingRequests s))
         (isProcessing s) (nextUserId s) (processing s)
  end.

(** [createUser(name, email)], when its 100 ms timer fires at [now]. *)
Definition createUser (name email : string) (now : Z) (s : t) : User * t :=
  let newUser := mkUser (nextUserId s) name email (Some now) in
  (newUser,
   mk (<[nextUserId s := newUser]> (mockUsers s)) (processingQueue s)
      (pendingRequests s) (isProcessing s) (nextUserId s + 1) (processing s)).

(** The callback of [processQueue]'s 50 ms interval, up to the [await]
    inside [processJob]: the head job leaves the queue and its processing
    is suspended on the 200 ms timer. *)
Definition tick (s : t) : t :=
  if isProcessing s || (length (processingQueue s) =? 0)%nat then s
  else
    match processingQueue s with
    | job :: rest =>
        mk (mockUsers s) rest (pendingRequests s) true (nextUserId s) (Some job)
    | [] => s
    end.

(** [resolveAllPendingRequests(userId, user)] *)
Definition resolveAllPendingRequests (userId : Z) (user : User) (s : t) : list Obs * t :=
  match pendingRequests s !! userId with
  | Some pendingJobs =>
      ((λ job, Resolved job user) <$> pendingJobs,
       mk (mockUsers s) (processingQueue s) (delete userId (pendingRequests s))
          (isProcessing s) (nextUserId s) (processing s))
  | None => ([], s)
  end.

(** [rejectAllPendingRequests(userId, error)] *)
Definition rejectAllPendingRequests (userId : Z) (error : Error) (s : t) : list Obs * t :=
  match pendingRequests s !! userId with
  | Some pendingJobs =>
      ((λ job, Rejected job error) <$> pendingJobs,
       mk (mockUsers s) (processingQueue s) (delete userId (pendingRequests s))
          (isProcessing s) (nextUserId s) (processing s))
  | None => ([], s)
  end.

(** [processJob(job)] from its [await] on: the backend is read once, then
    every pending request of the user is settled. *)
Definition processJob (job : QueueJob) (s : t) : list Obs * t :=
  match mockUsers s !! userId job with
  | None =>
      let '(obs, s) := rejectAllPendingRequests (userId job) (UserNotFound (userId job)) s in
      (Lookup (userId job) :: obs, s)
  | Some user =>
      let '(obs, s) := resolveAllPendingRequests (userId job) user s in
      (Lookup (userId job) :: obs, s)
  end.

(** The 200 ms timer of the job in process fires: [processJob] runs to its
    end and the [finally] of the interval callback clears the flag. *)
Definition jobTimer (s : t) : list Obs * t :=
  match processing s with
  | Some job =>
      let '(obs, s) := processJob job s in
      (obs, mk (mockUsers s) (processingQueue s) (pendingRequests s)
               false (nextUserId s) None)
  | None => ([], s)
  end.

(** [clearData()] *)
Definition clearData (s : t) : t :=
  mk (filter (λ kv, ¬ 3 < kv.1) (mockUsers s)) (processingQueue s)
     (pendingRequests s) (isProcessing s) 4 (processing s).

(** [getQueueStats()] *)
Record QueueStats := mkQueueStats {
  queueLength : nat;
  pendingRequestGroups : nat;
  totalPendingRequests : nat;
  stat_isProcessing : bool
}.

Definition getQueueStats (s : t) : QueueStats :=
  mkQueueStats (length (processingQueue s)) (size (pendingRequests s))
               (map_fold (λ _ jobs total, (total + length jobs)%nat) 0%nat
                         (pendingRequests s))
               (isProcessing s).

(** What the event loop can run against the service. *)
Inductive event :=
| GetUserById (userId : Z) (id : string) (now : Z)
| CreateUser (name email : string) (now : Z)
| Tick
| JobTimer
| ClearData.

Definition step (s : t) (e : event) : list Obs * t :=
  match e with
  | GetUserById userId id now => ([], getUserById userId id now s)
  | CreateUser name email now => ([], (createUser name email now s).2)
  | Tick => ([], tick s)
  | JobTimer => jobTimer s
  | ClearData => ([], clearData s)
  end.

Fixpoint run (s : t) (evs : list event) : list Obs * t :=
  match evs with
  | [] => ([], s)
  | e :: evs =>
      let '(obs1, s1) := step s e in
      let '(obs2, s2) := run s1 evs in
      (obs1 ++ obs2, s2)
  end.

(** The users queued for processing. *)
Definition queued (s : t) : list Z := userId <$> processingQueue s.

(** The user whose job is in process. *)
Definition in_process (s : t) (k : Z) : Prop :=
  ∃ job, processing s = Some job ∧ userId job = k.

(** The requests waiting for user [k]. *)
Definition waiters (k : Z) (s : t) : list QueueJob :=
  default [] (pendingRequests s !! k).

(** How the queue, the pending map and the job in process fit together. *)
Record consistent (s : t) : Prop := mkConsistent {
  queued_distinct : NoDup (queued s);
  queued_pending : ∀ job, job ∈ processingQueue s →
    ∃ rest, pendingRequests s !! userId job = Some (job :: rest);
  pending_jobs : ∀ k jobs, pendingRequests s !! k = Some jobs →
    jobs ≠ [] ∧ Forall (λ job, userId job = k) jobs;
  pending_queued : ∀ k, is_Some (pendingRequests s !! k) →
    k ∈ queued s ∨ in_process s k;
  in_process_pending : ∀ k, in_process s k →
    is_Some (pendingRequests s !! k) ∧ k ∉ queued s;
  in_process_flag : isProcessing s = bool_decide (is_Some (processing s))
}.

(** The jobs the calls of [getUserById] for user [k] create, in order. *)
Definition fetches (k : Z) (evs : list event) : list QueueJob :=
  omap (λ e, match e with
             | GetUserById userId id now =>
                 if decide (userId = k) then Some (mkQueueJob id userId now) else None
             | _ => None
             end) evs.

#[global] Instance Error_eq_dec : EqDecision Error.
Proof. solve_decision. Defined.
#[global] Instance User_eq_dec : EqDecision User.
Proof. solve_decision. Defined.
#[global] Instance Obs_eq_dec : EqDecision Obs.
Proof. solve_decision. Defined.

(** The backend reads for user [k] in a trace. *)
Definition lookups (k : Z) (obs : list Obs) : list Obs :=
  filter (λ o, o = Lookup k) obs.

(** The settlements of requests for user [k] in a trace. *)
Definition settles (k : Z) (o : Obs) : Prop :=
  match o with
  | Lookup _ => False
  | Resolved job _ | Rejected job _ => userId job = k
  end.

#[global] Instance settles_dec k o : Decision (settles k o).
Proof. destruct o; simpl; apply _. Defined.

Definition settled (k : Z) (obs : list Obs) : list Obs := filter (settles k) obs.

(** Settling a job with an outcome: a user or an error. *)
Definition settle (outcome : User + Error) (job : QueueJob) : Obs :=
  match outcome with
  | inl user => Resolved job user
  | inr error => Rejected job error
  end.

(** The outcome of the backend read for user [k] in state [s]. *)
Definition backend (s : t) (k : Z) : User + Error :=
  match mockUsers s !! k with
  | Some user => inl user
  | None => inr (UserNotFound k)
  end.

(** The state once the job in process has been dealt with. *)
Definition after_job (job : QueueJob) (s : t) : t :=
  mk (mockUsers s) (processingQueue s) (delete (userId job) (pendingRequests s))
     false (nextUserId s) None.

(** The users the backend was read for, in the order of a trace. *)
Definition looked_up (obs : list Obs) : list Z :=
  omap (λ o, match o with Lookup k => Some k | _ => None end) obs.

(** [n] rounds of the interval firing and the job's timer firing. *)
Definition rounds (n : nat) : list event := concat (replicate n [Tick; JobTimer]).
(** What the backing record keeps: a user is stored under its id, the
    ids in use are below [nextUserId], which never drops below 4, and the
    three users of the initial record are as they were built. *)
Record users_ok (s : t) : Prop := mkUsersOk {
  users_keyed : ∀ k u, mockUsers s !! k = Some u → id u = k;
  users_below_next : ∀ k u, mockUsers s !! k = Some u → k < nextUserId s;
  next_at_least_4 : 4 ≤ nextUserId s;
  initial_users_kept : ∀ k, k ≤ 3 → mockUsers s !! k = initialUsers !! k
}.

(** The set of users with a job in process: one at most. *)
Definition in_process_set (s : t) : gset Z :=
  match processing s with
  | Some job => {[ userId job ]}
  | None => ∅
  end.
End DatabaseService.

(** ** src/index.ts and src/routes/users.ts: the read path *)

Module App.

(** The two shared instances the routes are built with ([index.ts]). *)
Record t := mk {
  userCache : LRUCache.t User;
  dbService : DatabaseService.t
}.

(** [new LRUCache<User>(1000, 60000)] and [new DatabaseService()] *)
Definition new : t := mk (LRUCache.new 1000 60000) DatabaseService.new.

(** [`user:${userId}`] *)
Definition cacheKey (userId : Z) : string := "user:" +:+ pretty userId.

Inductive Reply :=
| BadRequest
| Ok (user : User) (cached : bool)
| NotFound (error : DatabaseService.Error).

(** What a run shows: the service's own trace, the writes of the route
    handlers into the cache, and the responses sent, each tagged with the
    id of its request. *)
Inductive Obs :=
| Db (o : DatabaseService.Obs)
| CacheSet (key : string) (user : User)
| Reply_ (id : string) (r : Reply).

(** [GET /users/:id] up to its [await]: [userId] is the parsed parameter
    (a [NaN] is answered like a value that is not positive), [id] names
    the request and is the uuid of the job when one is created. *)
Definition getUser (userId : Z) (id : string) (now rt : Z) (a : t) : list Obs * t :=
  if userId <=? 0 then ([Reply_ id BadRequest], a)
  else
    let '(cachedUser, cache) :=
      LRUCache.get (cacheKey userId) now rt (userCache a) in
    match cachedUser with
    | Some user => ([Reply_ id (Ok user true)], mk cache (dbService a))
    | None =>
        ([], mk cache (DatabaseService.getUserById userId id now (dbService a)))
    end.

(** The rest of the handler, run when the promise of its job is settled:
    on a value, [userCache.set(cacheKey, user)] and the 200 response; on
    an error, the 404 response. *)
Definition resume (now : Z) (a : t) (o : DatabaseService.Obs) : list Obs * t :=
  match o with
  | DatabaseService.Resolved job user =>
      ([CacheSet (cacheKey (userId job)) user; Reply_ (job_id job) (Ok user false)],
       mk (LRUCache.set (cacheKey (userId job)) user now (userCache a))
          (dbService a))
  | DatabaseService.Rejected job error =>
      ([Reply_ (job_id job) (NotFound error)], a)
  | DatabaseService.Lookup _ => ([], a)
  end.

(** The handlers resume in the order in which their promises were
    settled, after the code that settled them has run to its end. *)
Fixpoint resume_all (now : Z) (a : t) (obs : list DatabaseService.Obs) : list Obs * t :=
  match obs with
  | [] => ([], a)
  | o :: obs =>
      let '(tr1, a1) := resume now a o in
      let '(tr2, a2) := resume_all now a1 obs in
      (tr1 ++ tr2, a2)
  end.

(** The timer of the job in process fires at [now]. *)
Definition jobTimer (now : Z) (a : t) : list Obs * t :=
  let '(obs, db) := DatabaseService.jobTimer (dbService a) in
  let '(tr, a) := resume_all now (mk (userCache a) db) obs in
  ((Db <$> obs) ++ tr, a).

(** [POST /users] with a body that passed validation, when the timer of
    [createUser] fires: the new user is stored and cached. *)
Definition postUser (name email : string) (now : Z) (a : t) : list Obs * t :=
  let '(newUser, db) := DatabaseService.createUser name email now (dbService a) in
  ([CacheSet (cacheKey (id newUser)) newUser],
   mk (LRUCache.set (cacheKey (id newUser)) newUser now (userCache a)) db).

Inductive event :=
| GetUser (userId : Z) (id : string) (now rt : Z)
| PostUser (name email : string) (now : Z)
| Tick
| JobTimer (now : Z)
| DeleteCache
| Sweep (now : Z).

Definition step (a : t) (e : event) : list Obs * t :=
  match e with
  | GetUser userId id now rt => getUser userId id now rt a
  | PostUser name email now => postUser name email now a
  | Tick => ([], mk (userCache a) (DatabaseService.tick (dbService a)))
  | JobTimer now => jobTimer now a
  | DeleteCache => ([], mk (LRUCache.clear (userCache a)) (dbService a))
  | Sweep now => ([], mk (LRUCache.cleanupExpired now (userCache a)) (dbService a))
  end.

Fixpoint run (a : t) (evs : list event) : list Obs * t :=
  match evs with
  | [] => ([], a)
  | e :: evs =>
      let '(tr1, a1) := step a e in
      let '(tr2, a2) := run a1 evs in
      (tr1 ++ tr2, a2)
  end.

(** Whether, in a trace, a write into the cache comes before the first
    completion of a waiter with a value. *)
Fixpoint populated_before_completion (tr : list Obs) : bool :=
  match tr with
  | [] => false
  | CacheSet _ _ :: _ => true
  | Db (DatabaseService.Resolved _ _) :: _ => false
  | _ :: tr => populated_before_completion tr
  end.

(** What the handlers of the requests [ws], resumed with [user], do. *)
Definition resumed (user : User) (ws : list QueueJob) : list Obs :=
  ws ≫= λ w, [CacheSet (cacheKey (userId w)) user; Reply_ (job_id w) (Ok user false)].

(** The handlers of resolved requests write the user into the cache, one
    after the other. *)
Definition cache_after (user : User) (now : Z) (c : LRUCache.t User) (ws : list QueueJob) :
    LRUCache.t User :=
  foldl (λ c w, LRUCache.set (cacheKey (userId w)) user now c) c ws.

(** An event that is not [DELETE /cache] and whose clock reading, if it
    reads the clock, lies between [lo] and [hi]. *)
Definition keeps_cache (lo hi : Z) (e : event) : Prop :=
  match e with
  | DeleteCache => False
  | Tick => True
  | GetUser _ _ now _ | PostUser _ _ now | JobTimer now | Sweep now =>
      lo ≤ now ≤ hi
  end.
End App.

(** ** Properties of the insertion-ordered map *)

Module JsMapFacts.
Section MapFacts.
Context {V : Type}.
Implicit Types (m : JsMap.t V) (k : string) (v : V).

Lemma get_None_keys k m : JsMap.get k m = None ↔ k ∉ JsMap.keys m.
Proof.
  induction m as [|[k' v'] m IH]; simpl.
  - split; [intros _; apply not_elem_of_nil | done].
  - rewrite not_elem_of_cons. destruct (decide (k = k')) as [->|Hne].
    + split; [done | intros [? _]; done].
    + rewrite IH. tauto.
Qed.

Lemma get_Some_elem k v m : JsMap.get k m = Some v → (k, v) ∈ m.
Proof.
  induction m as [|[k' v'] m IH]; simpl; [done|].
  destruct (decide (k = k')) as [->|Hne].
  - intros [= ->]. left.
  - intros H. right. auto.
Qed.

Lemma delete_notin k m : k ∉ JsMap.keys m → JsMap.delete k m = m.
Proof.
  induction m as [|[k' v'] m IH]; simpl; [done|].
  rewrite not_elem_of_cons. intros [Hne Hnot].
  destruct (decide (k = k')); [done|]. by rewrite IH.
Qed.

Lemma get_delete_eq k m : JsMap.get k (JsMap.delete k m) = None.
Proof.
  induction m as [|[k' v'] m IH]; simpl; [done|].
  destruct (decide (k = k')); [done|]. simpl.
  destruct (decide (k = k')); done.
Qed.

Lemma get_delete_ne k k' m :
  k ≠ k' → JsMap.get k' (JsMap.delete k m) = JsMap.get k' m.
Proof.
  intros Hne. induction m as [|[k0 v0] m IH]; simpl; [done|].
  destruct (decide (k = k0)) as [->|]; simpl.
  - destruct (decide (k' = k0)); [congruence | done].
  - destruct (decide (k' = k0)); done.
Qed.

Lemma keys_delete_subseteq k m :
  JsMap.keys (JsMap.delete k m) ⊆ JsMap.keys m.
Proof.
  induction m as [|[k' v'] m IH]; simpl; [done|].
  destruct (decide (k = k')); simpl.
  - by apply list_subseteq_cons.
  - intros x. rewrite !elem_of_cons. intros [->|Hin]; [by left|].
    right. by apply IH.
Qed.

Lemma NoDup_delete k m :
  NoDup (JsMap.keys m) → NoDup (JsMap.keys (JsMap.delete k m)).
Proof.
  induction m as [|[k' v'] m IH]; simpl; [done|].
  rewrite NoDup_cons. intros [Hnot Hnd].
  destruct (decide (k = k')); simpl; [auto|].
  apply NoDup_cons. split; [|auto].
  intros Hin. apply Hnot. by apply (keys_delete_subseteq k).
Qed.

Lemma length_delete k v m :
  NoDup (JsMap.keys m) → JsMap.get k m = Some v →
  S (length (JsMap.delete k m)) = length m.
Proof.
  induction m as [|[k' v'] m IH]; simpl; [done|].
  rewrite NoDup_cons. intros [Hnot Hnd].
  destruct (decide (k = k')) as [->|Hne].
  - intros _. by rewrite delete_notin.
  - intros Hget. simpl. f_equal. auto.
Qed.

Lemma set_fresh k v m : JsMap.get k m = None → JsMap.set k v m = m ++ [(k, v)].
Proof.
  induction m as [|[k' v'] m IH]; simpl; [done|].
  destruct (decide (k = k')); [done|]. intros H. by rewrite IH.
Qed.

Lemma get_set_eq k v m : JsMap.get k (JsMap.set k v m) = Some v.
Proof.
  induction m as [|[k' v'] m IH]; simpl.
  - by rewrite decide_True.
  - destruct (decide (k = k')) as [->|]; simpl.
    + by rewrite decide_True.
    + by rewrite decide_False.
Qed.

Lemma get_set_ne k k' v m :
  k ≠ k' → JsMap.get k' (JsMap.set k v m) = JsMap.get k' m.
Proof.
  intros Hne. induction m as [|[k0 v0] m IH]; simpl.
  - by rewrite decide_False.
  - destruct (decide (k = k0)) as [->|]; simpl.
    + destruct (decide (k' = k0)); [congruence | done].
    + destruct (decide (k' = k0)); done.
Qed.

Lemma NoDup_set_fresh k v m :
  NoDup (JsMap.keys m) → JsMap.get k m = None →
  NoDup (JsMap.keys (JsMap.set k v m)).
Proof.
  intros Hnd Hget. rewrite set_fresh by done.
  unfold JsMap.keys. rewrite fmap_app. simpl.
  apply NoDup_app. split; [done|]. split; [|apply NoDup_singleton].
  intros x Hx. rewrite list_elem_of_singleton. intros ->.
  by apply get_None_keys in Hget.
Qed.

Lemma has_true k m : JsMap.has k m = true ↔ is_Some (JsMap.get k m).
Proof.
  unfold JsMap.has. destruct (JsMap.get k m); split; done.
Qed.

Lemma has_false k m : JsMap.has k m = false ↔ JsMap.get k m = None.
Proof. unfold JsMap.has. destruct (JsMap.get k m); split; done. Qed.

Lemma first_key_in k m : JsMap.first_key m = Some k → is_Some (JsMap.get k m).
Proof.
  destruct m as [|[k' v'] m]; simpl; [done|]. intros [= ->].
  unfold JsMap.get. rewrite decide_True by done. eauto.
Qed.
End MapFacts.
End JsMapFacts.

(** ** Properties of the cache *)

Module LRUFacts.
Import LRUCache.
Section Facts.
Context {T : Type}.
Implicit Types (c : LRUCache.t T) (o : LRUCache.op T) (key : string).

(** *** Request counters *)

Lemma counters_updateResponseTime rt c :
  counters (updateResponseTime rt c) = counters c.
Proof. done. Qed.

Lemma foldl_preserves {A B} (f : A → B → A) (P : A → Prop) l :
  (∀ a b, P a → P (f a b)) → ∀ a, P a → P (foldl f a l).
Proof. intros Hf. induction l; simpl; auto. Qed.

Lemma counters_cleanupExpired now c :
  counters (cleanupExpired now c) = counters c.
Proof.
  unfold cleanupExpired.
  apply (foldl_preserves _ (fun c' => counters c' = counters c)); [|done].
  intros a b <-. done.
Qed.

Lemma counters_effect_holds c o : counters_effect c o.
Proof.
  unfold counters_effect.
  destruct (counters c) as [[h m] n] eqn:Hc.
  unfold counters in Hc. injection Hc as <- <- <-.
  destruct o as [key now rt|key v now|key| |key now|now]; simpl.
  - unfold get. simpl. destruct (JsMap.get key (cache c)) as [e|]; [|done].
    by destruct (expired _ now e).
  - unfold set. destruct (JsMap.has key (cache c)); [done|].
    destruct (cache_maxSize c <=? JsMap.size (cache c)); [|done].
    destruct (truthy _); [|done]. by destruct (JsMap.first_key _).
  - unfold delete. by destruct (JsMap.has key (cache c)).
  - done.
  - unfold has. destruct (JsMap.get key (cache c)) as [e|]; [|done].
    by destruct (expired _ now e).
  - apply counters_cleanupExpired.
Qed.

Lemma counters_consistent_apply c o :
  counters_consistent c → counters_consistent (apply c o).
Proof.
  intros Hc. pose proof (counters_effect_holds c o) as He.
  unfold counters_effect, counters_consistent, counters in *.
  destruct o as [key now rt|key v now|key| |key now|now]; simpl in *;
    try destruct (get key now rt c).1;
    try injection He as -> -> ->; lia.
Qed.

Lemma run_snoc c ops o : run c (ops ++ [o]) = apply (run c ops) o.
Proof. unfold run. by rewrite foldl_app. Qed.

Lemma counters_consistent_run c ops :
  counters_consistent c → counters_consistent (run c ops).
Proof.
  intros Hc. induction ops as [|o ops IH] using rev_ind; [done|].
  rewrite run_snoc. by apply counters_consistent_apply.
Qed.

(** *** Fields no operation changes *)

Lemma ttl_updateResponseTime rt c : ttl (updateResponseTime rt c) = ttl c.
Proof. done. Qed.

Lemma config_cleanupExpired now c :
  ttl (cleanupExpired now c) = ttl c ∧
  cache_maxSize (cleanupExpired now c) = cache_maxSize c.
Proof.
  unfold cleanupExpired.
  apply (foldl_preserves _
           (fun c' => ttl c' = ttl c ∧ cache_maxSize c' = cache_maxSize c));
    [|done].
  by intros a b [<- <-].
Qed.

Lemma config_apply c o :
  ttl (apply c o) = ttl c ∧ cache_maxSize (apply c o) = cache_maxSize c.
Proof.
  destruct o as [key now rt|key v now|key| |key now|now]; simpl.
  - unfold get. simpl. destruct (JsMap.get key (cache c)) as [e|]; [|done].
    by destruct (expired _ now e).
  - unfold set. destruct (JsMap.has key (cache c)); [done|].
    destruct (cache_maxSize c <=? JsMap.size (cache c)); [|done].
    destruct (truthy _); [|done]. by destruct (JsMap.first_key _).
  - unfold delete. by destruct (JsMap.has key (cache c)).
  - done.
  - unfold has. destruct (JsMap.get key (cache c)) as [e|]; [|done].
    by destruct (expired _ now e).
  - apply config_cleanupExpired.
Qed.

Lemma config_run c ops :
  ttl (run c ops) = ttl c ∧ cache_maxSize (run c ops) = cache_maxSize c.
Proof.
  induction ops as [|o ops [IH1 IH2]] using rev_ind; [done|].
  rewrite run_snoc. destruct (config_apply (run c ops) o) as [-> ->]. done.
Qed.
(** *** The size statistic counts the stored entries *)

Lemma wf_new maxSize ttlMs : wf (@new T maxSize ttlMs).
Proof. split; [apply NoDup_nil_2 | done]. Qed.

Lemma wf_updateResponseTime rt c : wf c → wf (updateResponseTime rt c).
Proof. done. Qed.

Lemma get_delete_None (m : JsMap.t (CacheEntry T)) k k' :
  JsMap.get k' m = None → JsMap.get k' (JsMap.delete k m) = None.
Proof.
  rewrite !JsMapFacts.get_None_keys. intros Hnot Hin. apply Hnot.
  by apply (JsMapFacts.keys_delete_subseteq k).
Qed.

Lemma wf_drop_key c key :
  wf c → is_Some (JsMap.get key (cache c)) → wf (drop_key c key).
Proof.
  intros [Hnd Hsz] [e He]. split; simpl.
  - by apply JsMapFacts.NoDup_delete.
  - pose proof (JsMapFacts.length_delete _ _ _ Hnd He) as Hlen.
    unfold JsMap.size in *. lia.
Qed.

(** Re-inserting a stored key at the most recent position. *)
Lemma wf_move_to_end c key e e' :
  wf c → JsMap.get key (cache c) = Some e →
  wf (with_cache (JsMap.set key e' (JsMap.delete key (cache c))) c).
Proof.
  intros [Hnd Hsz] He. split; simpl.
  - apply JsMapFacts.NoDup_set_fresh; [by apply JsMapFacts.NoDup_delete|].
    apply JsMapFacts.get_delete_eq.
  - rewrite JsMapFacts.set_fresh by apply JsMapFacts.get_delete_eq.
    pose proof (JsMapFacts.length_delete _ _ _ Hnd He) as Hlen.
    unfold JsMap.size in *. rewrite length_app. simpl. lia.
Qed.

Lemma wf_insert_fresh c key e :
  wf c → JsMap.get key (cache c) = None →
  wf (with_cache (JsMap.set key e (cache c))
                 (with_stats (incr_currentSize (stats c)) c)).
Proof.
  intros [Hnd Hsz] He. split; simpl.
  - by apply JsMapFacts.NoDup_set_fresh.
  - rewrite JsMapFacts.set_fresh by done.
    unfold JsMap.size in *. rewrite length_app. simpl. lia.
Qed.

Lemma wf_get key now rt c : wf c → wf (get key now rt c).2.
Proof.
  intros Hwf. unfold get. simpl.
  destruct (JsMap.get key (cache c)) as [e|] eqn:He; [|done].
  destruct (expired _ now e); simpl.
  - apply wf_updateResponseTime. apply (wf_drop_key c key); eauto.
  - apply wf_updateResponseTime. by apply (wf_move_to_end c key e).
Qed.

Lemma wf_set key v now c : wf c → wf (set key v now c).
Proof.
  intros Hwf. unfold set.
  destruct (JsMap.has key (cache c)) eqn:Hhas.
  - apply JsMapFacts.has_true in Hhas as [e He].
    by apply (wf_move_to_end c key e).
  - apply JsMapFacts.has_false in Hhas.
    destruct (cache_maxSize c <=? JsMap.size (cache c));
      [|by apply (wf_insert_fresh c)].
    destruct (truthy _); [|by apply (wf_insert_fresh c)].
    destruct (JsMap.first_key (cache c)) as [k|] eqn:Hk;
      [|by apply (wf_insert_fresh c)].
    apply (wf_insert_fresh (drop_key c k)).
    + apply wf_drop_key; [done|]. by apply JsMapFacts.first_key_in.
    + by apply get_delete_None.
Qed.

Lemma wf_delete key c : wf c → wf (delete key c).2.
Proof.
  intros Hwf. unfold delete.
  destruct (JsMap.has key (cache c)) eqn:Hhas; simpl.
  - apply JsMapFacts.has_true in Hhas. by apply (wf_drop_key c key).
  - apply JsMapFacts.has_false, JsMapFacts.get_None_keys in Hhas.
    rewrite JsMapFacts.delete_notin by done. by destruct c.
Qed.

Lemma wf_has key now c : wf c → wf (has key now c).2.
Proof.
  intros Hwf. unfold has.
  destruct (JsMap.get key (cache c)) as [e|] eqn:He; [|done].
  destruct (expired _ now e); [|done].
  apply (wf_drop_key c key); eauto.
Qed.

Lemma wf_foldl_drop_key ks : ∀ c,
  wf c → NoDup ks → ks ⊆ JsMap.keys (cache c) → wf (foldl drop_key c ks).
Proof.
  induction ks as [|k ks IH]; intros c Hwf Hnd Hsub; simpl; [done|].
  apply NoDup_cons in Hnd as [Hk Hnd].
  assert (is_Some (JsMap.get k (cache c))) as Hsome.
  { destruct (JsMap.get k (cache c)) eqn:E; [eauto|].
    apply JsMapFacts.get_None_keys in E. destruct E. apply Hsub. left. }
  apply IH; [by apply wf_drop_key | done |].
  intros k' Hk'. simpl.
  assert (k' ∈ JsMap.keys (cache c)) as Hin by (apply Hsub; by right).
  destruct (JsMap.get k' (JsMap.delete k (cache c))) eqn:E.
  - apply JsMapFacts.get_Some_elem in E.
    by apply (list_elem_of_fmap_2 fst) in E.
  - rewrite JsMapFacts.get_delete_ne in E by (intros ->; done).
    by apply JsMapFacts.get_None_keys in E.
Qed.

Lemma keysToDelete_sublist now c :
  keysToDelete now c `sublist_of` JsMap.keys (cache c).
Proof. unfold keysToDelete, JsMap.keys. apply fmap_sublist, sublist_filter. Qed.

Lemma wf_cleanupExpired now c : wf c → wf (cleanupExpired now c).
Proof.
  intros Hwf. apply (wf_foldl_drop_key _ c Hwf).
  - eapply sublist_NoDup; [apply Hwf | apply keysToDelete_sublist].
  - apply sublist_subseteq, keysToDelete_sublist.
Qed.

Lemma wf_apply c o : wf c → wf (apply c o).
Proof.
  destruct o; simpl;
    auto using wf_get, wf_set, wf_delete, wf_has, wf_cleanupExpired.
  intros _. apply (wf_new (maxSize (stats c)) (ttl c)).
Qed.

Lemma wf_run c ops : wf c → wf (run c ops).
Proof.
  intros Hc. induction ops as [|o ops IH] using rev_ind; [done|].
  rewrite run_snoc. by apply wf_apply.
Qed.
(** *** The capacity bound *)

Lemma delete_sublist (m : JsMap.t (CacheEntry T)) k :
  JsMap.delete k m `sublist_of` m.
Proof.
  induction m as [|[k' v'] m IH]; simpl; [done|].
  destruct (decide (k = k')); [by apply sublist_cons | by apply sublist_skip].
Qed.

Lemma Forall_keys_delete (P : string → Prop) (m : JsMap.t (CacheEntry T)) k :
  Forall P (JsMap.keys m) → Forall P (JsMap.keys (JsMap.delete k m)).
Proof.
  rewrite !Forall_forall. intros H x Hx. apply H.
  by apply (JsMapFacts.keys_delete_subseteq k).
Qed.

Lemma bounded_drop_key c key : bounded c → bounded (drop_key c key).
Proof.
  intros [Hne Hsz]. split; simpl.
  - by apply Forall_keys_delete.
  - pose proof (sublist_length _ _ (delete_sublist (cache c) key)).
    unfold JsMap.size in *. lia.
Qed.

Lemma bounded_move_to_end c key e e' :
  wf c → bounded c → JsMap.get key (cache c) = Some e →
  bounded (with_cache (JsMap.set key e' (JsMap.delete key (cache c))) c).
Proof.
  intros [Hnd _] [Hne Hsz] He. split; simpl.
  - rewrite JsMapFacts.set_fresh by apply JsMapFacts.get_delete_eq.
    unfold JsMap.keys. rewrite fmap_app. apply Forall_app. split.
    + by apply Forall_keys_delete.
    + apply Forall_singleton. simpl.
      apply JsMapFacts.get_Some_elem, (list_elem_of_fmap_2 fst) in He.
      rewrite Forall_forall in Hne. by apply Hne.
  - rewrite JsMapFacts.set_fresh by apply JsMapFacts.get_delete_eq.
    pose proof (JsMapFacts.length_delete _ _ _ Hnd He) as Hlen.
    unfold JsMap.size in *. rewrite length_app. simpl. lia.
Qed.

Lemma bounded_insert_fresh c key e s :
  bounded c → key ≠ "" → JsMap.size (cache c) < cache_maxSize c →
  JsMap.get key (cache c) = None →
  bounded (with_cache (JsMap.set key e (cache c)) (with_stats s c)).
Proof.
  intros [Hne Hsz] Hkey Hlt He. split; simpl.
  - rewrite JsMapFacts.set_fresh by done.
    unfold JsMap.keys. rewrite fmap_app. apply Forall_app. split; [done|].
    by apply Forall_singleton.
  - rewrite JsMapFacts.set_fresh by done.
    unfold JsMap.size in *. rewrite length_app. simpl. lia.
Qed.

Lemma truthy_nonempty k : k ≠ "" → truthy (Some k) = true.
Proof.
  intros Hk. simpl. apply negb_true_iff. by apply String.eqb_neq.
Qed.

Lemma bounded_set key v now c :
  1 ≤ cache_maxSize c → key ≠ "" → wf c → bounded c →
  bounded (set key v now c).
Proof.
  intros Hmax Hkey Hwf Hb. unfold set.
  destruct (JsMap.has key (cache c)) eqn:Hhas.
  - apply JsMapFacts.has_true in Hhas as [e He].
    by apply (bounded_move_to_end c key e).
  - apply JsMapFacts.has_false in Hhas.
    destruct (cache_maxSize c <=? JsMap.size (cache c)) eqn:Hfull.
    + apply Z.leb_le in Hfull.
      destruct (cache c) as [|[k e0] m] eqn:Hm;
        [unfold JsMap.size in Hfull; simpl in Hfull; lia|].
      assert (k ≠ "") as Hk.
      { destruct Hb as [Hne _]. rewrite Hm in Hne. by inversion Hne. }
      rewrite <- Hm in *.
      assert (JsMap.first_key (cache c) = Some k) as -> by by rewrite Hm.
      rewrite truthy_nonempty by done.
      assert (is_Some (JsMap.get k (cache c))) as [e1 He1].
      { rewrite Hm. simpl. rewrite decide_True by done. eauto. }
      apply (bounded_insert_fresh (drop_key c k)); [| done | |].
      * by apply bounded_drop_key.
      * simpl. destruct Hwf as [Hnd _], Hb as [_ Hsz].
        pose proof (JsMapFacts.length_delete _ _ _ Hnd He1).
        unfold JsMap.size in *. lia.
      * by apply get_delete_None.
    + apply Z.leb_gt in Hfull. by apply (bounded_insert_fresh c).
Qed.

Lemma bounded_foldl_drop_key ks : ∀ c, bounded c → bounded (foldl drop_key c ks).
Proof.
  induction ks as [|k ks IH]; intros c Hb; simpl; [done|].
  by apply IH, bounded_drop_key.
Qed.

Lemma bounded_apply c o :
  1 ≤ cache_maxSize c → sets_nonempty_key o → wf c → bounded c →
  bounded (apply c o).
Proof.
  intros Hmax Hkey Hwf Hb.
  destruct o as [key now rt|key v now|key| |key now|now]; simpl.
  - unfold get. simpl.
    destruct (JsMap.get key (cache c)) as [e|] eqn:He; [|done].
    destruct (expired _ now e); simpl.
    + by apply (bounded_drop_key c key).
    + by apply (bounded_move_to_end c key e).
  - by apply bounded_set.
  - unfold delete. destruct (JsMap.has key (cache c)); simpl;
      by apply (bounded_drop_key c key).
  - split; [by apply Forall_nil|]. unfold JsMap.size. simpl. lia.
  - unfold has. destruct (JsMap.get key (cache c)) as [e|]; [|done].
    destruct (expired _ now e); [|done]. by apply (bounded_drop_key c key).
  - by apply bounded_foldl_drop_key.
Qed.

Lemma bounded_run c ops :
  1 ≤ cache_maxSize c → Forall sets_nonempty_key ops → wf c → bounded c →
  bounded (run c ops).
Proof.
  intros Hmax Hops Hwf Hb.
  induction ops as [|o ops IH] using rev_ind; [done|].
  apply Forall_app in Hops as [Hops Ho]. rewrite Forall_singleton in Ho.
  rewrite run_snoc. apply bounded_apply.
  - by destruct (config_run c ops) as [_ ->].
  - done.
  - by apply wf_run.
  - by apply IH.
Qed.

(** *** The map order is the order of last access *)

Lemma Forall_delete (P : string * CacheEntry T → Prop) (m : JsMap.t (CacheEntry T)) k :
  Forall P m → Forall P (JsMap.delete k m).
Proof.
  rewrite !Forall_forall. intros H x Hx. apply H.
  by apply (sublist_subseteq _ _ (delete_sublist m k)).
Qed.

Lemma recency_ordered_delete t (m : JsMap.t (CacheEntry T)) k :
  recency_ordered t m → recency_ordered t (JsMap.delete k m).
Proof.
  intros [Hs Hle]. split; [|by apply Forall_delete].
  clear Hle. induction m as [|[k' e] m IH]; simpl; [done|].
  apply StronglySorted_cons in Hs as [Hhd Hs].
  destruct (decide (k = k')); [by apply IH|].
  apply StronglySorted_cons. split; [by apply Forall_delete | by apply IH].
Qed.

Lemma recency_ordered_mono t t' (m : JsMap.t (CacheEntry T)) :
  t ≤ t' → recency_ordered t m → recency_ordered t' m.
Proof.
  intros Ht [Hs Hle]. split; [done|].
  eapply Forall_impl; [exact Hle|]. simpl. intros. lia.
Qed.

Lemma recency_ordered_append t now (m : JsMap.t (CacheEntry T)) key e :
  t ≤ now → lastAccessed e = now → JsMap.get key m = None →
  recency_ordered t m → recency_ordered now (JsMap.set key e m).
Proof.
  intros Ht He Hget [Hs Hle]. rewrite JsMapFacts.set_fresh by done. split.
  - apply StronglySorted_app. split_and!; [|done|].
    + intros p q Hp Hq. apply list_elem_of_singleton in Hq as ->. simpl.
      rewrite Forall_forall in Hle. specialize (Hle p Hp). simpl in Hle. lia.
    + apply StronglySorted_cons. split; [apply Forall_nil_2|constructor].
  - apply Forall_app. split.
    + eapply Forall_impl; [exact Hle|]. simpl. intros. lia.
    + apply Forall_singleton. simpl. lia.
Qed.

Lemma recency_ordered_foldl_drop_key t ks : ∀ c,
  recency_ordered t (cache c) → recency_ordered t (cache (foldl drop_key c ks)).
Proof.
  induction ks as [|k ks IH]; intros c Hc; simpl; [done|].
  apply IH. simpl. by apply recency_ordered_delete.
Qed.

Lemma recency_ordered_apply t c o :
  recency_ordered t (cache c) →
  (∀ now, op_now o = Some now → t ≤ now) →
  recency_ordered (default t (op_now o)) (cache (apply c o)).
Proof.
  intros Hc Hnow.
  destruct o as [key now rt|key v now|key| |key now|now]; simpl;
    try (specialize (Hnow now eq_refl)).
  - unfold get. simpl.
    destruct (JsMap.get key (cache c)) as [e|] eqn:He;
      [|by apply (recency_ordered_mono t)].
    destruct (expired _ now e); simpl.
    + by apply (recency_ordered_mono t), recency_ordered_delete.
    + apply (recency_ordered_append t); [done | done | |].
      * apply JsMapFacts.get_delete_eq.
      * by apply recency_ordered_delete.
  - unfold set. destruct (JsMap.has key (cache c)) eqn:Hhas; simpl.
    + apply (recency_ordered_append t); [done | done | |].
      * apply JsMapFacts.get_delete_eq.
      * by apply recency_ordered_delete.
    + apply JsMapFacts.has_false in Hhas.
      destruct (cache_maxSize c <=? JsMap.size (cache c));
        [|by apply (recency_ordered_append t)].
      destruct (truthy _); [|by apply (recency_ordered_append t)].
      destruct (JsMap.first_key (cache c)) as [k|];
        [|by apply (recency_ordered_append t)].
      simpl. apply (recency_ordered_append t); [done | done | |].
      * by apply get_delete_None.
      * by apply recency_ordered_delete.
  - unfold delete. destruct (JsMap.has key (cache c)); simpl;
      by apply recency_ordered_delete.
  - split; [constructor | apply Forall_nil_2].
  - unfold has. destruct (JsMap.get key (cache c)) as [e|];
      [|by apply (recency_ordered_mono t)].
    destruct (expired _ now e); simpl;
      [by apply (recency_ordered_mono t), recency_ordered_delete
      |by apply (recency_ordered_mono t)].
  - apply (recency_ordered_mono t); [done|].
    by apply recency_ordered_foldl_drop_key.
Qed.

Lemma recency_ordered_run ops : ∀ t c,
  recency_ordered t (cache c) → clock_monotone t ops →
  ∃ t', recency_ordered t' (cache (run c ops)).
Proof.
  induction ops as [|o ops IH]; intros t c Hc Hclock; [by exists t|].
  simpl in Hclock. change (run c (o :: ops)) with (run (apply c o) ops).
  destruct (op_now o) as [now|] eqn:Hnow.
  - destruct Hclock as [Ht Hclock]. apply (IH now); [|done].
    pose proof (recency_ordered_apply t c o Hc) as H.
    rewrite Hnow in H. apply H. by intros ? [= <-].
  - apply (IH t); [|done].
    pose proof (recency_ordered_apply t c o Hc) as H.
    rewrite Hnow in H. apply H. done.
Qed.

(** X1: with a clock that never goes back, a [set] of a new key into a full
    cache whose first key passes the guard removes exactly the first
    entry, and no remaining entry was accessed earlier than it. *)
Lemma set_evicts_least_recently_used maxSize ttlMs (ops : list (LRUCache.op T)) t0 key v now :
  clock_monotone t0 ops →
  let c := run (new maxSize ttlMs) ops in
  JsMap.has key (cache c) = false →
  maxSize ≤ size c →
  truthy (JsMap.first_key (cache c)) = true →
  ∃ k e m,
    cache c = (k, e) :: m ∧
    cache (set key v now c) = m ++ [(key, mkCacheEntry v now 1 now)] ∧
    Forall (λ p, lastAccessed e ≤ lastAccessed p.2) m.
Proof.
  intros Hclock c Hhas Hfull Hguard.
  assert (wf c) as [Hnd _] by apply wf_run, wf_new.
  destruct (recency_ordered_run ops t0 (new maxSize ttlMs)) as [t' [Hs _]];
    [split; [constructor | apply Forall_nil_2] | done |].
  fold c in Hs.
  assert (cache_maxSize c = maxSize) as Hcfg
    by apply (config_run (new maxSize ttlMs) ops).
  unfold set. rewrite Hhas, Hcfg.
  destruct (Z.leb_spec maxSize (JsMap.size (cache c))) as [_|Hlt];
    [|unfold size in Hfull; lia].
  rewrite Hguard.
  destruct (cache c) as [|[k e] m] eqn:Hm; [done|]. simpl.
  unfold JsMap.keys in Hnd. simpl in Hnd. apply NoDup_cons in Hnd as [Hk Hnd].
  apply StronglySorted_cons in Hs as [Hhd _].
  exists k, e, m. split; [done|]. split; [|done].
  rewrite decide_True by done.
  rewrite JsMapFacts.delete_notin by done.
  apply JsMapFacts.set_fresh.
  apply JsMapFacts.has_false in Hhas. simpl in Hhas.
  by destruct (decide (key = k)).
Qed.

(** *** Expiry as seen by [get] and [has] *)

Lemma get_stored key now rt c e :
  JsMap.get key (cache c) = Some e →
  (get key now rt c).1 = (if expired c now e then None else Some (value e)) ∧
  counters (get key now rt c).2 =
    (let '(h, m, n) := counters c in
     if expired c now e then (h, m + 1, n + 1) else (h + 1, m, n + 1)) ∧
  JsMap.get key (cache (get key now rt c).2) =
    (if expired c now e then None
     else Some (mkCacheEntry (value e) (timestamp e) (accessCount e + 1) now)).
Proof.
  intros He. unfold get, counters. simpl. rewrite He.
  change (expired (with_stats _ c) now e) with (expired c now e).
  destruct (expired c now e); simpl.
  - split_and!; [done..|]. apply JsMapFacts.get_delete_eq.
  - split_and!; [done..|]. apply JsMapFacts.get_set_eq.
Qed.

Lemma set_stored key v now c :
  JsMap.get key (cache (set key v now c)) = Some (mkCacheEntry v now 1 now).
Proof.
  unfold set. destruct (JsMap.has key (cache c)); simpl;
    apply JsMapFacts.get_set_eq.
Qed.

Lemma has_stored key now c e :
  JsMap.get key (cache c) = Some e →
  has key now c = (if expired c now e then (false, drop_key c key) else (true, c)).
Proof. intros He. unfold has. by rewrite He. Qed.

(** *** The claims about the cache *)

(** C10: after every sequence of cache operations (get, set, delete, has,
    clear, and the periodic sweep) on a freshly constructed cache,
    hits + misses = totalRequests; and in the state reached, whatever the
    next operation is, only [get] raises these counters (totalRequests and
    exactly one of hits, misses, by one each), [clear] sets the three to
    zero, and every other operation leaves them as they are. *)
Theorem stats_hits_plus_misses_is_total maxSize ttlMs (ops : list (LRUCache.op T)) :
  counters_consistent (run (new maxSize ttlMs) ops) ∧
  ∀ o, counters_effect (run (new maxSize ttlMs) ops) o.
Proof.
  split.
  - apply counters_consistent_run. reflexivity.
  - intros o. apply counters_effect_holds.
Qed.

(** C6, as the code has it: after every sequence of cache operations on a
    freshly constructed cache, currentSize equals the number of entries
    stored in the map (an entry past its time to live is counted until a
    [get] or [has] of its key, or the sweep, removes it), the stored keys
    are distinct, and currentSize <= maxSize as long as maxSize >= 1 and no
    [set] was given the empty string as key. *)
Theorem currentSize_counts_stored_entries maxSize ttlMs (ops : list (LRUCache.op T)) :
  let c := run (new maxSize ttlMs) ops in
  currentSize (getStats c) = size c ∧
  NoDup (keys c) ∧
  (1 ≤ maxSize → Forall sets_nonempty_key ops →
   currentSize (getStats c) ≤ maxSize).
Proof.
  intros c.
  assert (wf c) as Hwf by apply wf_run, wf_new.
  destruct Hwf as [Hnd Hsz].
  split_and!; [done..|]. intros Hmax Hops.
  assert (bounded c) as [_ Hb].
  { apply bounded_run; [done | done | apply wf_new |].
    split; [apply Forall_nil_2 | simpl; unfold JsMap.size; simpl; lia]. }
  destruct (config_run (new maxSize ttlMs) ops) as [_ Hcfg].
  fold c in Hcfg. simpl in Hcfg. unfold getStats. lia.
Qed.

(** C3, as the code has it: a [get] of a key at time t, right after a
    [set] of it at time [T0] with value [v], is a hit returning [v] when
    t <= T0 + ttl, the instant T0 + ttl included, and a miss when
    t > T0 + ttl. The same holds after any operations in between, as long
    as the entry set at [T0] is still stored (not evicted, deleted or
    overwritten): the hit raises hits and keeps the insertion time, the
    miss raises misses and removes the entry. *)
Theorem get_hits_until_ttl_exceeded (c : LRUCache.t T) key v T0 t rt :
  (get key t rt (set key v T0 c)).1 = (if T0 + ttl c <? t then None else Some v) ∧
  ∀ ops e,
    let c' := run (set key v T0 c) ops in
    JsMap.get key (cache c') = Some e → timestamp e = T0 → value e = v →
    (get key t rt c').1 = (if T0 + ttl c <? t then None else Some v) ∧
    counters (get key t rt c').2 =
      (let '(h, m, n) := counters c' in
       if T0 + ttl c <? t then (h, m + 1, n + 1) else (h + 1, m, n + 1)) ∧
    timestamp <$> JsMap.get key (cache (get key t rt c').2) =
      (if T0 + ttl c <? t then None else Some T0).
Proof.
  assert (∀ ops e,
    let c' := run (set key v T0 c) ops in
    JsMap.get key (cache c') = Some e → timestamp e = T0 → value e = v →
    (get key t rt c').1 = (if T0 + ttl c <? t then None else Some v) ∧
    counters (get key t rt c').2 =
      (let '(h, m, n) := counters c' in
       if T0 + ttl c <? t then (h, m + 1, n + 1) else (h + 1, m, n + 1)) ∧
    timestamp <$> JsMap.get key (cache (get key t rt c').2) =
      (if T0 + ttl c <? t then None else Some T0)) as Hgen.
  { intros ops e c' He HT Hv.
    destruct (get_stored key t rt c' e He) as (Hr & Hc & Hg).
    assert (expired c' t e = (T0 + ttl c <? t)) as Hexp.
    { unfold expired. rewrite HT.
      destruct (config_run (set key v T0 c) ops) as [Httl _].
      fold c' in Httl. rewrite Httl.
      assert (ttl (set key v T0 c) = ttl c) as ->
        by apply (config_apply c (Set_ key v T0)).
      destruct (Z.ltb_spec (ttl c) (t - T0)), (Z.ltb_spec (T0 + ttl c) t);
        done || lia. }
    rewrite Hexp in *. rewrite Hr, Hc, Hg, Hv.
    split_and!; [done..|]. destruct (T0 + ttl c <? t); simpl; [done|].
    by rewrite HT. }
  split; [|exact Hgen].
  apply (Hgen [] (mkCacheEntry v T0 1 T0)); [apply set_stored | done | done].
Qed.

(** C9, as the code has it: [has(key)] returns true exactly when a [get]
    of the key at the same instant is a hit; it never changes hits, misses,
    totalRequests or the response-time samples; when it returns true the
    whole cache (entries, their order, lastAccessed, accessCount, all
    statistics) is unchanged; when the key is stored but expired it removes
    the entry and lowers currentSize by one, as [get] does. *)
Theorem has_agrees_with_get key now rt (c : LRUCache.t T) :
  (has key now c).1 = is_hit (get key now rt c).1 ∧
  counters (has key now c).2 = counters c ∧
  responseTimes (has key now c).2 = responseTimes c ∧
  (has key now c).2 =
    (if (has key now c).1 then c
     else if JsMap.has key (cache c) then drop_key c key else c).
Proof.
  unfold JsMap.has.
  destruct (JsMap.get key (cache c)) as [e|] eqn:He.
  - destruct (get_stored key now rt c e He) as (-> & _ & _).
    rewrite (has_stored key now c e He).
    by destruct (expired c now e).
  - unfold has, get. simpl. by rewrite He.
Qed.
End Facts.

(** *** Concrete runs *)

Lemma currentSize_counts_stored_entries_witness :
  let ops := [Set_ "a" 1 0; Get "a" 5 0; Set_ "b" 2 6; Set_ "c" 3 7] in
  let c := run (@new Z 2 10) ops in
  1 ≤ 2 ∧ Forall sets_nonempty_key ops ∧
  currentSize (getStats c) = size c ∧ currentSize (getStats c) ≤ 2.
Proof.
  intros ops c.
  pose proof (currentSize_counts_stored_entries (T:=Z) 2 10 ops) as (Hsz & _ & Hle).
  assert (Forall sets_nonempty_key ops) as Hops by (repeat constructor; done).
  split; [lia|]. split; [exact Hops|]. split; [exact Hsz|].
  apply Hle; [lia | exact Hops].
Defined.

(** C6 as stated fails: an entry set at time 0 with a time to live of 10
    is still counted by currentSize at time 100, when no entry is live. *)
Lemma currentSize_counts_expired_entry :
  let c := run (@new Z 2 10) [Set_ "a" 7 0] in
  currentSize (getStats c) = 1 ∧ live_count 100 c = 0 ∧
  currentSize (getStats c) ≠ live_count 100 c.
Proof. by vm_compute. Qed.

Lemma get_hits_until_ttl_exceeded_witness :
  let c' := run (set "u:1" 7 0 (@new Z 10 100)) [Get "u:1" 30 0; Set_ "u:2" 8 40] in
  JsMap.get "u:1" (cache c') = Some (mkCacheEntry 7 0 2 30) ∧
  (get "u:1" 100 0 c').1 = Some 7 ∧
  (get "u:1" 101 0 c').1 = None.
Proof.
  intros c'. split; [reflexivity|]. split.
  - exact (proj1 (proj2 (get_hits_until_ttl_exceeded (new 10 100) "u:1" 7 0 100 0)
                    [Get "u:1" 30 0; Set_ "u:2" 8 40]
                    (mkCacheEntry 7 0 2 30) eq_refl eq_refl eq_refl)).
  - exact (proj1 (proj2 (get_hits_until_ttl_exceeded (new 10 100) "u:1" 7 0 101 0)
                    [Get "u:1" 30 0; Set_ "u:2" 8 40]
                    (mkCacheEntry 7 0 2 30) eq_refl eq_refl eq_refl)).
Defined.

(** C3 as stated fails at the instant T + ttl: an entry set at time 0 with
    a time to live of 60000 is a hit for a [get] at time 60000. *)
Lemma get_at_ttl_instant_is_hit :
  let r := get "u:1" 60000 0 (set "u:1" 7 0 (@new Z 1000 60000)) in
  r.1 = Some 7 ∧ r.1 ≠ None ∧ hits (getStats r.2) = 1 ∧ misses (getStats r.2) = 0.
Proof. by vm_compute. Qed.

(** C9 as stated fails on an expired entry: [has] removes it and lowers
    the currentSize statistic. *)
Lemma has_of_expired_entry_changes_stats :
  let c := set "a" 7 0 (@new Z 10 5) in
  (has "a" 100 c).1 = false ∧
  currentSize (getStats c) = 1 ∧
  currentSize (getStats (has "a" 100 c).2) = 0 ∧
  getStats (has "a" 100 c).2 ≠ getStats c ∧
  keys c = ["a"] ∧ keys (has "a" 100 c).2 = [].
Proof. by vm_compute. Qed.

(** C2 on the input where the code falls short of it: with maxSize = 1, a
    [set] of the empty string followed by a [set] of a new key evicts
    nothing (the first key, the empty string, is falsy in the guard
    [if (firstKey)]) and leaves currentSize = 2 > maxSize. *)
Example set_does_not_evict_empty_string_key :
  let c := run (@new Z 1 60000) [Set_ "" 1 0; Set_ "a" 2 1] in
  keys c = [""; "a"] ∧
  currentSize (getStats c) = 2 ∧
  maxSize (getStats c) = 1 ∧
  ¬ currentSize (getStats c) ≤ maxSize (getStats c).
Proof. by vm_compute. Qed.
End LRUFacts.

(** ** Further properties of the cache *)

Module LRUExtras.
Import LRUCache.
Section Extras.
Context {T : Type}.
Implicit Types (c : LRUCache.t T) (o : LRUCache.op T) (key : string).

(** *** The sweep *)

Lemma foldl_delete_notin (m : JsMap.t (CacheEntry T)) ks :
  (∀ k, k ∈ ks → k ∉ JsMap.keys m) →
  foldl (λ m k, JsMap.delete k m) m ks = m.
Proof.
  induction ks as [|k ks IH]; intros Hks; simpl; [done|].
  rewrite JsMapFacts.delete_notin by (apply Hks; left).
  apply IH. intros k' Hk'. apply Hks. by right.
Qed.

Lemma foldl_delete_cons (m : JsMap.t (CacheEntry T)) k e ks :
  k ∉ ks →
  foldl (λ m k, JsMap.delete k m) ((k, e) :: m) ks =
    (k, e) :: foldl (λ m k, JsMap.delete k m) m ks.
Proof.
  revert m. induction ks as [|k' ks IH]; intros m Hk; simpl; [done|].
  apply not_elem_of_cons in Hk as [Hne Hk].
  rewrite decide_False by done. by apply IH.
Qed.

Lemma foldl_delete_filter (P : string * CacheEntry T → Prop)
    `{!∀ p, Decision (P p)} (m : list (string * CacheEntry T)) :
  NoDup (JsMap.keys m) →
  foldl (λ m k, JsMap.delete k m) m (filter P m).*1 = filter (λ p, ¬ P p) m.
Proof.
  induction m as [|[k e] m IH]; [done|].
  unfold JsMap.keys. rewrite fmap_cons, NoDup_cons. intros [Hk Hnd].
  assert (∀ k', k' ∈ (filter P m).*1 → k' ∈ m.*1) as Hsub.
  { intros k' (p & -> & Hp)%list_elem_of_fmap.
    apply list_elem_of_filter in Hp as [_ Hp]. by apply list_elem_of_fmap_2. }
  rewrite !filter_cons. destruct (decide (P (k, e))) as [HP|HP].
  - rewrite decide_False by tauto. rewrite fmap_cons. simpl.
    rewrite decide_True by done.
    rewrite JsMapFacts.delete_notin by done. by apply IH.
  - rewrite decide_True by done.
    rewrite foldl_delete_cons by (intros Hin; apply Hk; by apply Hsub).
    f_equal. by apply IH.
Qed.

Lemma cache_foldl_drop_key ks : ∀ c,
  cache (foldl drop_key c ks) = foldl (λ m k, JsMap.delete k m) (cache c) ks.
Proof. induction ks as [|k ks IH]; intros c; simpl; [done|]. by rewrite IH. Qed.

(** X2: on a cache reached by any operations, the periodic sweep at time
    [now] removes exactly the entries older than the time to live and
    keeps the others in their order; afterwards currentSize is the number
    of unexpired entries, and hits, misses and totalRequests are as they
    were. *)
Theorem sweep_leaves_exactly_unexpired_entries maxSize ttlMs (ops : list (LRUCache.op T)) now :
  let c := run (new maxSize ttlMs) ops in
  cache (cleanupExpired now c) =
    filter (λ p, expired c now p.2 = false) (cache c) ∧
  currentSize (getStats (cleanupExpired now c)) = live_count now c ∧
  counters (cleanupExpired now c) = counters c.
Proof.
  intros c.
  assert (wf c) as Hwf by apply LRUFacts.wf_run, LRUFacts.wf_new.
  assert (cache (cleanupExpired now c) =
            filter (λ p, expired c now p.2 = false) (cache c)) as Hcache.
  { unfold cleanupExpired, keysToDelete. rewrite cache_foldl_drop_key.
    rewrite foldl_delete_filter by apply Hwf.
    apply list_filter_iff. intros p. by destruct (expired c now p.2). }
  split; [done|]. split; [|apply LRUFacts.counters_cleanupExpired].
  destruct (LRUFacts.wf_cleanupExpired now c Hwf) as [_ Hsz].
  unfold getStats, live_count. rewrite Hsz. unfold JsMap.size. by rewrite Hcache.
Qed.

(** *** Clearing *)

Lemma stats_maxSize_apply c o : maxSize (stats (apply c o)) = maxSize (stats c).
Proof.
  destruct o as [key now rt|key v now|key| |key now|now]; simpl.
  - unfold get. simpl. destruct (JsMap.get key (cache c)) as [e|]; [|done].
    by destruct (expired _ now e).
  - unfold set. destruct (JsMap.has key (cache c)); [done|].
    destruct (cache_maxSize c <=? JsMap.size (cache c)); [|done].
    destruct (truthy _); [|done]. by destruct (JsMap.first_key _).
  - unfold delete. by destruct (JsMap.has key (cache c)).
  - done.
  - unfold has. destruct (JsMap.get key (cache c)) as [e|]; [|done].
    by destruct (expired _ now e).
  - unfold cleanupExpired.
    apply (LRUFacts.foldl_preserves _
             (λ c', maxSize (stats c') = maxSize (stats c))); [|done].
    by intros a b <-.
Qed.

Lemma stats_maxSize_run c ops : maxSize (stats (run c ops)) = maxSize (stats c).
Proof.
  induction ops as [|o ops IH] using rev_ind; [done|].
  by rewrite LRUFacts.run_snoc, stats_maxSize_apply.
Qed.

(** X3: whatever operations a cache has seen, [clear] brings it back to
    the state its constructor built: no entries, no response-time
    samples, all counters zero, the same maxSize and time to live. *)
Theorem clear_restores_constructor_state maxSize ttlMs (ops : list (LRUCache.op T)) :
  clear (run (new maxSize ttlMs) ops) = new maxSize ttlMs.
Proof.
  unfold clear.
  destruct (LRUFacts.config_run (new maxSize ttlMs) ops) as [-> ->].
  by rewrite stats_maxSize_run.
Qed.

(** *** Deleting and overwriting *)

Lemma keys_delete (m : list (string * CacheEntry T)) key :
  (JsMap.delete key m).*1 = filter (λ k, k ≠ key) m.*1.
Proof.
  induction m as [|[k e] m IH]; [done|].
  rewrite fmap_cons, filter_cons. cbn [JsMap.delete fst].
  destruct (decide (key = k)) as [->|Hne].
  - rewrite decide_False by (intros H; by apply H). exact IH.
  - rewrite decide_True by (intros ->; by apply Hne).
    rewrite fmap_cons. by f_equal.
Qed.

(** X4: on a cache reached by any operations, [delete(key)] returns true
    exactly when the key is stored; afterwards the key is not stored,
    every other key has the entry it had, the remaining keys keep their
    order, and currentSize is again the number of stored entries. *)
Theorem delete_removes_only_its_key maxSize ttlMs (ops : list (LRUCache.op T)) key :
  let c := run (new maxSize ttlMs) ops in
  let c' := (delete key c).2 in
  (delete key c).1 = JsMap.has key (cache c) ∧
  JsMap.get key (cache c') = None ∧
  (∀ k, k ≠ key → JsMap.get k (cache c') = JsMap.get k (cache c)) ∧
  keys c' = filter (λ k, k ≠ key) (keys c) ∧
  currentSize (getStats c') =
    currentSize (getStats c) - (if JsMap.has key (cache c) then 1 else 0) ∧
  currentSize (getStats c') = size c'.
Proof.
  intros c c'.
  assert (wf c) as Hwf by apply LRUFacts.wf_run, LRUFacts.wf_new.
  assert (cache c' = JsMap.delete key (cache c)) as Hcache.
  { unfold c', delete. by destruct (JsMap.has key (cache c)). }
  split_and!.
  - unfold delete. by destruct (JsMap.has key (cache c)).
  - rewrite Hcache. apply JsMapFacts.get_delete_eq.
  - intros k Hk. rewrite Hcache. by apply JsMapFacts.get_delete_ne.
  - unfold keys, JsMap.keys. rewrite Hcache. apply keys_delete.
  - unfold c', delete, getStats.
    destruct (JsMap.has key (cache c)); simpl; lia.
  - apply (LRUFacts.wf_delete key c Hwf).
Qed.

(** X5: a [set] of a key that is already stored evicts nothing: the old
    entry is replaced by a new one (the value given, insertion time and
    last access [now], access count 1) at the most recently used
    position, every other entry and the statistics are unchanged. *)
Theorem set_of_stored_key_replaces_entry c key v now :
  JsMap.has key (cache c) = true →
  cache (set key v now c) =
    JsMap.delete key (cache c) ++ [(key, mkCacheEntry v now 1 now)] ∧
  getStats (set key v now c) = getStats c ∧
  (∀ k, k ≠ key → JsMap.get k (cache (set key v now c)) = JsMap.get k (cache c)).
Proof.
  intros Hhas. unfold set. rewrite Hhas. simpl. split_and!.
  - apply JsMapFacts.set_fresh, JsMapFacts.get_delete_eq.
  - done.
  - intros k Hk. rewrite JsMapFacts.get_set_ne by done.
    apply JsMapFacts.get_delete_ne. by intros ->.
Qed.

(** X6: a hit protects its key from the next eviction: after a [get] of
    a stored, unexpired key in a cache that holds at least one other
    entry, a [set] of any other key leaves the key stored, whatever
    maxSize is. *)
Theorem hit_protects_key_from_next_eviction c key e now rt key2 v now2 :
  NoDup (keys c) →
  JsMap.get key (cache c) = Some e →
  expired c now e = false →
  (2 ≤ length (cache c))%nat →
  key2 ≠ key →
  (get key now rt c).1 = Some (value e) ∧
  is_Some (JsMap.get key (cache (set key2 v now2 (get key now rt c).2))).
Proof.
  intros Hnd He Hexp Hlen Hne.
  destruct (LRUFacts.get_stored key now rt c e He) as (Hr & _ & _).
  rewrite Hexp in Hr. split; [done|].
  set (e' := mkCacheEntry (value e) (timestamp e) (accessCount e + 1) now).
  assert (cache (get key now rt c).2 = JsMap.delete key (cache c) ++ [(key, e')])
    as Hcache.
  { unfold get. simpl. rewrite He.
    change (expired (with_stats _ c) now e) with (expired c now e).
    rewrite Hexp. simpl.
    apply JsMapFacts.set_fresh, JsMapFacts.get_delete_eq. }
  pose proof (JsMapFacts.length_delete _ _ _ Hnd He) as Hdel.
  destruct (JsMap.delete key (cache c)) as [|[k0 e0] m0] eqn:Hm0;
    [simpl in Hdel; lia|].
  assert (k0 ≠ key) as Hk0.
  { intros ->. pose proof (JsMapFacts.get_delete_eq key (cache c)) as Hgone.
    rewrite Hm0 in Hgone. simpl in Hgone. by rewrite decide_True in Hgone. }
  assert (∀ m : JsMap.t (CacheEntry T),
            is_Some (JsMap.get key (m ++ [(key, e')]))) as Hlast.
  { intros m. induction m as [|[k1 e1] m IH]; simpl.
    - rewrite decide_True by done. eauto.
    - destruct (decide (key = k1)); eauto. }
  assert (∀ m, is_Some (JsMap.get key m) →
            is_Some (JsMap.get key (JsMap.set key2 (mkCacheEntry v now2 1 now2) m)))
    as Hset.
  { intros m Hm. by rewrite JsMapFacts.get_set_ne. }
  destruct (get key now rt c).2 as [M cM ct cs cr]. simpl in Hcache.
  assert (is_Some (JsMap.get key M)) as HgetM
    by (rewrite Hcache; apply (Hlast ((k0, e0) :: m0))).
  assert (JsMap.first_key M = Some k0) as Hfk by by rewrite Hcache.
  clear Hcache.
  unfold set. cbn [cache with_cache with_stats cache_maxSize].
  destruct (JsMap.has key2 M); cbn [cache with_cache with_stats].
  - apply Hset. by rewrite JsMapFacts.get_delete_ne.
  - destruct (cM <=? _); cbn [cache with_cache with_stats]; [|by apply Hset].
    rewrite Hfk.
    destruct (truthy (Some k0)); cbn [cache with_cache with_stats];
      [|by apply Hset].
    apply Hset. by rewrite JsMapFacts.get_delete_ne.
Qed.

(** *** Response times *)

Lemma responseTimes_apply c o :
  responseTimes (apply c o) =
    match o with
    | Get _ _ rt => responseTimes (updateResponseTime rt c)
    | Clear => []
    | _ => responseTimes c
    end.
Proof.
  destruct o as [key now rt|key v now|key| |key now|now]; simpl.
  - unfold get. simpl. destruct (JsMap.get key (cache c)) as [e|]; [|done].
    by destruct (expired _ now e).
  - unfold set. destruct (JsMap.has key (cache c)); [done|].
    destruct (cache_maxSize c <=? JsMap.size (cache c)); [|done].
    destruct (truthy _); [|done]. by destruct (JsMap.first_key _).
  - unfold delete. by destruct (JsMap.has key (cache c)).
  - done.
  - unfold has. destruct (JsMap.get key (cache c)) as [e|]; [|done].
    by destruct (expired _ now e).
  - unfold cleanupExpired.
    apply (LRUFacts.foldl_preserves _
             (λ c', responseTimes c' = responseTimes c)); [|done].
    by intros a b <-.
Qed.

Lemma average_apply c o :
  averageResponseTime (stats (apply c o)) =
    match o with
    | Get _ _ rt => averageResponseTime (stats (updateResponseTime rt c))
    | Clear => (0, 1)
    | _ => averageResponseTime (stats c)
    end.
Proof.
  destruct o as [key now rt|key v now|key| |key now|now]; simpl.
  - unfold get. simpl. destruct (JsMap.get key (cache c)) as [e|]; [|done].
    by destruct (expired _ now e).
  - unfold set. destruct (JsMap.has key (cache c)); [done|].
    destruct (cache_maxSize c <=? JsMap.size (cache c)); [|done].
    destruct (truthy _); [|done]. by destruct (JsMap.first_key _).
  - unfold delete. by destruct (JsMap.has key (cache c)).
  - done.
  - unfold has. destruct (JsMap.get key (cache c)) as [e|]; [|done].
    by destruct (expired _ now e).
  - unfold cleanupExpired.
    apply (LRUFacts.foldl_preserves _
             (λ c', averageResponseTime (stats c') = averageResponseTime (stats c)));
      [|done].
    by intros a b <-.
Qed.

Lemma last_thousand_push (l : list Z) rt :
  let pushed := drop (length l - 1000) l ++ [rt] in
  (if 1000 <? Z.of_nat (length pushed)
   then drop (length pushed - 1000) pushed else pushed) =
  drop (length (l ++ [rt]) - 1000) (l ++ [rt]).
Proof.
  intros pushed. unfold pushed. rewrite !length_app, length_drop. simpl.
  destruct (decide (length l < 1000)%nat) as [Hlt|Hge].
  - replace (length l - 1000)%nat with 0%nat by lia.
    replace (length l + 1 - 1000)%nat with 0%nat by lia. simpl.
    destruct (Z.ltb_spec 1000 (Z.of_nat (length l - 0 + 1))); [lia|done].
  - destruct (Z.ltb_spec 1000 (Z.of_nat (length l - (length l - 1000) + 1)));
      [|lia].
    replace (length l - (length l - 1000) + 1 - 1000)%nat with 1%nat by lia.
    replace (length l + 1 - 1000)%nat with (S (length l - 1000)) by lia.
    rewrite (drop_app_le l) by lia.
    rewrite drop_app_le by (rewrite length_drop; lia).
    by rewrite drop_drop, Nat.add_1_r.
Qed.

(** X7: the response-time window holds the samples of the last 1000
    [get]s since the last [clear], never more, and the average response
    time is the sum of that window over its length ((0, 1), the
    constructor's zero, while the window is empty). *)
Theorem response_times_keep_last_thousand_samples maxSize ttlMs (ops : list (LRUCache.op T)) :
  let c := run (new maxSize ttlMs) ops in
  responseTimes c = drop (length (samples ops) - 1000) (samples ops) ∧
  (length (responseTimes c) ≤ 1000)%nat ∧
  averageResponseTime (getStats c) =
    match responseTimes c with
    | [] => (0, 1)
    | _ => (sum (responseTimes c), Z.of_nat (length (responseTimes c)))
    end.
Proof.
  intros c. unfold c. clear c.
  assert (∀ l : list Z, (length (drop (length l - 1000) l) ≤ 1000)%nat) as Hbound.
  { intros l. rewrite length_drop. lia. }
  induction ops as [|o ops (IH1 & IH2 & IH3)] using rev_ind;
    [split_and!; [done | simpl; lia | done]|].
  rewrite LRUFacts.run_snoc. unfold samples. rewrite foldl_app. simpl.
  fold (samples ops). unfold getStats in *.
  rewrite responseTimes_apply, average_apply.
  destruct o as [key now rt|key v now|key| |key now|now];
    [|done|done|split_and!; [done | simpl; lia | done]|done|done].
  unfold updateResponseTime. cbn [responseTimes stats averageResponseTime set_average].
  rewrite IH1. rewrite last_thousand_push.
  split; [done|]. split; [apply Hbound|].
  destruct (drop _ (samples ops ++ [rt])) eqn:Hd; [|done].
  apply (f_equal length) in Hd. rewrite length_drop, length_app in Hd.
  simpl in Hd. lia.
Qed.

(** *** Entries that stay stored *)

Lemma delete_middle (pre post : list (string * CacheEntry T)) key e k :
  k ≠ key →
  JsMap.delete k (pre ++ (key, e) :: post) =
    JsMap.delete k pre ++ (key, e) :: JsMap.delete k post.
Proof.
  intros Hne. induction pre as [|[k0 e0] pre IH]; simpl.
  - by rewrite decide_False.
  - destruct (decide (k = k0)); [done|]. simpl. by rewrite IH.
Qed.

Lemma length_delete_le (m : list (string * CacheEntry T)) k :
  (length (JsMap.delete k m) ≤ length m)%nat.
Proof.
  induction m as [|[k0 e0] m IH]; simpl; [done|].
  destruct (decide (k = k0)); simpl; lia.
Qed.

Lemma held_within_mono key (v : T) lo n n' (m : list (string * CacheEntry T)) :
  (n ≤ n')%nat → held_within key v lo n m → held_within key v lo n' m.
Proof.
  intros Hn (pre & e & post & -> & Hv & Hlo & Hlen).
  exists pre, e, post. split_and!; [done..|lia].
Qed.

Lemma held_within_delete key (v : T) lo n (m : list (string * CacheEntry T)) k :
  k ≠ key → held_within key v lo n m →
  held_within key v lo n (JsMap.delete k m).
Proof.
  intros Hne (pre & e & post & -> & Hv & Hlo & Hlen).
  exists (JsMap.delete k pre), e, (JsMap.delete k post).
  rewrite delete_middle by done. split_and!; [done..|].
  pose proof (length_delete_le post k). lia.
Qed.

Lemma held_within_append key (v : T) lo n (m : list (string * CacheEntry T)) k e' :
  held_within key v lo n m → held_within key v lo (S n) (m ++ [(k, e')]).
Proof.
  intros (pre & e & post & -> & Hv & Hlo & Hlen).
  exists pre, e, (post ++ [(k, e')]).
  rewrite <- app_assoc. split_and!; [done..|].
  rewrite length_app. simpl. lia.
Qed.

Lemma held_within_fresh key (v : T) lo n (m : list (string * CacheEntry T)) k e' :
  JsMap.get k m = None → held_within key v lo n m →
  held_within key v lo (S n) (JsMap.set k e' m).
Proof.
  intros Hk H. rewrite JsMapFacts.set_fresh by done.
  by apply held_within_append.
Qed.

Lemma held_within_move key (v : T) lo n (m : list (string * CacheEntry T)) k e' :
  k ≠ key → held_within key v lo n m →
  held_within key v lo (S n) (JsMap.set k e' (JsMap.delete k m)).
Proof.
  intros Hne H. apply held_within_fresh; [apply JsMapFacts.get_delete_eq|].
  by apply held_within_delete.
Qed.

Lemma held_within_self key (v : T) lo (m : list (string * CacheEntry T)) e' :
  value e' = v → lo ≤ timestamp e' →
  held_within key v lo 0 (JsMap.set key e' (JsMap.delete key m)).
Proof.
  intros Hv Hlo.
  rewrite JsMapFacts.set_fresh by apply JsMapFacts.get_delete_eq.
  exists (JsMap.delete key m), e', []. done.
Qed.

Lemma held_within_get key (v : T) lo n (m : list (string * CacheEntry T)) :
  NoDup (JsMap.keys m) → held_within key v lo n m →
  ∃ e, JsMap.get key m = Some e ∧ value e = v ∧ lo ≤ timestamp e.
Proof.
  intros Hnd (pre & e & post & -> & Hv & Hlo & _). exists e.
  split; [|done]. clear Hv Hlo.
  unfold JsMap.keys in Hnd. rewrite fmap_app, fmap_cons in Hnd.
  apply NoDup_app in Hnd as (_ & Hpre & _).
  induction pre as [|[k0 e0] pre IH]; simpl.
  - by rewrite decide_True.
  - rewrite decide_False.
    + apply IH. intros x Hx. apply Hpre. by right.
    + intros Heq. apply (Hpre k0); [left | rewrite Heq; left].
Qed.

Lemma held_within_first key (v : T) lo n (m : list (string * CacheEntry T)) k0 :
  NoDup (JsMap.keys m) → held_within key v lo n m →
  (S n < length m)%nat → JsMap.first_key m = Some k0 → k0 ≠ key.
Proof.
  intros Hnd (pre & e & post & -> & _ & _ & Hlen) Hsize Hfirst ->.
  unfold JsMap.keys in Hnd. rewrite fmap_app, fmap_cons in Hnd.
  apply NoDup_app in Hnd as (_ & Hpre & _).
  destruct pre as [|[k1 e1] pre].
  - rewrite length_app in Hsize. simpl in Hsize. lia.
  - injection Hfirst as ->. apply (Hpre key); [left | left].
Qed.

Lemma held_within_filter key (v : T) lo n (m : list (string * CacheEntry T))
    (Q : string * CacheEntry T → Prop) `{!∀ p, Decision (Q p)} :
  (∀ e, value e = v → lo ≤ timestamp e → Q (key, e)) →
  held_within key v lo n m → held_within key v lo n (filter Q m).
Proof.
  intros HQ (pre & e & post & -> & Hv & Hlo & Hlen).
  exists (filter Q pre), e, (filter Q post).
  rewrite filter_app, filter_cons, decide_True by auto.
  split_and!; [done..|].
  pose proof (length_filter Q post). lia.
Qed.

(** A [get] of any key leaves a young enough entry stored; at most one
    more entry is more recently used than it afterwards. *)
Lemma held_within_get_step key (v : T) lo n c key' now rt :
  wf c → held_within key v lo n (cache c) →
  (key' = key → now ≤ lo + ttl c) →
  held_within key v lo (S n) (cache (get key' now rt c).2).
Proof.
  intros [Hnd _] Hheld Hnow. unfold get. cbn [stats cache with_stats].
  destruct (decide (key' = key)) as [->|Hne].
  - destruct (held_within_get _ _ _ _ _ Hnd Hheld) as (e & -> & Hv & Hlo).
    specialize (Hnow eq_refl).
    assert (expired (with_stats (incr_totalRequests (stats c)) c) now e = false)
      as ->.
    { unfold expired. cbn [ttl with_stats]. apply Z.ltb_ge. lia. }
    cbn [fst snd updateResponseTime cache with_stats with_cache].
    apply (held_within_mono _ _ _ 0); [lia|].
    by apply held_within_self.
  - destruct (JsMap.get key' (cache c)) as [e|].
    + destruct (expired _ now e);
        cbn [fst snd updateResponseTime cache with_stats with_cache].
      * apply (held_within_mono _ _ _ n); [lia|].
        by apply held_within_delete.
      * by apply held_within_move.
    + cbn [fst snd updateResponseTime cache with_stats with_cache].
      by apply (held_within_mono _ _ _ n); [lia|].
Qed.

(** A [set] leaves the entry stored as long as fewer than maxSize - 1
    entries are more recently used than it; a [set] of its own key with
    the same value renews it. *)
Lemma held_within_set_step key (v : T) lo n c key' v' now :
  wf c → held_within key v lo n (cache c) →
  Z.of_nat n + 1 < cache_maxSize c →
  (key' = key → v' = v ∧ lo ≤ now) →
  held_within key v lo (S n) (cache (set key' v' now c)).
Proof.
  intros [Hnd _] Hheld Hn Hsame. unfold set.
  destruct (decide (key' = key)) as [->|Hne].
  - destruct (Hsame eq_refl) as [-> Hlo].
    destruct (held_within_get _ _ _ _ _ Hnd Hheld) as (e & He & _).
    assert (JsMap.has key (cache c) = true) as ->
      by (apply JsMapFacts.has_true; eauto).
    cbn [cache with_cache].
    apply (held_within_mono _ _ _ 0); [lia|].
    by apply held_within_self.
  - destruct (JsMap.has key' (cache c)) eqn:Hhas.
    + cbn [cache with_cache]. by apply held_within_move.
    + apply JsMapFacts.has_false in Hhas.
      destruct (Z.leb_spec (cache_maxSize c) (JsMap.size (cache c))) as [Hfull|_];
        [|cbn [cache with_cache with_stats]; by apply held_within_fresh].
      destruct (truthy (JsMap.first_key (cache c)));
        [|cbn [cache with_cache with_stats]; by apply held_within_fresh].
      destruct (JsMap.first_key (cache c)) as [k0|] eqn:Hfirst;
        [|cbn [cache with_cache with_stats]; by apply held_within_fresh].
      cbn [cache with_cache with_stats].
      assert (k0 ≠ key) as Hk0.
      { apply (held_within_first _ _ _ _ _ _ Hnd Hheld); [|done].
        unfold JsMap.size in Hfull. lia. }
      apply held_within_fresh; [|by apply held_within_delete].
      destruct (decide (k0 = key')) as [->|Hne'];
        [apply JsMapFacts.get_delete_eq|].
      by rewrite JsMapFacts.get_delete_ne.
Qed.

(** The sweep leaves a young enough entry stored. *)
Lemma held_within_cleanupExpired key (v : T) lo n c now :
  wf c → held_within key v lo n (cache c) → now ≤ lo + ttl c →
  held_within key v lo n (cache (cleanupExpired now c)).
Proof.
  intros [Hnd _] Hheld Hnow. unfold cleanupExpired, keysToDelete.
  rewrite cache_foldl_drop_key, foldl_delete_filter by done.
  apply held_within_filter; [|done].
  intros e _ Hlo. unfold expired. simpl.
  destruct (Z.ltb_spec (ttl c) (now - timestamp e)); [lia|done].
Qed.

Lemma delete_append_fresh (m : list (string * CacheEntry T)) key e :
  key ∉ JsMap.keys m → JsMap.delete key (m ++ [(key, e)]) = m.
Proof.
  induction m as [|[k0 e0] m IH]; simpl.
  - intros _. by rewrite decide_True.
  - rewrite not_elem_of_cons. intros [Hne Hm].
    rewrite decide_False by done. f_equal. by apply IH.
Qed.

(** [set] puts its entry at the most recently used end. *)
Lemma held_within_after_set key (v : T) now c :
  held_within key v now 0 (cache (set key v now c)).
Proof.
  assert (∀ m : list (string * CacheEntry T),
    JsMap.get key m = None →
    held_within key v now 0 (JsMap.set key (mkCacheEntry v now 1 now) m)) as Hone.
  { intros m Hm. rewrite JsMapFacts.set_fresh by done.
    exists m, (mkCacheEntry v now 1 now), []. split_and!; [done|done|simpl; lia|done]. }
  unfold set. destruct (JsMap.has key (cache c)) eqn:Hhas.
  - cbn [cache with_cache]. apply Hone, JsMapFacts.get_delete_eq.
  - apply JsMapFacts.has_false in Hhas.
    destruct (cache_maxSize c <=? JsMap.size (cache c));
      [|cbn [cache with_cache with_stats]; by apply Hone].
    destruct (truthy (JsMap.first_key (cache c)));
      [|cbn [cache with_cache with_stats]; by apply Hone].
    destruct (JsMap.first_key (cache c)) as [k0|];
      [|cbn [cache with_cache with_stats]; by apply Hone].
    cbn [cache with_cache with_stats]. apply Hone.
    destruct (decide (k0 = key)) as [->|Hne'];
      [apply JsMapFacts.get_delete_eq|].
    by rewrite JsMapFacts.get_delete_ne.
Qed.

(** Setting a key twice in a row, with the same value at the same time,
    is setting it once. *)
Lemma set_twice key (v : T) now c :
  set key v now (set key v now c) = set key v now c.
Proof.
  assert (∀ c1 : LRUCache.t T,
    JsMap.get key (cache c1) = None →
    set key v now (with_cache (JsMap.set key (mkCacheEntry v now 1 now) (cache c1)) c1) =
      with_cache (JsMap.set key (mkCacheEntry v now 1 now) (cache c1)) c1) as Hone.
  { intros c1 Hc1. unfold set at 1. cbn [cache with_cache].
    assert (JsMap.has key (JsMap.set key (mkCacheEntry v now 1 now) (cache c1)) = true)
      as -> by (apply JsMapFacts.has_true; rewrite JsMapFacts.get_set_eq; eauto).
    cbn [cache with_cache cache_maxSize ttl stats responseTimes].
    unfold with_cache. cbn [cache cache_maxSize ttl stats responseTimes].
    f_equal. rewrite (JsMapFacts.set_fresh key _ (cache c1)) by done.
    assert (JsMap.delete key (cache c1 ++ [(key, mkCacheEntry v now 1 now)]) = cache c1)
      as ->.
    { apply delete_append_fresh. by apply JsMapFacts.get_None_keys. }
    by apply JsMapFacts.set_fresh. }
  unfold set at 2 3.
  destruct (JsMap.has key (cache c)) eqn:Hhas.
  - apply (Hone (with_cache (JsMap.delete key (cache c)) c)).
    apply JsMapFacts.get_delete_eq.
  - apply JsMapFacts.has_false in Hhas.
    match goal with
    | |- set _ _ _ (with_cache _ ?c1) = _ => apply (Hone c1)
    end.
    destruct (cache_maxSize c <=? JsMap.size (cache c)); [|done].
    destruct (truthy (JsMap.first_key (cache c))); [|done].
    destruct (JsMap.first_key (cache c)) as [k0|]; [|done].
    cbn [cache with_cache with_stats].
    destruct (decide (k0 = key)) as [->|Hne'];
      [apply JsMapFacts.get_delete_eq|].
    by rewrite JsMapFacts.get_delete_ne.
Qed.
End Extras.

(** *** Concrete runs *)

Lemma set_evicts_least_recently_used_witness :
  let ops := [Set_ "a" 1 0; Set_ "b" 2 1; Get "a" 2 0] in
  let c := run (@new Z 2 10) ops in
  clock_monotone 0 ops ∧
  keys c = ["b"; "a"] ∧
  keys (set "c" 3 3 c) = ["a"; "c"] ∧
  ∃ k e m,
    cache c = (k, e) :: m ∧
    cache (set "c" 3 3 c) = m ++ [("c", mkCacheEntry 3 3 1 3)] ∧
    Forall (λ p, lastAccessed e ≤ lastAccessed p.2) m.
Proof.
  intros ops c.
  assert (clock_monotone 0 ops) as Hclock by (simpl; repeat split; lia).
  split; [exact Hclock|]. split; [reflexivity|]. split; [reflexivity|].
  apply (LRUFacts.set_evicts_least_recently_used 2 10 ops 0 "c" 3 3 Hclock).
  - reflexivity.
  - vm_compute. discriminate.
  - reflexivity.
Defined.

Lemma set_of_stored_key_replaces_entry_witness :
  let c := run (@new Z 2 10) [Set_ "a" 1 0; Set_ "b" 2 1] in
  keys c = ["a"; "b"] ∧
  cache (set "a" 5 7 c) =
    [("b", mkCacheEntry 2 1 1 1); ("a", mkCacheEntry 5 7 1 7)] ∧
  getStats (set "a" 5 7 c) = getStats c.
Proof.
  intros c. split; [reflexivity|].
  destruct (set_of_stored_key_replaces_entry c "a" 5 7 eq_refl) as (Hc & Hs & _).
  exact (conj Hc Hs).
Defined.

Lemma hit_protects_key_from_next_eviction_witness :
  let c := run (@new Z 2 10) [Set_ "a" 1 0; Set_ "b" 2 1] in
  (get "a" 2 0 c).1 = Some 1 ∧
  keys (set "c" 3 3 (get "a" 2 0 c).2) = ["a"; "c"] ∧
  is_Some (JsMap.get "a" (cache (set "c" 3 3 (get "a" 2 0 c).2))).
Proof.
  intros c.
  assert (NoDup (keys c)) as Hnd.
  { apply (NoDup_cons_2 "a" ["b"]).
    - intros Hin. apply list_elem_of_singleton in Hin. discriminate.
    - apply NoDup_singleton. }
  destruct (hit_protects_key_from_next_eviction c "a" (mkCacheEntry 1 0 1 0)
              2 0 "c" 3 3 Hnd eq_refl eq_refl) as [Hhit Hkept].
  - simpl. lia.
  - discriminate.
  - split; [exact Hhit|]. split; [reflexivity | exact Hkept].
Defined.
End LRUExtras.

(** ** Properties of the rate limiter *)

Module RateLimiterFacts.
Import RateLimiter.

Lemma rl_config_step rl e :
  maxRequests (step rl e) = maxRequests rl ∧
  burstCapacity (step rl e) = burstCapacity rl.
Proof.
  destruct e as [clientId now|now|clientId]; simpl.
  - unfold middleware.
    destruct (burstCapacity rl <=? _); [done|].
    by destruct (maxRequests rl <=? _).
  - done.
  - unfold reset. destruct (truthy clientId); [|done]. by destruct clientId.
Qed.

Lemma within_capacity_created clientId now rl :
  0 ≤ maxRequests rl → 0 ≤ burstCapacity rl →
  all_within_capacity rl →
  within_capacity rl (lookup_or_create clientId now rl).
Proof.
  intros Hm Hb Hall. unfold lookup_or_create.
  destruct (clients rl !! clientId) as [info|] eqn:Hget; [by eapply Hall|].
  unfold within_capacity. simpl. lia.
Qed.

Lemma within_capacity_refresh now rl info :
  0 ≤ maxRequests rl → 0 ≤ burstCapacity rl →
  within_capacity rl info → within_capacity rl (refresh now rl info).
Proof.
  intros Hm Hb [Hc Hbc]. unfold refresh, within_capacity.
  destruct (resetTime info <=? now); simpl;
    destruct (_ <=? now); simpl; lia.
Qed.

Lemma check_effect_holds clientId now rl : check_effect clientId now rl.
Proof.
  unfold check_effect, middleware.
  set (info := refresh now rl (lookup_or_create clientId now rl)).
  destruct (Z.leb_spec (burstCapacity rl) (burstCount info)); simpl.
  { split; [done|]. apply lookup_insert_eq. }
  destruct (Z.leb_spec (maxRequests rl) (count info)); simpl.
  { split_and!; [done..|]. apply lookup_insert_eq. }
  split_and!; [done..|]. apply lookup_insert_eq.
Qed.

Lemma all_within_capacity_insert clientId info rl :
  all_within_capacity rl → within_capacity rl info →
  all_within_capacity (with_clients (<[clientId := info]> (clients rl)) rl).
Proof.
  intros Hall Hinfo k i. simpl. rewrite lookup_insert.
  case_decide; [by intros [= <-] | apply Hall].
Qed.

Lemma all_within_capacity_middleware clientId now rl :
  0 ≤ maxRequests rl → 0 ≤ burstCapacity rl →
  all_within_capacity rl → all_within_capacity (middleware clientId now rl).2.
Proof.
  intros Hm Hb Hall.
  pose proof (within_capacity_refresh now rl _ Hm Hb
                (within_capacity_created clientId now rl Hm Hb Hall)) as Hinfo.
  unfold middleware.
  set (info := refresh now rl (lookup_or_create clientId now rl)) in *.
  destruct (Z.leb_spec (burstCapacity rl) (burstCount info)); simpl.
  { by apply all_within_capacity_insert. }
  destruct (Z.leb_spec (maxRequests rl) (count info)); simpl.
  { by apply all_within_capacity_insert. }
  apply all_within_capacity_insert; [done|].
  destruct Hinfo as [Hc Hbc]. unfold within_capacity. simpl. lia.
Qed.

Lemma all_within_capacity_step rl e :
  0 ≤ maxRequests rl → 0 ≤ burstCapacity rl →
  all_within_capacity rl → all_within_capacity (step rl e).
Proof.
  intros Hm Hb Hall.
  destruct e as [clientId now|now|clientId]; simpl.
  - by apply all_within_capacity_middleware.
  - intros k i. simpl. intros [Hget _]%map_lookup_filter_Some.
    by apply (Hall k).
  - unfold reset. destruct (truthy clientId).
    + destruct clientId as [k0|]; [|done].
      intros k i. simpl. rewrite lookup_delete.
      case_decide; [done | apply Hall].
    + intros k i. simpl. by rewrite lookup_empty.
Qed.

Lemma rl_run_snoc rl evs e : run rl (evs ++ [e]) = step (run rl evs) e.
Proof. unfold run. by rewrite foldl_app. Qed.

Lemma rl_config_run rl evs :
  maxRequests (run rl evs) = maxRequests rl ∧
  burstCapacity (run rl evs) = burstCapacity rl.
Proof.
  induction evs as [|e evs [IH1 IH2]] using rev_ind; [done|].
  rewrite rl_run_snoc. destruct (rl_config_step (run rl evs) e) as [-> ->]. done.
Qed.

Lemma all_within_capacity_run rl evs :
  0 ≤ maxRequests rl → 0 ≤ burstCapacity rl →
  all_within_capacity rl → all_within_capacity (run rl evs).
Proof.
  intros Hm Hb Hall. induction evs as [|e evs IH] using rev_ind; [done|].
  rewrite rl_run_snoc. destruct (rl_config_run rl evs) as [Hcm Hcb].
  apply all_within_capacity_step; [lia | lia | done].
Qed.

(** C4: with capacities that are not negative, after every sequence of
    checks (of any clients, at any times, interleaved with the periodic
    cleanup and with resets) every stored entry has
    0 <= count <= maxRequests and 0 <= burstCount <= burstCapacity; and a
    further check in the state reached is denied exactly when a counter
    of the refreshed entry has reached its capacity (burst first), storing
    the entry without raising a counter, and otherwise raises both
    counters by one from values strictly below their capacities. *)
Theorem counters_never_exceed_capacity
    (maxRequests windowMs burstCapacity burstWindowMs : Z) (evs : list event) :
  0 ≤ maxRequests → 0 ≤ burstCapacity →
  let rl := run (new maxRequests windowMs burstCapacity burstWindowMs) evs in
  (∀ clientId info, clients rl !! clientId = Some info →
     0 ≤ count info ≤ maxRequests ∧ 0 ≤ burstCount info ≤ burstCapacity) ∧
  (∀ clientId now, check_effect clientId now rl).
Proof.
  intros Hm Hb rl. split; [|intros; apply check_effect_holds].
  intros clientId info Hget.
  set (rl0 := new maxRequests windowMs burstCapacity burstWindowMs) in *.
  assert (all_within_capacity rl) as Hall.
  { apply all_within_capacity_run; [done | done |].
    intros k i. simpl. by rewrite lookup_empty. }
  destruct (rl_config_run rl0 evs) as [Hcm Hcb]. fold rl in Hcm, Hcb.
  specialize (Hall clientId info Hget). unfold within_capacity in Hall.
  simpl in Hcm, Hcb. rewrite Hcm, Hcb in Hall. done.
Qed.

(** The defaults of the application: five checks of one client within the
    burst window are admitted, the sixth is denied on the burst limit and
    leaves both counters at five. *)
Lemma counters_never_exceed_capacity_witness :
  let evs := [Check_ "::1" 0; Check_ "::1" 1; Check_ "::1" 2;
              Check_ "::1" 3; Check_ "::1" 4; Check_ "::1" 5] in
  let rl := run (new 10 60000 5 10000) evs in
  (0 ≤ 10 ∧ 0 ≤ 5) ∧
  clients rl !! "::1" = Some (mkRateLimitInfo 5 60000 5 10000) ∧
  (5 ≤ 10 ∧ 5 ≤ 5) ∧
  last (responses (new 10 60000 5 10000) evs) =
    Some (TooManyRequests Burst 10 5 0 10000 5).
Proof.
  intros evs rl.
  assert (0 ≤ 10) as H10 by lia. assert (0 ≤ 5) as H5 by lia.
  assert (clients rl !! "::1" = Some (mkRateLimitInfo 5 60000 5 10000)) as Hget
    by (vm_compute; reflexivity).
  split; [exact (conj H10 H5)|]. split; [exact Hget|].
  split; [|vm_compute; reflexivity].
  destruct (proj1 (counters_never_exceed_capacity 10 60000 5 10000 evs H10 H5)
              "::1" _ Hget) as [[_ Hc] [_ Hbc]].
  exact (conj Hc Hbc).
Defined.
End RateLimiterFacts.

(** ** Further properties of the rate limiter *)

Module RateLimiterExtras.
Import RateLimiter.

Lemma ceil_seconds_spec x :
  1000 * (ceil_seconds x - 1) < x ≤ 1000 * ceil_seconds x.
Proof.
  unfold ceil_seconds.
  pose proof (Z.div_mod (- x) 1000 ltac:(lia)) as Hdm.
  pose proof (Z.mod_pos_bound (- x) 1000 ltac:(lia)) as Hmod.
  lia.
Qed.

Lemma refresh_in_future now rl info :
  0 < windowMs rl → 0 < burstWindowMs rl →
  now < resetTime (refresh now rl info) ∧
  now < burstResetTime (refresh now rl info).
Proof.
  intros Hw Hb. unfold refresh.
  destruct (Z.leb_spec (resetTime info) now); simpl;
    destruct (Z.leb_spec (burstResetTime info) now); simpl; lia.
Qed.

(** X8: with window lengths that are positive, every denial tells the
    client a reset time in the future and a retryAfter of at least one
    second, the reset time being no more than retryAfter seconds away and
    more than retryAfter - 1; it reports zero remaining requests and the
    limit that was hit (the burst capacity, or the regular maximum). *)
Theorem denial_names_future_reset clientId now rl scope retryAfter limit remaining resetAt ts :
  0 < windowMs rl → 0 < burstWindowMs rl →
  (middleware clientId now rl).1 =
    TooManyRequests scope retryAfter limit remaining resetAt ts →
  now < resetAt ∧ 1 ≤ retryAfter ∧
  1000 * (retryAfter - 1) < resetAt - now ≤ 1000 * retryAfter ∧
  remaining = 0 ∧ ts = now ∧
  limit = match scope with Burst => burstCapacity rl | Window => maxRequests rl end.
Proof.
  intros Hw Hb. unfold middleware.
  set (info := refresh now rl (lookup_or_create clientId now rl)).
  destruct (refresh_in_future now rl (lookup_or_create clientId now rl) Hw Hb)
    as [Hr Hbr].
  fold info in Hr, Hbr.
  destruct (burstCapacity rl <=? burstCount info); simpl.
  - intros [= <- <- <- <- <- <-].
    pose proof (ceil_seconds_spec (burstResetTime info - now)). lia.
  - destruct (maxRequests rl <=? count info); simpl; [|done].
    intros [= <- <- <- <- <- <-].
    pose proof (ceil_seconds_spec (resetTime info - now)). lia.
Qed.

Lemma denial_names_future_reset_witness :
  let evs := [Check_ "::1" 0; Check_ "::1" 100; Check_ "::1" 200] in
  let rl := run (new 10 60000 2 10000) evs in
  responses (new 10 60000 2 10000) evs !! 2%nat =
    Some (TooManyRequests Burst 10 2 0 10000 200) ∧
  (200 < 10000 ∧ 1 ≤ 10 ∧ 1000 * (10 - 1) < 10000 - 200 ≤ 1000 * 10).
Proof.
  intros evs rl. split; [reflexivity|].
  destruct (denial_names_future_reset "::1" 200
              (run (new 10 60000 2 10000) [Check_ "::1" 0; Check_ "::1" 100])
              Burst 10 2 0 10000 200) as (H1 & H2 & H3 & _);
    [reflexivity | reflexivity | reflexivity |].
  exact (conj H1 (conj H2 H3)).
Defined.

(** X9: with capacities that are not negative, after any checks,
    cleanups and resets, the headers of an admitted request report the
    two limits and remaining counts that are never negative and always
    below their limit. *)
Theorem admitted_headers_within_limits
    (maxRequests windowMs burstCapacity burstWindowMs : Z) (evs : list event)
    clientId now h :
  0 ≤ maxRequests → 0 ≤ burstCapacity →
  let rl := run (new maxRequests windowMs burstCapacity burstWindowMs) evs in
  (middleware clientId now rl).1 = Next h →
  x_limit h = maxRequests ∧ x_burst_limit h = burstCapacity ∧
  0 ≤ x_remaining h < maxRequests ∧
  0 ≤ x_burst_remaining h < burstCapacity.
Proof.
  intros Hm Hb rl.
  set (rl0 := new maxRequests windowMs burstCapacity burstWindowMs) in *.
  assert (all_within_capacity rl) as Hall.
  { apply RateLimiterFacts.all_within_capacity_run; [done | done |].
    intros k i. simpl. by rewrite lookup_empty. }
  destruct (RateLimiterFacts.rl_config_run rl0 evs) as [Hcm Hcb].
  fold rl in Hcm, Hcb. simpl in Hcm, Hcb.
  assert (0 ≤ RateLimiter.maxRequests rl) as Hm' by lia.
  assert (0 ≤ RateLimiter.burstCapacity rl) as Hb' by lia.
  pose proof (RateLimiterFacts.within_capacity_refresh now rl _ Hm' Hb'
                (RateLimiterFacts.within_capacity_created clientId now rl Hm' Hb' Hall))
    as [Hc Hbc].
  unfold middleware.
  set (info := refresh now rl (lookup_or_create clientId now rl)) in *.
  destruct (Z.leb_spec (RateLimiter.burstCapacity rl) (burstCount info));
    simpl; [done|].
  destruct (Z.leb_spec (RateLimiter.maxRequests rl) (count info));
    simpl; [done|].
  intros [= <-]. simpl. lia.
Qed.

Lemma admitted_headers_within_limits_witness :
  (middleware "::1" 5 (run (new 10 60000 5 10000) [Check_ "::1" 0])).1 =
    Next (mkHeaders 10 8 60000 5 3 10000) ∧
  (0 ≤ 8 < 10 ∧ 0 ≤ 3 < 5).
Proof.
  split; [reflexivity|].
  destruct (admitted_headers_within_limits 10 60000 5 10000 [Check_ "::1" 0]
              "::1" 5 (mkHeaders 10 8 60000 5 3 10000))
    as (_ & _ & H1 & H2); [lia | lia | reflexivity |].
  exact (conj H1 H2).
Defined.

(** *** The cleanup *)

Lemma refreshed_entry_after_cleanup clientId now now' rl :
  now ≤ now' →
  refresh now' (cleanupExpired now rl)
          (lookup_or_create clientId now' (cleanupExpired now rl)) =
  refresh now' rl (lookup_or_create clientId now' rl).
Proof.
  intros Hle. unfold lookup_or_create, cleanupExpired. simpl.
  destruct (clients rl !! clientId) as [info|] eqn:Hget.
  - destruct (decide (past_both now info)) as [Hpast|Hkeep].
    + rewrite map_lookup_filter_None_2
        by (right; intros i Hi; simpl; rewrite Hget in Hi;
            injection Hi as <-; intros Hn; by apply Hn).
      destruct Hpast as [Hr Hb]. unfold refresh. simpl.
      destruct (Z.leb_spec (now' + windowMs rl) now'); simpl;
        destruct (Z.leb_spec (now' + burstWindowMs rl) now'); simpl;
        destruct (Z.leb_spec (resetTime info) now'); simpl; try lia;
        destruct (Z.leb_spec (burstResetTime info) now'); simpl; try lia;
        done.
    + by rewrite (map_lookup_filter_Some_2 _ _ clientId info).
  - rewrite map_lookup_filter_None_2 by (by left). done.
Qed.

(** X10: the periodic cleanup cannot be noticed through checks: as long
    as the clock does not go back, a check made after a cleanup gets the
    answer, and leaves the entry for its client, that it would without
    the cleanup. The entries removed are exactly those past both of
    their reset times. *)
Theorem cleanup_is_not_observable clientId now now' rl :
  now ≤ now' →
  (middleware clientId now' (cleanupExpired now rl)).1 =
    (middleware clientId now' rl).1 ∧
  clients (middleware clientId now' (cleanupExpired now rl)).2 !! clientId =
    clients (middleware clientId now' rl).2 !! clientId ∧
  ∀ k, clients (cleanupExpired now rl) !! k =
         match clients rl !! k with
         | Some info =>
             if decide (resetTime info ≤ now ∧ burstResetTime info ≤ now)
             then None else Some info
         | None => None
         end.
Proof.
  intros Hle.
  pose proof (refreshed_entry_after_cleanup clientId now now' rl Hle) as Href.
  unfold middleware. rewrite Href.
  set (info := refresh now' rl (lookup_or_create clientId now' rl)).
  change (burstCapacity (cleanupExpired now rl)) with (burstCapacity rl).
  change (maxRequests (cleanupExpired now rl)) with (maxRequests rl).
  split_and!.
  - destruct (burstCapacity rl <=? burstCount info); [done|].
    by destruct (maxRequests rl <=? count info).
  - destruct (burstCapacity rl <=? burstCount info);
      [simpl; by rewrite !lookup_insert_eq|].
    destruct (maxRequests rl <=? count info);
      simpl; by rewrite !lookup_insert_eq.
  - intros k. unfold cleanupExpired. simpl.
    destruct (clients rl !! k) as [i|] eqn:Hk.
    + case_decide as Hp.
      * apply map_lookup_filter_None_2. right. intros i' Hi'. simpl.
        rewrite Hk in Hi'. injection Hi' as <-. intros Hn. by apply Hn.
      * by apply map_lookup_filter_Some_2.
    + apply map_lookup_filter_None_2. by left.
Qed.

Lemma cleanup_is_not_observable_witness :
  let rl := run (new 10 60000 5 10000) [Check_ "::1" 0; Check_ "::2" 50000] in
  clients (cleanupExpired 60000 rl) !! "::1" = None ∧
  clients (cleanupExpired 60000 rl) !! "::2" =
    Some (mkRateLimitInfo 1 110000 1 60000) ∧
  (middleware "::1" 61000 (cleanupExpired 60000 rl)).1 =
    (middleware "::1" 61000 rl).1.
Proof.
  intros rl. split; [reflexivity|]. split; [reflexivity|].
  apply (cleanup_is_not_observable "::1" 60000 61000 rl). lia.
Defined.
(** *** Counting inside a window *)

Lemma middleware_config clientId now rl :
  maxRequests (middleware clientId now rl).2 = maxRequests rl ∧
  windowMs (middleware clientId now rl).2 = windowMs rl ∧
  burstCapacity (middleware clientId now rl).2 = burstCapacity rl ∧
  burstWindowMs (middleware clientId now rl).2 = burstWindowMs rl.
Proof.
  unfold middleware. destruct (burstCapacity rl <=? _); [done|].
  by destruct (maxRequests rl <=? _).
Qed.

Lemma refresh_in_window now rl info :
  now < resetTime info → now < burstResetTime info → refresh now rl info = info.
Proof.
  intros Hr Hb. unfold refresh.
  destruct (Z.leb_spec (resetTime info) now); [lia|].
  destruct (Z.leb_spec (burstResetTime info) now); [lia|]. done.
Qed.

(** A check whose refreshed entry has both counters at [c]. *)
Lemma middleware_counting clientId now rl c R BR :
  refresh now rl (lookup_or_create clientId now rl) = mkRateLimitInfo c R c BR →
  0 ≤ c ≤ Z.min (maxRequests rl) (burstCapacity rl) →
  admitted (middleware clientId now rl).1 =
    bool_decide (c < Z.min (maxRequests rl) (burstCapacity rl)) ∧
  denial_scope (middleware clientId now rl).1 =
    (if admitted (middleware clientId now rl).1 then None
     else Some (if burstCapacity rl <=? maxRequests rl then Burst else Window)) ∧
  clients (middleware clientId now rl).2 !! clientId =
    Some (if admitted (middleware clientId now rl).1
          then mkRateLimitInfo (c + 1) R (c + 1) BR
          else mkRateLimitInfo c R c BR).
Proof.
  intros Hinfo Hc. unfold middleware. rewrite Hinfo. simpl.
  destruct (Z.leb_spec (burstCapacity rl) c); simpl.
  { rewrite bool_decide_eq_false_2 by lia. rewrite lookup_insert_eq.
    destruct (Z.leb_spec (burstCapacity rl) (maxRequests rl)); [done|lia]. }
  destruct (Z.leb_spec (maxRequests rl) c); simpl.
  { rewrite bool_decide_eq_false_2 by lia. rewrite lookup_insert_eq.
    destruct (Z.leb_spec (burstCapacity rl) (maxRequests rl)); [lia|done]. }
  rewrite bool_decide_eq_true_2 by lia. by rewrite lookup_insert_eq.
Qed.

Lemma window_responses clientId M b R BR ts : ∀ rl c,
  maxRequests rl = M → burstCapacity rl = b →
  clients rl !! clientId = Some (mkRateLimitInfo c R c BR) →
  0 ≤ c ≤ Z.min M b →
  Forall (λ t, t < R ∧ t < BR) ts →
  ∀ i r, responses rl (Check_ clientId <$> ts) !! i = Some r →
    admitted r = bool_decide (c + Z.of_nat i < Z.min M b) ∧
    denial_scope r =
      (if admitted r then None else Some (if b <=? M then Burst else Window)).
Proof.
  induction ts as [|t ts IH]; intros rl c HM Hb Hget Hc Hts i r Hr; [done|].
  apply Forall_cons in Hts as [[HtR HtBR] Hts].
  assert (refresh t rl (lookup_or_create clientId t rl) = mkRateLimitInfo c R c BR)
    as Hinfo.
  { unfold lookup_or_create. rewrite Hget. by apply refresh_in_window. }
  destruct (middleware_counting clientId t rl c R BR Hinfo) as (Ha & Hs & Hnext);
    [by rewrite HM, Hb|].
  rewrite HM, Hb in Ha, Hs.
  destruct (middleware_config clientId t rl) as (HM' & _ & Hb' & _).
  rewrite fmap_cons in Hr. cbn [responses] in Hr.
  destruct i as [|i]; simpl in Hr.
  - injection Hr as <-. split; [|exact Hs].
    rewrite Ha. apply bool_decide_ext. lia.
  - destruct (admitted (middleware clientId t rl).1) eqn:Hadm.
    + symmetry in Ha. apply bool_decide_eq_true in Ha.
      destruct (IH (middleware clientId t rl).2 (c + 1)) with (i := i) (r := r)
        as [Hi Hsc]; try done; [by rewrite HM' | by rewrite Hb' | lia |].
      split; [|done]. rewrite Hi. f_equal.
      apply bool_decide_ext. lia.
    + symmetry in Ha. apply bool_decide_eq_false in Ha.
      destruct (IH (middleware clientId t rl).2 c) with (i := i) (r := r)
        as [Hi Hsc]; try done; [by rewrite HM' | by rewrite Hb' |].
      split; [|done]. rewrite Hi.
      rewrite !bool_decide_eq_false_2 by lia. done.
Qed.

(** X11: for a client the limiter has no entry for, the first check
    opens both windows; of that check and the checks that follow before
    either window ends, exactly the first min(maxRequests, burstCapacity)
    are admitted and every later one is denied, on the burst limit when
    burstCapacity <= maxRequests and on the regular limit otherwise. *)
Theorem window_admits_exactly_its_capacity clientId rl t0 ts i r :
  clients rl !! clientId = None →
  0 ≤ maxRequests rl → 0 ≤ burstCapacity rl →
  0 < windowMs rl → 0 < burstWindowMs rl →
  Forall (λ t, t < t0 + windowMs rl ∧ t < t0 + burstWindowMs rl) ts →
  responses rl (Check_ clientId <$> t0 :: ts) !! i = Some r →
  admitted r =
    bool_decide (Z.of_nat i < Z.min (maxRequests rl) (burstCapacity rl)) ∧
  denial_scope r =
    (if admitted r then None
     else Some (if burstCapacity rl <=? maxRequests rl then Burst else Window)).
Proof.
  intros Hnew HM Hb Hw Hbw Hts Hr.
  assert (refresh t0 rl (lookup_or_create clientId t0 rl) =
            mkRateLimitInfo 0 (t0 + windowMs rl) 0 (t0 + burstWindowMs rl))
    as Hinfo.
  { unfold lookup_or_create. rewrite Hnew. apply refresh_in_window; simpl; lia. }
  destruct (middleware_counting clientId t0 rl 0 _ _ Hinfo) as (Ha & Hs & Hnext);
    [lia|].
  destruct (middleware_config clientId t0 rl) as (HM' & _ & Hb' & _).
  rewrite fmap_cons in Hr. cbn [responses] in Hr.
  destruct i as [|i]; simpl in Hr.
  - injection Hr as <-. split; [|exact Hs].
    rewrite Ha. apply bool_decide_ext. lia.
  - destruct (admitted (middleware clientId t0 rl).1) eqn:Hadm.
    + symmetry in Ha. apply bool_decide_eq_true in Ha.
      destruct (window_responses clientId (maxRequests rl) (burstCapacity rl)
                  (t0 + windowMs rl) (t0 + burstWindowMs rl) ts
                  (middleware clientId t0 rl).2 (0 + 1))
        with (i := i) (r := r) as [Hi Hsc]; try done; [lia|].
      split; [|done]. rewrite Hi. apply bool_decide_ext. lia.
    + symmetry in Ha. apply bool_decide_eq_false in Ha.
      destruct (window_responses clientId (maxRequests rl) (burstCapacity rl)
                  (t0 + windowMs rl) (t0 + burstWindowMs rl) ts
                  (middleware clientId t0 rl).2 0)
        with (i := i) (r := r) as [Hi Hsc]; try done; [lia|].
      split; [|done]. rewrite Hi.
      rewrite !bool_decide_eq_false_2 by lia. done.
Qed.

Lemma window_admits_exactly_its_capacity_witness :
  let rl := new 10 60000 5 10000 in
  let ts := [1000; 2000; 3000; 4000; 5000; 6000] in
  let r5 := TooManyRequests Burst 5 5 0 10000 5000 in
  admitted <$> responses rl (Check_ "::1" <$> 0 :: ts) =
    [true; true; true; true; true; false; false] ∧
  responses rl (Check_ "::1" <$> 0 :: ts) !! 5%nat = Some r5 ∧
  admitted r5 = bool_decide (5 < Z.min 10 5) ∧
  denial_scope r5 = Some Burst.
Proof.
  intros rl ts r5. split; [reflexivity|]. split; [reflexivity|].
  assert (Forall (λ t, t < 0 + windowMs rl ∧ t < 0 + burstWindowMs rl) ts) as Hts
    by (repeat constructor; simpl; lia).
  apply (window_admits_exactly_its_capacity "::1" rl 0 ts 5 r5 eq_refl);
    [simpl; lia | simpl; lia | simpl; lia | simpl; lia | exact Hts | reflexivity].
Defined.

(** *** When windows end *)

(** X13: once both windows of a client have ended, its next check is
    answered exactly as the first check of a client never seen: with
    capacities of at least one it is admitted, and both counters restart
    at one in windows that open at the time of the check. *)
Theorem check_after_both_windows_starts_afresh clientId now rl info :
  clients rl !! clientId = Some info →
  resetTime info ≤ now → burstResetTime info ≤ now →
  1 ≤ maxRequests rl → 1 ≤ burstCapacity rl →
  (middleware clientId now rl).1 =
    Next (mkHeaders (maxRequests rl) (maxRequests rl - 1) (now + windowMs rl)
                    (burstCapacity rl) (burstCapacity rl - 1)
                    (now + burstWindowMs rl)) ∧
  clients (middleware clientId now rl).2 !! clientId =
    Some (mkRateLimitInfo 1 (now + windowMs rl) 1 (now + burstWindowMs rl)) ∧
  (middleware clientId now rl).1 =
    (middleware clientId now
       (new (maxRequests rl) (windowMs rl) (burstCapacity rl) (burstWindowMs rl))).1.
Proof.
  intros Hget Hr Hb HM Hcap.
  assert (refresh now rl (lookup_or_create clientId now rl) =
            mkRateLimitInfo 0 (now + windowMs rl) 0 (now + burstWindowMs rl))
    as Hinfo.
  { unfold lookup_or_create, refresh. rewrite Hget.
    destruct (Z.leb_spec (resetTime info) now); [|lia]. simpl.
    destruct (Z.leb_spec (burstResetTime info) now); [|lia]. done. }
  assert (∀ rl', maxRequests rl' = maxRequests rl →
            windowMs rl' = windowMs rl → burstCapacity rl' = burstCapacity rl →
            burstWindowMs rl' = burstWindowMs rl →
            refresh now rl' (lookup_or_create clientId now rl') =
              mkRateLimitInfo 0 (now + windowMs rl) 0 (now + burstWindowMs rl) →
            (middleware clientId now rl').1 =
              Next (mkHeaders (maxRequests rl) (maxRequests rl - 1) (now + windowMs rl)
                              (burstCapacity rl) (burstCapacity rl - 1)
                              (now + burstWindowMs rl)) ∧
            clients (middleware clientId now rl').2 !! clientId =
              Some (mkRateLimitInfo 1 (now + windowMs rl) 1 (now + burstWindowMs rl)))
    as Hfresh.
  { intros rl' E1 E2 E3 E4 Hinfo'. unfold middleware.
    rewrite Hinfo', E1, E3. simpl.
    destruct (Z.leb_spec (burstCapacity rl) 0); [lia|].
    destruct (Z.leb_spec (maxRequests rl) 0); [lia|]. simpl.
    rewrite lookup_insert_eq. split; reflexivity. }
  destruct (Hfresh rl) as [H1 H2]; try done.
  split; [done|]. split; [done|]. rewrite H1. symmetry.
  apply Hfresh; try done.
  unfold lookup_or_create, refresh. simpl. rewrite lookup_empty. simpl.
  destruct (Z.leb_spec (now + windowMs rl) now); simpl;
    destruct (Z.leb_spec (now + burstWindowMs rl) now); done.
Qed.

Lemma check_after_both_windows_starts_afresh_witness :
  let evs := [Check_ "::1" 0; Check_ "::1" 1; Check_ "::1" 2] in
  let rl := run (new 2 60000 5 10000) evs in
  clients rl !! "::1" = Some (mkRateLimitInfo 2 60000 2 10000) ∧
  (middleware "::1" 59999 rl).1 = TooManyRequests Window 1 2 0 60000 59999 ∧
  (middleware "::1" 60000 rl).1 = Next (mkHeaders 2 1 120000 5 4 70000).
Proof.
  intros evs rl. split; [reflexivity|]. split; [reflexivity|].
  destruct (check_after_both_windows_starts_afresh "::1" 60000 rl
              (mkRateLimitInfo 2 60000 2 10000) eq_refl) as (H & _ & _);
    [simpl; lia | simpl; lia | vm_compute; discriminate
    | vm_compute; discriminate |].
  exact H.
Defined.

(** X14: the two windows end independently: a client that has used up
    the regular limit stays denied, on the regular limit, until the
    regular window ends, also after its burst window has ended; that
    check restarts the burst window and leaves the regular count. *)
Theorem regular_limit_outlasts_burst_window clientId now rl info :
  clients rl !! clientId = Some info →
  now < resetTime info → maxRequests rl ≤ count info →
  burstResetTime info ≤ now → 1 ≤ burstCapacity rl →
  (middleware clientId now rl).1 =
    TooManyRequests Window (ceil_seconds (resetTime info - now))
                    (maxRequests rl) 0 (resetTime info) now ∧
  clients (middleware clientId now rl).2 !! clientId =
    Some (mkRateLimitInfo (count info) (resetTime info) 0 (now + burstWindowMs rl)).
Proof.
  intros Hget Hr Hc Hb Hcap. unfold middleware, lookup_or_create, refresh.
  rewrite Hget.
  destruct (Z.leb_spec (resetTime info) now); [lia|].
  destruct (Z.leb_spec (burstResetTime info) now); [|lia]. simpl.
  destruct (Z.leb_spec (burstCapacity rl) 0); [lia|].
  destruct (Z.leb_spec (maxRequests rl) (count info)); [|lia]. simpl.
  by rewrite lookup_insert_eq.
Qed.

Lemma regular_limit_outlasts_burst_window_witness :
  let evs := [Check_ "::1" 0; Check_ "::1" 1; Check_ "::1" 2] in
  let rl := run (new 2 60000 5 10000) evs in
  (middleware "::1" 20000 rl).1 = TooManyRequests Window 40 2 0 60000 20000 ∧
  clients (middleware "::1" 20000 rl).2 !! "::1" =
    Some (mkRateLimitInfo 2 60000 0 30000).
Proof.
  intros evs rl.
  apply (regular_limit_outlasts_burst_window "::1" 20000 rl
           (mkRateLimitInfo 2 60000 2 10000) eq_refl);
    [simpl; lia | vm_compute; discriminate | simpl; lia
    | vm_compute; discriminate].
Defined.

(** *** Clients are independent *)

Lemma middleware_agree clientId now rl1 rl2 :
  agree_on clientId rl1 rl2 →
  (middleware clientId now rl1).1 = (middleware clientId now rl2).1 ∧
  agree_on clientId (middleware clientId now rl1).2 (middleware clientId now rl2).2.
Proof.
  intros (E1 & E2 & E3 & E4 & E5).
  assert (refresh now rl1 (lookup_or_create clientId now rl1) =
            refresh now rl2 (lookup_or_create clientId now rl2)) as Hinfo.
  { unfold lookup_or_create, refresh. by rewrite E2, E4, E5. }
  unfold middleware, agree_on. rewrite Hinfo, E1, E3.
  destruct (burstCapacity rl2 <=? _); simpl;
    [by rewrite !lookup_insert_eq, E1, E2, E3, E4|].
  destruct (maxRequests rl2 <=? _); simpl;
    by rewrite !lookup_insert_eq, E1, E2, E3, E4.
Qed.

Lemma middleware_other clientId clientId' now rl :
  clientId' ≠ clientId →
  agree_on clientId (middleware clientId' now rl).2 rl.
Proof.
  intros Hne. unfold middleware, agree_on.
  destruct (burstCapacity rl <=? _); simpl;
    [by rewrite lookup_insert_ne|].
  destruct (maxRequests rl <=? _); simpl; by rewrite lookup_insert_ne.
Qed.

Lemma agree_on_trans clientId rl1 rl2 rl3 :
  agree_on clientId rl1 rl2 → agree_on clientId rl2 rl3 → agree_on clientId rl1 rl3.
Proof.
  intros (A1 & A2 & A3 & A4 & A5) (B1 & B2 & B3 & B4 & B5).
  unfold agree_on. by rewrite A1, A2, A3, A4, A5.
Qed.

Lemma responses_of_agree clientId evs : ∀ rl1 rl2,
  Forall is_check evs → agree_on clientId rl1 rl2 →
  responses_of clientId rl1 evs = responses rl2 (filter (is_check_of clientId) evs).
Proof.
  induction evs as [|e evs IH]; intros rl1 rl2 Hevs Hag; [done|].
  apply Forall_cons in Hevs as [He Hevs].
  destruct e as [clientId' now| |]; [|done..].
  cbn [responses_of step]. rewrite filter_cons. simpl.
  destruct (decide (clientId' = clientId)) as [->|Hne].
  - cbn [responses step].
    destruct (middleware_agree clientId now rl1 rl2 Hag) as [-> Hag'].
    simpl. f_equal. by apply IH.
  - simpl. apply IH; [done|].
    eapply agree_on_trans; [by apply middleware_other | done].
Qed.

(** X12: the limit is kept per client: the answers a client gets in a
    run of checks are the answers it would get if the checks of all other
    clients had never been made. *)
Theorem other_clients_do_not_affect_answers clientId rl (evs : list event) :
  Forall is_check evs →
  responses_of clientId rl evs = responses rl (filter (is_check_of clientId) evs).
Proof. intros Hevs. by apply responses_of_agree. Qed.

Lemma other_clients_do_not_affect_answers_witness :
  let rl := new 10 60000 1 10000 in
  let evs := [Check_ "a" 0; Check_ "b" 1; Check_ "b" 2; Check_ "a" 3] in
  responses_of "a" rl evs =
    [Next (mkHeaders 10 9 60000 1 0 10000);
     TooManyRequests Burst 10 1 0 10000 3] ∧
  responses_of "a" rl evs = responses rl [Check_ "a" 0; Check_ "a" 3].
Proof.
  intros rl evs. split; [reflexivity|].
  apply (other_clients_do_not_affect_answers "a" rl evs).
  repeat constructor.
Defined.

(** *** Resetting *)

(** X23: [reset(clientId)] with an id that is not empty forgets exactly
    that client: its entry is gone, every other entry stays, and its next
    check is answered like the first check of a limiter just built.
    Without an argument, and also with the empty string as id, [reset]
    forgets every client. *)
Theorem reset_forgets_client clientId now rl :
  clientId ≠ "" →
  clients (reset (Some clientId) rl) !! clientId = None ∧
  (∀ k, k ≠ clientId → clients (reset (Some clientId) rl) !! k = clients rl !! k) ∧
  (middleware clientId now (reset (Some clientId) rl)).1 =
    (middleware clientId now
       (new (maxRequests rl) (windowMs rl) (burstCapacity rl) (burstWindowMs rl))).1 ∧
  clients (reset None rl) = ∅ ∧
  clients (reset (Some "") rl) = ∅.
Proof.
  intros Hne.
  assert (reset (Some clientId) rl = with_clients (delete clientId (clients rl)) rl)
    as ->.
  { unfold reset. simpl. apply String.eqb_neq in Hne. by rewrite Hne. }
  split_and!; try done.
  - apply lookup_delete_eq.
  - intros k Hk. simpl. by rewrite lookup_delete_ne.
  - apply middleware_agree. unfold agree_on. simpl.
    by rewrite lookup_delete_eq, lookup_empty.
Qed.

Lemma reset_forgets_client_witness :
  let rl := run (new 10 60000 1 10000) [Check_ "a" 0; Check_ "b" 1] in
  (middleware "a" 2 rl).1 = TooManyRequests Burst 10 1 0 10000 2 ∧
  clients (reset (Some "a") rl) !! "a" = None ∧
  (middleware "a" 2 (reset (Some "a") rl)).1 =
    Next (mkHeaders 10 9 60002 1 0 10002) ∧
  clients (reset (Some "") rl) = ∅.
Proof.
  intros rl. split; [reflexivity|].
  destruct (reset_forgets_client "a" 2 rl) as (Hgone & _ & Hnext & _ & Hall);
    [discriminate|].
  split; [exact Hgone|]. split; [|exact Hall].
  rewrite Hnext. reflexivity.
Defined.
End RateLimiterExtras.

(** ** Properties of the coalescing fetch queue *)

Module DatabaseServiceFacts.
Import DatabaseService.

Lemma run_app s evs1 evs2 :
  run s (evs1 ++ evs2) =
    let '(obs1, s1) := run s evs1 in
    let '(obs2, s2) := run s1 evs2 in
    (obs1 ++ obs2, s2).
Proof.
  revert s. induction evs1 as [|e evs1 IH]; intros s; simpl.
  - by destruct (run s evs2).
  - destruct (step s e) as [o1 s1]. rewrite IH.
    destruct (run s1 evs1) as [o2 s2]. destruct (run s2 evs2) as [o3 s3].
    by rewrite app_assoc.
Qed.

(** *** The job timer *)

Lemma jobTimer_pending s job jobs :
  processing s = Some job →
  pendingRequests s !! userId job = Some jobs →
  jobTimer s =
    (Lookup (userId job) :: (settle (backend s (userId job)) <$> jobs),
     after_job job s).
Proof.
  intros Hp Hjobs. unfold jobTimer, processJob, backend. rewrite Hp.
  destruct (mockUsers s !! userId job) as [user|].
  - unfold resolveAllPendingRequests. by rewrite Hjobs.
  - unfold rejectAllPendingRequests. by rewrite Hjobs.
Qed.

Lemma jobTimer_idle s : processing s = None → jobTimer s = ([], s).
Proof. intros Hp. unfold jobTimer. by rewrite Hp. Qed.

(** *** Consistency of queue, pending map and job in process *)

Lemma consistent_new : consistent new.
Proof.
  split; simpl.
  - apply NoDup_nil_2.
  - intros job Hin. by apply elem_of_nil in Hin.
  - intros k jobs. by rewrite lookup_empty.
  - intros k [x Hx]. by rewrite lookup_empty in Hx.
  - intros k (job & Hjob & _). done.
  - done.
Qed.

Lemma queued_elem s k :
  k ∈ queued s ↔ ∃ job, job ∈ processingQueue s ∧ userId job = k.
Proof.
  unfold queued. rewrite list_elem_of_fmap. split.
  - intros (job & -> & Hin). eauto.
  - intros (job & Hin & <-). eauto.
Qed.

Lemma queued_is_pending s k :
  consistent s → k ∈ queued s → is_Some (pendingRequests s !! k).
Proof.
  intros Hs (job & Hin & <-)%queued_elem.
  destruct (queued_pending s Hs job Hin) as [rest ->]. eauto.
Qed.

Lemma consistent_getUserById uid id now s :
  consistent s → consistent (getUserById uid id now s).
Proof.
  intros Hs. unfold getUserById.
  destruct (pendingRequests s !! uid) as [existingJobs|] eqn:Hget.
  - split; simpl.
    + apply Hs.
    + intros job Hin.
      destruct (queued_pending s Hs job Hin) as [rest Hrest].
      destruct (decide (userId job = uid)) as [Heq|Hne].
      * rewrite Heq in *. rewrite lookup_insert_eq.
        rewrite Hget in Hrest. injection Hrest as ->. by eexists.
      * rewrite lookup_insert_ne by done. eauto.
    + intros k jobs. rewrite lookup_insert. case_decide as Hk.
      * intros [= <-]. subst k.
        destruct (pending_jobs s Hs uid existingJobs Hget) as [Hne Hall].
        split; [by destruct existingJobs|].
        apply Forall_app. split; [done|]. by apply Forall_singleton.
      * apply Hs.
    + intros k Hk. apply (pending_queued s Hs).
      rewrite lookup_insert in Hk. case_decide; [subst; eauto | done].
    + intros k Hk. destruct (in_process_pending s Hs k Hk) as [Hsome Hnot].
      split; [|done]. rewrite lookup_insert. case_decide; eauto.
    + apply Hs.
  - assert (uid ∉ queued s) as Hfresh.
    { intros Hin. apply (queued_is_pending s _ Hs) in Hin.
      rewrite Hget in Hin. by destruct Hin. }
    split; simpl; unfold queued, in_process in *; simpl.
    + rewrite fmap_app. simpl. apply NoDup_app. split; [apply Hs|].
      split; [|apply NoDup_singleton].
      intros k Hk. rewrite list_elem_of_singleton. by intros ->.
    + intros job. rewrite elem_of_app, list_elem_of_singleton.
      intros [Hin| ->].
      * destruct (queued_pending s Hs job Hin) as [rest Hrest].
        rewrite lookup_insert_ne; [eauto|].
        intros Heq. rewrite <- Heq, Hget in Hrest. done.
      * simpl. rewrite lookup_insert_eq. eauto.
    + intros k jobs. rewrite lookup_insert. case_decide as Hk.
      * intros [= <-]. subst k. split; [done|]. by apply Forall_singleton.
      * apply Hs.
    + intros k. rewrite lookup_insert, fmap_app, elem_of_app. simpl.
      rewrite list_elem_of_singleton. case_decide as Hk.
      * intros _. left. right. done.
      * intros Hsome. destruct (pending_queued s Hs k Hsome); [by left; left|by right].
    + intros k Hk. destruct (in_process_pending s Hs k Hk) as [Hsome Hnot].
      assert (uid ≠ k) as Hne.
      { intros ->. rewrite Hget in Hsome. by destruct Hsome. }
      split; [by rewrite lookup_insert_ne|].
      rewrite fmap_app, elem_of_app. simpl. rewrite list_elem_of_singleton.
      intros [?|?]; done.
    + apply Hs.
Qed.

Lemma idle_flag s :
  consistent s → isProcessing s = false → processing s = None.
Proof.
  intros Hs Hflag. rewrite (in_process_flag s Hs) in Hflag.
  apply bool_decide_eq_false in Hflag.
  destruct (processing s); [|done]. destruct Hflag. eauto.
Qed.

Lemma tick_idle s job rest :
  processing s = None → isProcessing s = false →
  processingQueue s = job :: rest →
  tick s = mk (mockUsers s) rest (pendingRequests s) true (nextUserId s) (Some job).
Proof. intros Hp Hflag Hq. unfold tick. by rewrite Hflag, Hq. Qed.

Lemma consistent_tick s : consistent s → consistent (tick s).
Proof.
  intros Hs. unfold tick.
  destruct (isProcessing s) eqn:Hflag; [done|]. simpl.
  destruct (processingQueue s) as [|job rest] eqn:Hq; [done|]. simpl.
  pose proof (idle_flag s Hs Hflag) as Hidle.
  pose proof (queued_distinct s Hs) as Hnd.
  unfold queued in Hnd. rewrite Hq in Hnd. simpl in Hnd.
  apply NoDup_cons in Hnd as [Hhead Hnd].
  split; simpl; unfold queued, in_process; simpl.
  - done.
  - intros job' Hin. apply (queued_pending s Hs). rewrite Hq. by right.
  - apply Hs.
  - intros k Hk. destruct (pending_queued s Hs k Hk) as [Hin|(j & Hj & _)].
    + unfold queued in Hin. rewrite Hq in Hin. simpl in Hin.
      apply elem_of_cons in Hin as [->|Hin]; [right; eauto | by left].
    + by rewrite Hidle in Hj.
  - intros k (j & [= <-] & <-). split; [|done].
    destruct (queued_pending s Hs job) as [r ->]; [|eauto].
    rewrite Hq. left.
  - done.
Qed.

Lemma consistent_after_job s job :
  consistent s → processing s = Some job → consistent (after_job job s).
Proof.
  intros Hs Hp.
  assert (in_process s (userId job)) as Hin by (eexists; eauto).
  destruct (in_process_pending s Hs _ Hin) as [Hsome Hnot].
  split; simpl; unfold queued, in_process in *; simpl.
  - apply Hs.
  - intros job' Hjob'.
    destruct (queued_pending s Hs job' Hjob') as [rest Hrest].
    rewrite lookup_delete_ne; [eauto|].
    intros Heq. apply Hnot. rewrite Heq. by apply list_elem_of_fmap_2.
  - intros k jobs. rewrite lookup_delete. case_decide; [done | apply Hs].
  - intros k. rewrite lookup_delete. case_decide as Hk; [by intros [??]|].
    intros Hk'. destruct (pending_queued s Hs k Hk') as [?|(j & Hj & Hjk)];
      [by left|].
    rewrite Hp in Hj. injection Hj as <-. done.
  - intros k (j & Hj & _). done.
  - done.
Qed.

Lemma consistent_jobTimer s : consistent s → consistent (jobTimer s).2.
Proof.
  intros Hs. destruct (processing s) as [job|] eqn:Hp.
  - assert (in_process s (userId job)) as Hin by (eexists; eauto).
    destruct (in_process_pending s Hs _ Hin) as [[jobs Hjobs] _].
    rewrite (jobTimer_pending s job jobs Hp Hjobs). simpl.
    by apply consistent_after_job.
  - by rewrite jobTimer_idle.
Qed.

Lemma consistent_step s e : consistent s → consistent (step s e).2.
Proof.
  intros Hs. destruct e as [uid id now|name email now| | |]; simpl.
  - by apply consistent_getUserById.
  - by destruct Hs.
  - by apply consistent_tick.
  - by apply consistent_jobTimer.
  - by destruct Hs.
Qed.

Lemma consistent_run s evs : consistent s → consistent (run s evs).2.
Proof.
  revert s. induction evs as [|e evs IH]; intros s Hs; simpl; [done|].
  pose proof (consistent_step s e Hs) as Hs1.
  destruct (step s e) as [o1 s1]. specialize (IH s1 Hs1).
  by destruct (run s1 evs).
Qed.

(** *** Traces of settlements *)

Lemma lookups_settle k outcome jobs : lookups k (settle outcome <$> jobs) = [].
Proof.
  unfold lookups. induction jobs as [|job jobs IH]; [done|].
  rewrite fmap_cons, filter_cons_False; [done|]. by destruct outcome.
Qed.

Lemma looked_up_settle outcome jobs : looked_up (settle outcome <$> jobs) = [].
Proof.
  unfold looked_up. induction jobs as [|job jobs IH]; [done|]. simpl.
  by destruct outcome.
Qed.

Lemma settled_settle_same k outcome jobs :
  Forall (λ job, userId job = k) jobs →
  settled k (settle outcome <$> jobs) = settle outcome <$> jobs.
Proof.
  unfold settled. induction 1 as [|job jobs Hjob _ IH]; [done|].
  rewrite fmap_cons, filter_cons_True; [by rewrite IH|]. by destruct outcome.
Qed.

Lemma settled_settle_other k k' outcome jobs :
  Forall (λ job, userId job = k') jobs → k' ≠ k →
  settled k (settle outcome <$> jobs) = [].
Proof.
  unfold settled. intros Hall Hne.
  induction Hall as [|job jobs Hjob _ IH]; [done|].
  rewrite fmap_cons, filter_cons_False; [done|].
  destruct outcome; simpl; congruence.
Qed.

Lemma fetches_cons k e evs : fetches k (e :: evs) = fetches k [e] ++ fetches k evs.
Proof. unfold fetches. simpl. by destruct (match e with GetUserById _ _ _ => _ | _ => _ end). Qed.

Lemma waiters_pending k s jobs :
  pendingRequests s !! k = Some jobs → waiters k s = jobs.
Proof. intros H. unfold waiters. by rewrite H. Qed.

Lemma waiters_cold k s : pendingRequests s !! k = None → waiters k s = [].
Proof. intros H. unfold waiters. by rewrite H. Qed.

Lemma pending_waiters k s :
  consistent s → waiters k s ≠ [] → pendingRequests s !! k = Some (waiters k s).
Proof.
  intros Hs. unfold waiters. by destruct (pendingRequests s !! k).
Qed.

(** *** One step, seen from one user *)

Lemma waiters_getUserById k uid id now s :
  waiters k (getUserById uid id now s) =
    waiters k s ++ (if decide (uid = k) then [mkQueueJob id uid now] else []).
Proof.
  unfold getUserById, waiters.
  destruct (pendingRequests s !! uid) as [existingJobs|] eqn:Hget; simpl;
    case_decide as Hk.
  - subst. by rewrite lookup_insert_eq, Hget.
  - rewrite lookup_insert_ne by done. by rewrite app_nil_r.
  - subst. by rewrite lookup_insert_eq, Hget.
  - rewrite lookup_insert_ne by done. by rewrite app_nil_r.
Qed.

Lemma waiters_tick k s : waiters k (tick s) = waiters k s.
Proof.
  unfold tick. destruct (isProcessing s || _); [done|].
  by destruct (processingQueue s).
Qed.

(** A step that settles no request of user [k] reads no backend entry
    for [k] and only adds to the requests waiting for [k]. *)
Lemma step_unsettled s k e :
  consistent s → settled k (step s e).1 = [] →
  lookups k (step s e).1 = [] ∧
  waiters k (step s e).2 = waiters k s ++ fetches k [e].
Proof.
  intros Hs Hnone.
  destruct e as [uid id now|name email now| | |]; simpl in *.
  - split; [done|]. rewrite waiters_getUserById. by case_decide.
  - split; [done|]. by rewrite app_nil_r.
  - split; [done|]. by rewrite app_nil_r, waiters_tick.
  - rewrite app_nil_r. destruct (processing s) as [job|] eqn:Hp;
      [|by rewrite jobTimer_idle].
    assert (in_process s (userId job)) as Hin by (eexists; eauto).
    destruct (in_process_pending s Hs _ Hin) as [[jobs Hjobs] _].
    destruct (pending_jobs s Hs _ _ Hjobs) as [Hne Hall].
    rewrite (jobTimer_pending s job jobs Hp Hjobs) in *. simpl in *.
    destruct (decide (userId job = k)) as [Hk|Hk].
    + exfalso. unfold settled in Hnone.
      rewrite filter_cons_False in Hnone by (simpl; tauto).
      fold (settled k (settle (backend s (userId job)) <$> jobs)) in Hnone.
      rewrite settled_settle_same in Hnone by (by rewrite <- Hk).
      by destruct jobs.
    + split.
      * unfold lookups. rewrite filter_cons_False by congruence.
        apply lookups_settle.
      * unfold waiters. simpl. by rewrite lookup_delete_ne.
  - split; [done|]. by rewrite app_nil_r.
Qed.

Lemma step_lookups_le_one s k e :
  consistent s → (length (lookups k (step s e).1) ≤ 1)%nat.
Proof.
  intros Hs. destruct e as [uid id now|name email now| | |]; simpl; try lia.
  destruct (processing s) as [job|] eqn:Hp;
    [|rewrite jobTimer_idle by done; simpl; lia].
  assert (in_process s (userId job)) as Hin by (eexists; eauto).
  destruct (in_process_pending s Hs _ Hin) as [[jobs Hjobs] _].
  rewrite (jobTimer_pending s job jobs Hp Hjobs). simpl.
  unfold lookups. rewrite filter_cons.
  fold (lookups k (settle (backend s (userId job)) <$> jobs)).
  rewrite lookups_settle. case_decide; simpl; lia.
Qed.

(** The only step that settles requests of user [k] is the timer of the
    job in process for [k]: one backend read, then every waiting request
    is settled with its outcome, in the order of attachment. *)
Lemma step_settles s k e :
  consistent s → settled k (step s e).1 ≠ [] →
  e = JobTimer ∧ in_process s k ∧
  (step s e).1 = Lookup k :: (settle (backend s k) <$> waiters k s) ∧
  pendingRequests (step s e).2 !! k = None.
Proof.
  intros Hs Hsome.
  destruct e as [uid id now|name email now| | |]; simpl in *; try done.
  destruct (processing s) as [job|] eqn:Hp;
    [|by rewrite jobTimer_idle in Hsome].
  assert (in_process s (userId job)) as Hin by (eexists; eauto).
  destruct (in_process_pending s Hs _ Hin) as [[jobs Hjobs] _].
  destruct (pending_jobs s Hs _ _ Hjobs) as [Hne Hall].
  rewrite (jobTimer_pending s job jobs Hp Hjobs) in *. simpl in *.
  destruct (decide (userId job = k)) as [Hk|Hk].
  - subst k. rewrite (waiters_pending _ _ _ Hjobs).
    split_and!; [done..|]. apply lookup_delete_eq.
  - exfalso. apply Hsome. unfold settled.
    rewrite filter_cons_False by (simpl; tauto).
    by apply (settled_settle_other k (userId job)).
Qed.

(** *** A run, seen from one user *)

Lemma run_unsettled evs : ∀ s k,
  consistent s → settled k (run s evs).1 = [] →
  lookups k (run s evs).1 = [] ∧
  waiters k (run s evs).2 = waiters k s ++ fetches k evs.
Proof.
  induction evs as [|e evs IH]; intros s k Hs Hnone; cbn [run] in *.
  - simpl. by rewrite app_nil_r.
  - rewrite fetches_cons.
    pose proof (consistent_step s e Hs) as Hs1.
    pose proof (step_unsettled s k e Hs) as Hstep.
    destruct (step s e) as [o1 s1]. cbn [fst snd] in *.
    specialize (IH s1 k Hs1).
    destruct (run s1 evs) as [o2 s2]. cbn [fst snd] in *.
    unfold settled in Hnone. rewrite filter_app in Hnone.
    apply app_eq_nil in Hnone as [Hn1 Hn2].
    destruct (Hstep Hn1) as [Hl1 Hw1]. destruct (IH Hn2) as [Hl2 Hw2].
    split.
    + unfold lookups in *. by rewrite filter_app, Hl1, Hl2.
    + by rewrite Hw2, Hw1, app_assoc.
Qed.

(** *** Draining the queue *)

Lemma run_rounds n : ∀ s,
  consistent s → processing s = None → length (processingQueue s) = n →
  looked_up (run s (rounds n)).1 = queued s.
Proof.
  induction n as [|n IH]; intros s Hs Hidle Hlen.
  - destruct (processingQueue s) eqn:Hq; [|done]. unfold queued. by rewrite Hq.
  - destruct (processingQueue s) as [|job rest] eqn:Hq; [done|].
    assert (isProcessing s = false) as Hflag.
    { rewrite (in_process_flag s Hs), Hidle. done. }
    change (rounds (S n)) with (Tick :: JobTimer :: rounds n).
    cbn [run step]. rewrite (tick_idle s job rest Hidle Hflag Hq).
    pose proof (consistent_tick s Hs) as Hs1.
    rewrite (tick_idle s job rest Hidle Hflag Hq) in Hs1.
    set (s1 := mk _ rest _ true _ (Some job)) in *.
    assert (in_process s1 (userId job)) as Hin by (eexists; eauto).
    destruct (in_process_pending s1 Hs1 _ Hin) as [[jobs Hjobs] _].
    rewrite (jobTimer_pending s1 job jobs eq_refl Hjobs).
    pose proof (consistent_after_job s1 job Hs1 eq_refl) as Hs2.
    specialize (IH (after_job job s1) Hs2 eq_refl).
    destruct (run (after_job job s1) (rounds n)) as [o2 s2]. simpl in *.
    unfold looked_up in *. simpl. rewrite omap_app.
    fold (looked_up (settle (backend s1 (userId job)) <$> jobs)).
    rewrite looked_up_settle. simpl. unfold queued. rewrite Hq. simpl.
    f_equal. apply IH. simpl in Hlen. lia.
Qed.

(** *** The claims about the fetch queue *)

(** C1: in any reachable state in which user [k] has no pending fetch,
    let N >= 1 calls of [getUserById(k)] arrive, interleaved with any
    other events, while no request for [k] has been settled. Then the
    backend has not been read for [k] yet, and all N requests, in their
    order of arrival, are attached to the one pending entry of [k].
    Whatever event comes next, the backend reads for [k] since the state
    was cold number at most one; and if that event settles a request for
    [k], it reads the backend for [k] exactly once and settles all N
    requests with the one outcome of that read (the same user, or the same
    error), after which [k] has no pending entry. *)
Theorem fetches_of_cold_key_share_one_backend_read (evs0 evs : list event) (k : Z) :
  let s := (run new evs0).2 in
  let obs := (run s evs).1 in
  let s1 := (run s evs).2 in
  pendingRequests s !! k = None →
  fetches k evs ≠ [] →
  settled k obs = [] →
  lookups k obs = [] ∧
  pendingRequests s1 !! k = Some (fetches k evs) ∧
  ∀ e,
    (length (lookups k (obs ++ (step s1 e).1)) ≤ 1)%nat ∧
    (settled k (step s1 e).1 ≠ [] →
     lookups k (obs ++ (step s1 e).1) = [Lookup k] ∧
     (step s1 e).1 = Lookup k :: (settle (backend s1 k) <$> fetches k evs) ∧
     pendingRequests (step s1 e).2 !! k = None).
Proof.
  intros s obs s1 Hcold Hn Hnone.
  assert (consistent s) as Hs by apply consistent_run, consistent_new.
  assert (consistent s1) as Hs1 by by apply consistent_run.
  destruct (run_unsettled evs s k Hs Hnone) as [Hl Hw].
  fold obs in Hl. fold s1 in Hw.
  rewrite (waiters_cold k s Hcold) in Hw. simpl in Hw.
  split; [done|]. split.
  { rewrite <- Hw. apply pending_waiters; [done|]. by rewrite Hw. }
  intros e. unfold lookups in *. rewrite filter_app, Hl. simpl.
  split; [by apply step_lookups_le_one|].
  intros Hsome.
  destruct (step_settles s1 k e Hs1 Hsome) as (-> & _ & Hobs & Hgone).
  rewrite Hw in Hobs. rewrite Hobs. split_and!; [|done..].
  rewrite filter_cons_True by done. f_equal. apply lookups_settle.
Qed.

Lemma fetches_of_cold_key_share_one_backend_read_witness :
  let evs := [GetUserById 1 "a" 0; GetUserById 1 "b" 1; Tick;
              GetUserById 2 "x" 2; GetUserById 1 "c" 3] in
  let s1 := (run new evs).2 in
  let john := mkUser 1 "John Doe" "john@example.com" (Some 1672531200000) in
  pendingRequests s1 !! 1 =
    Some [mkQueueJob "a" 1 0; mkQueueJob "b" 1 1; mkQueueJob "c" 1 3] ∧
  (step s1 JobTimer).1 =
    [Lookup 1; Resolved (mkQueueJob "a" 1 0) john;
     Resolved (mkQueueJob "b" 1 1) john; Resolved (mkQueueJob "c" 1 3) john] ∧
  pendingRequests (step s1 JobTimer).2 !! 1 = None.
Proof.
  intros evs s1 john.
  destruct (fetches_of_cold_key_share_one_backend_read [] evs 1)
    as (_ & Hpending & Hnext).
  - reflexivity.
  - discriminate.
  - reflexivity.
  - split; [exact Hpending|].
    destruct (Hnext JobTimer) as [_ Hsettle].
    destruct Hsettle as (_ & Hobs & Hgone); [discriminate|].
    exact (conj Hobs Hgone).
Defined.

(** C5, as the code has it: in every reachable state the queued users are
    distinct; a user has a pending entry exactly when it is queued or its
    job is the one in process; and the user in process is not queued: its
    job left the queue when processing started, while its pending entry
    stays until processing ends. *)
Theorem pending_iff_queued_or_in_process (evs : list event) :
  let s := (run new evs).2 in
  NoDup (queued s) ∧
  (∀ k, is_Some (pendingRequests s !! k) ↔ k ∈ queued s ∨ in_process s k) ∧
  (∀ k, in_process s k → k ∉ queued s).
Proof.
  intros s.
  assert (consistent s) as Hs by apply consistent_run, consistent_new.
  split; [apply Hs|]. split.
  - intros k. split; [apply Hs|].
    intros [Hq|Hp]; [by apply queued_is_pending | by apply Hs].
  - intros k Hp. by apply Hs.
Qed.

(** C5 as stated fails while a job is in process: after one request for
    user 1 and one firing of the interval, user 1 has a pending entry and
    the queue is empty. *)
Lemma pending_entry_of_job_in_process_not_queued :
  let s := (run new [GetUserById 1 "a" 0; Tick]).2 in
  processingQueue s = [] ∧
  pendingRequests s !! 1 = Some [mkQueueJob "a" 1 0] ∧
  processing s = Some (mkQueueJob "a" 1 0) ∧
  ¬ (is_Some (pendingRequests s !! 1) → 1 ∈ queued s).
Proof.
  split_and!; [reflexivity..|].
  intros H. specialize (H (mk_is_Some _ _ eq_refl)).
  by apply elem_of_nil in H.
Qed.

(** C8: when the job in process is for a user the backend does not have,
    the timer of the job reads the backend once and rejects every waiting
    request, in order, with the same not-found error; the pending entry
    of the user is removed and nothing of the failure is kept. A later
    [getUserById] of the same user therefore creates a new pending entry
    and queues a new job, and draining the queue reads the backend for
    that user again. *)
Theorem failed_fetch_is_terminal_and_not_remembered (evs0 : list event) (job : QueueJob) :
  let s := (run new evs0).2 in
  let k := userId job in
  let s' := (step s JobTimer).2 in
  processing s = Some job →
  mockUsers s !! k = None →
  waiters k s ≠ [] ∧
  (step s JobTimer).1 =
    Lookup k :: ((λ w, Rejected w (UserNotFound k)) <$> waiters k s) ∧
  pendingRequests s' !! k = None ∧ (k ∉ queued s') ∧ processing s' = None ∧
  ∀ id now,
    let s'' := getUserById k id now s' in
    processingQueue s'' = processingQueue s' ++ [mkQueueJob id k now] ∧
    pendingRequests s'' !! k = Some [mkQueueJob id k now] ∧
    Lookup k ∈ (run s'' (rounds (length (processingQueue s'')))).1.
Proof.
  intros s k s' Hp Hmiss.
  assert (consistent s) as Hs by apply consistent_run, consistent_new.
  assert (in_process s k) as Hin by (eexists; eauto).
  destruct (in_process_pending s Hs _ Hin) as [[jobs Hjobs] Hnq].
  destruct (pending_jobs s Hs _ _ Hjobs) as [Hne _].
  pose proof (jobTimer_pending s job jobs Hp Hjobs) as Hstep.
  assert (consistent s') as Hs' by apply (consistent_step s JobTimer Hs).
  unfold s' in *. simpl in *. rewrite Hstep in *. simpl in *.
  rewrite (waiters_pending _ _ _ Hjobs).
  assert (pendingRequests (after_job job s) !! k = None) as Hgone
    by apply lookup_delete_eq.
  split_and!; [done| |done..|].
  { unfold backend. fold k. by rewrite Hmiss. }
  intros id now.
  set (s'' := getUserById k id now (after_job job s)).
  assert (consistent s'') as Hs'' by by apply consistent_getUserById.
  assert (processingQueue s'' = processingQueue s ++ [mkQueueJob id k now]) as Hq.
  { unfold s'', getUserById. by rewrite Hgone. }
  split; [done|]. split.
  { unfold s'', getUserById. rewrite Hgone. simpl. apply lookup_insert_eq. }
  assert (processing s'' = None) as Hidle.
  { unfold s'', getUserById. by rewrite Hgone. }
  pose proof (run_rounds _ s'' Hs'' Hidle eq_refl) as Hlooked.
  assert (k ∈ looked_up (run s'' (rounds (length (processingQueue s'')))).1) as Hk.
  { rewrite Hlooked. unfold queued. rewrite Hq, fmap_app, elem_of_app.
    right. simpl. left. }
  unfold looked_up in Hk. apply list_elem_of_omap in Hk as (o & Ho & Hok).
  destruct o; simplify_eq. done.
Qed.

Lemma failed_fetch_is_terminal_and_not_remembered_witness :
  let evs0 := [GetUserById 999 "a" 0; Tick; GetUserById 999 "b" 1] in
  let s := (run new evs0).2 in
  let s' := (step s JobTimer).2 in
  let s'' := getUserById 999 "c" 2 s' in
  (step s JobTimer).1 =
    [Lookup 999; Rejected (mkQueueJob "a" 999 0) (UserNotFound 999);
     Rejected (mkQueueJob "b" 999 1) (UserNotFound 999)] ∧
  pendingRequests s' !! 999 = None ∧
  processingQueue s'' = [mkQueueJob "c" 999 2] ∧
  Lookup 999 ∈ (run s'' (rounds 1)).1.
Proof.
  intros evs0 s s' s''.
  destruct (failed_fetch_is_terminal_and_not_remembered evs0 (mkQueueJob "a" 999 0))
    as (_ & Hobs & Hgone & _ & _ & Hretry); [reflexivity | reflexivity |].
  destruct (Hretry "c" 2) as (Hq & _ & Hagain).
  exact (conj Hobs (conj Hgone (conj Hq Hagain))).
Defined.
End DatabaseServiceFacts.

(** ** Further properties of the fetch queue and its backing record *)

Module DatabaseServiceExtras.
Import DatabaseService.

(** *** The backing record *)

Lemma initialUsers_lookup k :
  initialUsers !! k =
    if decide (k = 1) then Some (mkUser 1 "John Doe" "john@example.com" (Some 1672531200000))
    else if decide (k = 2) then Some (mkUser 2 "Jane Smith" "jane@example.com" (Some 1672617600000))
    else if decide (k = 3) then Some (mkUser 3 "Alice Johnson" "alice@example.com" (Some 1672704000000))
    else None.
Proof.
  unfold initialUsers. rewrite !lookup_insert, lookup_empty.
  repeat case_decide; congruence.
Qed.

Lemma users_ok_new : users_ok new.
Proof.
  split; simpl.
  - intros k u. rewrite initialUsers_lookup.
    repeat case_decide; intros [= <-]; by subst.
  - intros k u. rewrite initialUsers_lookup.
    repeat case_decide; intros [= <-]; lia.
  - lia.
  - done.
Qed.

Lemma users_ok_step s e : users_ok s → users_ok (step s e).2.
Proof.
  intros [Hk Hb Hn Hi].
  destruct e as [uid jid now|name email now| | |]; simpl.
  - unfold getUserById. by destruct (pendingRequests s !! uid).
  - split; simpl.
    + intros k u. rewrite lookup_insert. case_decide; [by intros [= <-]|apply Hk].
    + intros k u. rewrite lookup_insert. case_decide; [intros _; lia|].
      intros Hget. specialize (Hb k u Hget). lia.
    + lia.
    + intros k Hle. rewrite lookup_insert_ne by lia. by apply Hi.
  - unfold tick. destruct (isProcessing s || _); [done|].
    by destruct (processingQueue s).
  - unfold jobTimer. destruct (processing s) as [job|]; [|done].
    unfold processJob.
    destruct (mockUsers s !! userId job) as [user|].
    + unfold resolveAllPendingRequests.
      by destruct (pendingRequests s !! userId job).
    + unfold rejectAllPendingRequests.
      by destruct (pendingRequests s !! userId job).
  - split; simpl.
    + intros k u [Hget _]%map_lookup_filter_Some. by apply Hk.
    + intros k u [Hget Hle]%map_lookup_filter_Some. simpl in Hle. lia.
    + lia.
    + intros k Hle. rewrite <- (Hi k Hle).
      destruct (mockUsers s !! k) as [u|] eqn:Hget.
      * apply map_lookup_filter_Some_2; [done|]. simpl. lia.
      * apply map_lookup_filter_None_2. by left.
Qed.

Lemma users_ok_run evs : ∀ s, users_ok s → users_ok (run s evs).2.
Proof.
  induction evs as [|e evs IH]; intros s Hs; simpl; [done|].
  pose proof (users_ok_step s e Hs) as Hs1.
  destruct (step s e) as [o1 s1]. specialize (IH s1 Hs1).
  by destruct (run s1 evs).
Qed.

(** X15: in every reachable state [createUser] stores the new user under
    an id no user has, the value of nextUserId, and raises nextUserId by
    one; no stored user is overwritten or changed, the queue and the
    pending requests are untouched, and a backend read for the new id
    then finds the new user. *)
Theorem createUser_takes_fresh_id (evs : list event) name email now :
  let s := (run new evs).2 in
  let u := (createUser name email now s).1 in
  let s' := (createUser name email now s).2 in
  u = mkUser (nextUserId s) name email (Some now) ∧
  mockUsers s !! id u = None ∧
  (∀ k, mockUsers s' !! k = if decide (k = id u) then Some u else mockUsers s !! k) ∧
  nextUserId s' = id u + 1 ∧
  backend s' (id u) = inl u ∧
  processingQueue s' = processingQueue s ∧
  pendingRequests s' = pendingRequests s.
Proof.
  intros s u s'.
  assert (users_ok s) as [_ Hb _ _] by apply users_ok_run, users_ok_new.
  split_and!; try done.
  - simpl. destruct (mockUsers s !! nextUserId s) as [u0|] eqn:Hget; [|done].
    specialize (Hb _ _ Hget). lia.
  - intros k. simpl. rewrite lookup_insert. by repeat case_decide.
  - unfold backend. simpl. by rewrite lookup_insert_eq.
Qed.

(** X16: in every reachable state [clearData] brings the backing record
    back to the three initial users, exactly as they were built, and
    nextUserId back to 4; the queue and the pending requests are
    untouched. *)
Theorem clearData_restores_initial_users (evs : list event) :
  let s := (run new evs).2 in
  mockUsers (clearData s) = initialUsers ∧
  nextUserId (clearData s) = 4 ∧
  processingQueue (clearData s) = processingQueue s ∧
  pendingRequests (clearData s) = pendingRequests s ∧
  processing (clearData s) = processing s.
Proof.
  intros s.
  assert (users_ok s) as [_ _ _ Hi] by apply users_ok_run, users_ok_new.
  split_and!; try done. simpl. apply map_eq. intros k.
  destruct (decide (k ≤ 3)) as [Hle|Hgt].
  - rewrite <- (Hi k Hle).
    destruct (mockUsers s !! k) as [u|] eqn:Hget.
    + apply map_lookup_filter_Some_2; [done|]. simpl. lia.
    + apply map_lookup_filter_None_2. by left.
  - rewrite initialUsers_lookup. rewrite !decide_False by lia.
    apply map_lookup_filter_None_2. right. intros u _. simpl. lia.
Qed.

(** *** What the callers receive *)

Lemma fetches_app k evs1 evs2 :
  fetches k (evs1 ++ evs2) = fetches k evs1 ++ fetches k evs2.
Proof. unfold fetches. apply omap_app. Qed.

Lemma run_snoc_db s evs e :
  run s (evs ++ [e]) =
    ((run s evs).1 ++ (step (run s evs).2 e).1, (step (run s evs).2 e).2).
Proof.
  rewrite DatabaseServiceFacts.run_app. destruct (run s evs) as [o1 s1]. simpl.
  destruct (step s1 e) as [o2 s2]. simpl. by rewrite app_nil_r.
Qed.

Lemma pending_jobs_were_requested evs : ∀ k jobs job,
  pendingRequests (run new evs).2 !! k = Some jobs → job ∈ jobs →
  job ∈ fetches k evs.
Proof.
  induction evs as [|e evs IH] using rev_ind; intros k jobs job Hget Hin.
  - simpl in Hget. by rewrite lookup_empty in Hget.
  - rewrite run_snoc_db in Hget. simpl in Hget.
    rewrite fetches_app, elem_of_app.
    set (s := (run new evs).2) in *.
    destruct e as [uid jid now|name email now| | |]; simpl in Hget.
    + unfold getUserById in Hget.
      destruct (pendingRequests s !! uid) as [existingJobs|] eqn:Hold;
        simpl in Hget; rewrite lookup_insert in Hget;
        case_decide as Hk; try (left; by eapply IH).
      * subst uid. injection Hget as <-.
        apply elem_of_app in Hin as [Hin|Hin]; [left; by eapply IH|].
        right. apply list_elem_of_singleton in Hin as ->.
        unfold fetches. simpl. rewrite decide_True by done. left.
      * subst uid. injection Hget as <-.
        right. apply list_elem_of_singleton in Hin as ->.
        unfold fetches. simpl. rewrite decide_True by done. left.
    + left. by eapply IH.
    + left. eapply IH; [|done].
      unfold tick in Hget. destruct (isProcessing s || _); [done|].
      by destruct (processingQueue s).
    + left. eapply IH; [|done].
      unfold jobTimer, processJob in Hget.
      destruct (processing s) as [j|]; [|done].
      destruct (mockUsers s !! userId j).
      * unfold resolveAllPendingRequests in Hget.
        destruct (pendingRequests s !! userId j); [|done].
        simpl in Hget. by apply lookup_delete_Some in Hget as [_ ?].
      * unfold rejectAllPendingRequests in Hget.
        destruct (pendingRequests s !! userId j); [|done].
        simpl in Hget. by apply lookup_delete_Some in Hget as [_ ?].
    + left. by eapply IH.
Qed.

(** X17: a caller only ever receives what it asked for: whenever, in
    any run, a job is resolved with a user, the job was created by a
    [getUserById] call of that run and the user's id is the id that call
    asked for; and whenever a job is rejected, it was created by such a
    call and the error names the id it asked for. *)
Theorem settled_jobs_get_their_own_user (evs : list event) (o : Obs) :
  o ∈ (run new evs).1 →
  match o with
  | Lookup _ => True
  | Resolved job user => job ∈ fetches (userId job) evs ∧ id user = userId job
  | Rejected job error =>
      job ∈ fetches (userId job) evs ∧ error = UserNotFound (userId job)
  end.
Proof.
  induction evs as [|e evs IH] using rev_ind; intros Hin.
  - by apply elem_of_nil in Hin.
  - rewrite run_snoc_db in Hin. simpl in Hin.
    apply elem_of_app in Hin as [Hin|Hin].
    + specialize (IH Hin). destruct o as [|job user|job error]; [done|..];
        rewrite fetches_app, elem_of_app; tauto.
    + set (s := (run new evs).2) in *.
      assert (consistent s) as Hs
        by apply DatabaseServiceFacts.consistent_run,
                 DatabaseServiceFacts.consistent_new.
      assert (users_ok s) as [Hkeyed _ _ _] by apply users_ok_run, users_ok_new.
      destruct e as [uid jid now|name email now| | |]; simpl in Hin;
        try by apply elem_of_nil in Hin.
      destruct (processing s) as [j|] eqn:Hp;
        [|rewrite DatabaseServiceFacts.jobTimer_idle in Hin by done;
          by apply elem_of_nil in Hin].
      assert (in_process s (userId j)) as Hinp by (eexists; eauto).
      destruct (in_process_pending s Hs _ Hinp) as [[jobs Hjobs] _].
      destruct (pending_jobs s Hs _ _ Hjobs) as [_ Hall].
      rewrite (DatabaseServiceFacts.jobTimer_pending s j jobs Hp Hjobs) in Hin.
      simpl in Hin. apply elem_of_cons in Hin as [->|Hin]; [done|].
      apply list_elem_of_fmap in Hin as (job & -> & Hjob).
      rewrite Forall_forall in Hall. pose proof (Hall job Hjob) as Hk.
      pose proof (pending_jobs_were_requested evs _ _ job Hjobs Hjob) as Hreq.
      rewrite <- Hk in Hreq.
      assert (job ∈ fetches (userId job) (evs ++ [JobTimer])) as Hreq'
        by (rewrite fetches_app, elem_of_app; by left).
      unfold backend, settle.
      destruct (mockUsers s !! userId j) as [user|] eqn:Huser.
      * split; [done|]. rewrite Hk. by apply Hkeyed.
      * split; [done|]. by rewrite Hk.
Qed.

(** *** Queue statistics *)

Lemma dom_pending s :
  consistent s →
  dom (pendingRequests s) = list_to_set (queued s) ∪ in_process_set s.
Proof.
  intros Hs. apply set_eq. intros k.
  rewrite elem_of_dom, elem_of_union, elem_of_list_to_set.
  assert (k ∈ in_process_set s ↔ in_process s k) as ->.
  { unfold in_process_set, in_process. destruct (processing s) as [j|].
    - rewrite elem_of_singleton. split; [intros ->; eauto|].
      by intros (j' & [= <-] & <-).
    - split; [by intros ?%not_elem_of_empty|]. by intros (? & ? & _). }
  split; [apply Hs|].
  intros [Hq|Hp]; [by apply DatabaseServiceFacts.queued_is_pending|by apply Hs].
Qed.

Lemma total_at_least_groups (m : gmap Z (list QueueJob)) :
  (∀ k jobs, m !! k = Some jobs → jobs ≠ []) →
  (size m ≤ map_fold (λ _ jobs total, total + length jobs) 0 m)%nat.
Proof.
  apply (map_fold_weak_ind
           (λ total m, (∀ k jobs, m !! k = Some jobs → jobs ≠ []) →
                       (size m ≤ total)%nat)).
  - intros _. rewrite map_size_empty. lia.
  - intros k jobs m' total Hfresh IH Hne.
    rewrite map_size_insert_None by done.
    assert (jobs ≠ []) as Hjobs by (apply (Hne k); apply lookup_insert_eq).
    assert (size m' ≤ total)%nat as Hle.
    { apply IH. intros k' jobs' Hk'. apply (Hne k').
      rewrite lookup_insert_ne; [done|]. intros ->. by rewrite Hfresh in Hk'. }
    destruct jobs; [done|]. simpl. lia.
Qed.

(** X18: in every reachable state the statistics of [getQueueStats] fit
    together: the number of pending request groups is the queue length,
    plus one while a job is in process, and the total of pending requests
    is at least the number of groups, since no group is empty. *)
Theorem queue_stats_fit_together (evs : list event) :
  let st := getQueueStats (run new evs).2 in
  pendingRequestGroups st =
    (queueLength st + if stat_isProcessing st then 1 else 0)%nat ∧
  (pendingRequestGroups st ≤ totalPendingRequests st)%nat.
Proof.
  intros st. unfold st, getQueueStats. simpl.
  set (s := (run new evs).2).
  assert (consistent s) as Hs
    by apply DatabaseServiceFacts.consistent_run,
             DatabaseServiceFacts.consistent_new.
  split.
  - rewrite <- size_dom, (dom_pending s Hs).
    rewrite size_union.
    + rewrite size_list_to_set by apply Hs.
      unfold queued. rewrite length_fmap. f_equal.
      rewrite (in_process_flag s Hs). unfold in_process_set.
      destruct (processing s); [apply size_singleton | apply size_empty].
    + intros k Hq%elem_of_list_to_set Hp.
      unfold in_process_set in Hp.
      destruct (processing s) as [j|] eqn:Hj; [|by apply not_elem_of_empty in Hp].
      apply elem_of_singleton in Hp as ->.
      assert (in_process s (userId j)) as Hin by (eexists; eauto).
      by apply (in_process_pending s Hs) in Hin as [_ ?].
  - apply total_at_least_groups. intros k jobs Hk.
    by apply (pending_jobs s Hs) in Hk as [? _].
Qed.

(** *** Draining the queue *)

Lemma drained n : ∀ s,
  consistent s → processing s = None → length (processingQueue s) = n →
  processingQueue (run s (rounds n)).2 = [] ∧
  processing (run s (rounds n)).2 = None.
Proof.
  induction n as [|n IH]; intros s Hs Hidle Hlen.
  - simpl. by destruct (processingQueue s).
  - destruct (processingQueue s) as [|job rest] eqn:Hq; [done|].
    assert (isProcessing s = false) as Hflag.
    { rewrite (in_process_flag s Hs), Hidle. done. }
    change (rounds (S n)) with (Tick :: JobTimer :: rounds n).
    cbn [run step].
    rewrite (DatabaseServiceFacts.tick_idle s job rest Hidle Hflag Hq).
    pose proof (DatabaseServiceFacts.consistent_tick s Hs) as Hs1.
    rewrite (DatabaseServiceFacts.tick_idle s job rest Hidle Hflag Hq) in Hs1.
    set (s1 := mk _ rest _ true _ (Some job)) in *.
    assert (in_process s1 (userId job)) as Hin by (eexists; eauto).
    destruct (in_process_pending s1 Hs1 _ Hin) as [[jobs Hjobs] _].
    rewrite (DatabaseServiceFacts.jobTimer_pending s1 job jobs eq_refl Hjobs).
    pose proof (DatabaseServiceFacts.consistent_after_job s1 job Hs1 eq_refl) as Hs2.
    specialize (IH (after_job job s1) Hs2 eq_refl).
    destruct (run (after_job job s1) (rounds n)) as [o2 s2]. simpl in *.
    apply IH. lia.
Qed.

(** X20: from a reachable state with no job in process, as many rounds
    of the interval and the job timer as the queue is long read the
    backend once for each queued user, in the order of the queue, and
    leave the queue and the pending map empty with no job in process:
    every request that was waiting has been settled. *)
Theorem queue_drains_in_order (evs : list event) :
  let s := (run new evs).2 in
  let n := length (processingQueue s) in
  processing s = None →
  looked_up (run s (rounds n)).1 = queued s ∧
  processingQueue (run s (rounds n)).2 = [] ∧
  pendingRequests (run s (rounds n)).2 = ∅ ∧
  isProcessing (run s (rounds n)).2 = false.
Proof.
  intros s n Hidle.
  assert (consistent s) as Hs
    by apply DatabaseServiceFacts.consistent_run,
             DatabaseServiceFacts.consistent_new.
  destruct (drained n s Hs Hidle eq_refl) as [Hq Hp].
  pose proof (DatabaseServiceFacts.consistent_run s (rounds n) Hs) as Hs'.
  split; [by apply DatabaseServiceFacts.run_rounds|]. split; [done|]. split.
  - apply map_empty. intros k.
    destruct (pendingRequests (run s (rounds n)).2 !! k) eqn:Hk; [|done].
    destruct (pending_queued _ Hs' k) as [Hin|(j & Hj & _)]; [eauto| |].
    + unfold queued in Hin. rewrite Hq in Hin. by apply elem_of_nil in Hin.
    + by rewrite Hp in Hj.
  - by rewrite (in_process_flag _ Hs'), Hp.
Qed.

Lemma queue_drains_in_order_witness :
  let evs := [GetUserById 2 "a" 0; GetUserById 999 "b" 1; GetUserById 2 "c" 2;
              GetUserById 1 "d" 3] in
  let s := (run new evs).2 in
  queued s = [2; 999; 1] ∧
  looked_up (run s (rounds 3)).1 = [2; 999; 1] ∧
  pendingRequests (run s (rounds 3)).2 = ∅.
Proof.
  intros evs s. split; [reflexivity|].
  destruct (queue_drains_in_order evs eq_refl) as (Hl & _ & Hp & _).
  exact (conj Hl Hp).
Defined.

Lemma settled_jobs_get_their_own_user_witness :
  let evs := [GetUserById 2 "a" 0; Tick; GetUserById 2 "b" 1; JobTimer] in
  let jane := mkUser 2 "Jane Smith" "jane@example.com" (Some 1672617600000) in
  Resolved (mkQueueJob "b" 2 1) jane ∈ (run new evs).1 ∧
  mkQueueJob "b" 2 1 ∈ fetches 2 evs ∧ id jane = 2.
Proof.
  intros evs jane.
  assert (Resolved (mkQueueJob "b" 2 1) jane ∈ (run new evs).1) as Hin.
  { apply (list_elem_of_lookup_2 _ 2%nat). reflexivity. }
  split; [exact Hin|].
  exact (settled_jobs_get_their_own_user evs _ Hin).
Defined.
End DatabaseServiceExtras.

(** ** Properties of the read path *)

Module AppFacts.
Import DatabaseService App.

Lemma resume_all_dbService now obs : ∀ a,
  dbService (resume_all now a obs).2 = dbService a.
Proof.
  induction obs as [|o obs IH]; intros a; simpl; [done|].
  destruct (resume now a o) as [tr1 a1] eqn:Hr.
  assert (dbService a1 = dbService a) as <-.
  { destruct o; simpl in Hr; by injection Hr as _ <-. }
  specialize (IH a1). by destruct (resume_all now a1 obs).
Qed.

Lemma jobTimer_dbService now a :
  dbService (App.jobTimer now a).2 = (DatabaseService.jobTimer (dbService a)).2.
Proof.
  unfold App.jobTimer.
  destruct (DatabaseService.jobTimer (dbService a)) as [obs db].
  pose proof (resume_all_dbService now obs (mk (userCache a) db)) as H.
  by destruct (resume_all now _ obs).
Qed.

Lemma consistent_app_step a e :
  consistent (dbService a) → consistent (dbService (App.step a e).2).
Proof.
  intros Hs. destruct e as [uid id now rt|name email now| |now| |now]; simpl.
  - unfold getUser. destruct (uid <=? 0); [done|].
    destruct (LRUCache.get _ now rt (userCache a)) as [[user|] cache]; [done|].
    by apply DatabaseServiceFacts.consistent_getUserById.
  - by destruct Hs.
  - by apply DatabaseServiceFacts.consistent_tick.
  - rewrite jobTimer_dbService.
    by apply DatabaseServiceFacts.consistent_jobTimer.
  - done.
  - done.
Qed.

Lemma consistent_app_run evs : ∀ a,
  consistent (dbService a) → consistent (dbService (App.run a evs).2).
Proof.
  induction evs as [|e evs IH]; intros a Hs; simpl; [done|].
  pose proof (consistent_app_step a e Hs) as Hs1.
  destruct (App.step a e) as [tr1 a1]. specialize (IH a1 Hs1).
  by destruct (App.run a1 evs).
Qed.

Lemma resume_all_resolved now user ws : ∀ a,
  resume_all now a ((λ w, Resolved w user) <$> ws) =
    (resumed user ws, mk (cache_after user now (userCache a) ws) (dbService a)).
Proof.
  induction ws as [|w ws IH]; intros a; simpl; [by destruct a|].
  by rewrite IH.
Qed.

Lemma cache_after_stored user now c k ws :
  ws ≠ [] → Forall (λ w, userId w = k) ws →
  JsMap.get (cacheKey k) (LRUCache.cache (cache_after user now c ws)) =
    Some (mkCacheEntry user now 1 now).
Proof.
  intros Hne Hall. destruct ws as [|w ws _] using rev_ind; [done|].
  apply Forall_app in Hall as [_ Hw]. rewrite Forall_singleton in Hw.
  unfold cache_after. rewrite foldl_app. simpl. rewrite Hw.
  apply LRUFacts.set_stored.
Qed.

Lemma resume_all_rejected now error ws : ∀ a,
  resume_all now a ((λ w, Rejected w error) <$> ws) =
    ((λ w, Reply_ (job_id w) (NotFound error)) <$> ws, a).
Proof.
  induction ws as [|w ws IH]; intros a; simpl; [done|]. by rewrite IH.
Qed.

(** X19: a failed fetch writes nothing into the cache: its waiters are
    answered with the error and the cache is left as it was. *)
Lemma failed_fetch_leaves_cache_untouched
    (evs0 : list App.event) (job : QueueJob) (now : Z) :
  let a := (App.run App.new evs0).2 in
  let s := dbService a in
  let k := userId job in
  processing s = Some job →
  mockUsers s !! k = None →
  (App.step a (App.JobTimer now)).1 =
    Db (Lookup k) :: (Db <$> ((λ w, Rejected w (UserNotFound k)) <$> waiters k s))
      ++ ((λ w, Reply_ (job_id w) (NotFound (UserNotFound k))) <$> waiters k s) ∧
  userCache (App.step a (App.JobTimer now)).2 = userCache a.
Proof.
  intros a s k Hp Hmiss.
  assert (consistent s) as Hs
    by apply consistent_app_run, DatabaseServiceFacts.consistent_new.
  assert (in_process s k) as Hin by (eexists; eauto).
  destruct (in_process_pending s Hs _ Hin) as [[jobs Hjobs] _].
  pose proof (DatabaseServiceFacts.jobTimer_pending s job jobs Hp Hjobs) as Hstep.
  unfold backend in Hstep. fold k in Hstep. rewrite Hmiss in Hstep.
  change (settle (inr (UserNotFound k)))
    with (λ w : QueueJob, Rejected w (UserNotFound k)) in Hstep.
  rewrite (DatabaseServiceFacts.waiters_pending _ _ _ Hjobs).
  simpl. unfold App.jobTimer. fold s. rewrite Hstep.
  cbn [resume_all resume]. by rewrite resume_all_rejected.
Qed.

(** C7, as the code has it: in every reachable state, when the job in
    process is for a user the backend has, the timer of the job reads the
    backend once and completes every waiting request with that user, in
    the order of attachment; the pending entry is removed and the user is
    not queued (its job left the queue when processing started). The
    service never writes into the cache: each completed handler does,
    after all waiters were completed, so that the cache then holds the
    user under its key with the time of the write as insertion time. *)
Theorem successful_fetch_completes_waiters_then_fills_cache
    (evs0 : list App.event) (job : QueueJob) (user : User) (now : Z) :
  let a := (App.run App.new evs0).2 in
  let s := dbService a in
  let k := userId job in
  let tr := (App.step a (App.JobTimer now)).1 in
  let a' := (App.step a (App.JobTimer now)).2 in
  processing s = Some job →
  mockUsers s !! k = Some user →
  waiters k s ≠ [] ∧
  tr = Db (Lookup k) :: (Db <$> ((λ w, Resolved w user) <$> waiters k s))
         ++ resumed user (waiters k s) ∧
  populated_before_completion tr = false ∧
  pendingRequests (dbService a') !! k = None ∧
  (k ∉ queued (dbService a')) ∧
  JsMap.get (cacheKey k) (LRUCache.cache (userCache a')) =
    Some (mkCacheEntry user now 1 now).
Proof.
  intros a s k tr a' Hp Hhit.
  assert (consistent s) as Hs
    by apply consistent_app_run, DatabaseServiceFacts.consistent_new.
  assert (in_process s k) as Hin by (eexists; eauto).
  destruct (in_process_pending s Hs _ Hin) as [[jobs Hjobs] Hnq].
  destruct (pending_jobs s Hs _ _ Hjobs) as [Hne Hall].
  pose proof (DatabaseServiceFacts.jobTimer_pending s job jobs Hp Hjobs) as Hstep.
  unfold backend in Hstep. fold k in Hstep. rewrite Hhit in Hstep.
  change (settle (inl user)) with (λ w : QueueJob, Resolved w user) in Hstep.
  rewrite (DatabaseServiceFacts.waiters_pending _ _ _ Hjobs).
  unfold tr, a'. simpl. unfold App.jobTimer. fold s. rewrite Hstep.
  cbn [resume_all resume]. rewrite resume_all_resolved. simpl.
  split_and!; [done | done | | apply lookup_delete_eq | done |].
  - destruct jobs; done.
  - by apply cache_after_stored.
Qed.

Lemma successful_fetch_completes_waiters_then_fills_cache_witness :
  let evs0 := [GetUser 1 "a" 0 0; App.Tick; GetUser 1 "b" 100 0] in
  let a := (App.run App.new evs0).2 in
  let john := mkUser 1 "John Doe" "john@example.com" (Some 1672531200000) in
  LRUCache.keys (userCache a) = [] ∧
  (App.step a (App.JobTimer 250)).1 =
    [Db (Lookup 1);
     Db (Resolved (mkQueueJob "a" 1 0) john);
     Db (Resolved (mkQueueJob "b" 1 100) john);
     CacheSet "user:1" john; Reply_ "a" (Ok john false);
     CacheSet "user:1" john; Reply_ "b" (Ok john false)] ∧
  JsMap.get "user:1" (LRUCache.cache (userCache (App.step a (App.JobTimer 250)).2)) =
    Some (mkCacheEntry john 250 1 250).
Proof.
  intros evs0 a john.
  destruct (successful_fetch_completes_waiters_then_fills_cache
              evs0 (mkQueueJob "a" 1 0) john 250)
    as (_ & Htr & _ & _ & _ & Hcache); [reflexivity | reflexivity |].
  split; [reflexivity|]. exact (conj Htr Hcache).
Defined.

(** C7 as stated fails on the order: when the first waiter of user 1 is
    completed nothing has been written into the cache, which is empty;
    the write follows the completion. *)
Lemma waiter_completed_before_cache_is_filled :
  let a := (App.run App.new [GetUser 1 "a" 0 0; App.Tick]).2 in
  let john := mkUser 1 "John Doe" "john@example.com" (Some 1672531200000) in
  LRUCache.keys (userCache a) = [] ∧
  (App.step a (App.JobTimer 250)).1 =
    [Db (Lookup 1); Db (Resolved (mkQueueJob "a" 1 0) john);
     CacheSet "user:1" john; Reply_ "a" (Ok john false)] ∧
  populated_before_completion (App.step a (App.JobTimer 250)).1 ≠ true.
Proof. split_and!; [reflexivity..|]. by vm_compute. Qed.
End AppFacts.

(** ** Further properties of the read path *)

Module AppExtras.
Import DatabaseService App.

(** *** What the routes keep *)

Lemma ttl_set key (v : User) now c :
  LRUCache.ttl (LRUCache.set key v now c) = LRUCache.ttl c.
Proof. apply (LRUFacts.config_apply c (LRUCache.Set_ key v now)). Qed.

Lemma resume_all_ttl now obs : ∀ a,
  LRUCache.ttl (userCache (resume_all now a obs).2) = LRUCache.ttl (userCache a).
Proof.
  induction obs as [|o obs IH]; intros a; simpl; [done|].
  destruct (resume now a o) as [tr1 a1] eqn:Hr.
  assert (LRUCache.ttl (userCache a1) = LRUCache.ttl (userCache a)) as <-.
  { destruct o as [k|job user|job error]; cbn [resume] in Hr;
      injection Hr as _ <-;
      [done| |done].
    cbn [userCache]. by rewrite ttl_set. }
  specialize (IH a1). by destruct (resume_all now a1 obs).
Qed.

Lemma app_step_ttl a e :
  LRUCache.ttl (userCache (App.step a e).2) = LRUCache.ttl (userCache a).
Proof.
  destruct e as [uid rid now rt|name email now| |now| |now];
    cbn -[LRUCache.set LRUCache.get LRUCache.cleanupExpired].
  - unfold getUser. destruct (uid <=? 0); [done|].
    pose proof (LRUFacts.config_apply (userCache a)
                  (LRUCache.Get (cacheKey uid) now rt)) as [Httl _].
    cbn [LRUCache.apply] in Httl.
    destruct (LRUCache.get _ now rt (userCache a)) as [[user|] cache]; done.
  - unfold postUser. cbn -[LRUCache.set]. by rewrite ttl_set.
  - done.
  - unfold App.jobTimer.
    destruct (DatabaseService.jobTimer (dbService a)) as [obs db].
    pose proof (resume_all_ttl now obs (App.mk (userCache a) db)) as H.
    by destruct (resume_all now _ obs).
  - done.
  - apply (LRUFacts.config_apply (userCache a) (LRUCache.CleanupExpired now)).
Qed.

Lemma app_run_ttl evs : ∀ a,
  LRUCache.ttl (userCache (App.run a evs).2) = LRUCache.ttl (userCache a).
Proof.
  induction evs as [|e evs IH]; intros a; simpl; [done|].
  pose proof (app_step_ttl a e) as H1.
  destruct (App.step a e) as [tr1 a1]. specialize (IH a1).
  destruct (App.run a1 evs). simpl in *. congruence.
Qed.

Lemma app_step_users_ok a e :
  users_ok (dbService a) → users_ok (dbService (App.step a e).2).
Proof.
  intros Hs. destruct e as [uid rid now rt|name email now| |now| |now]; simpl.
  - unfold getUser. destruct (uid <=? 0); [done|].
    destruct (LRUCache.get _ now rt (userCache a)) as [[user|] cache]; [done|].
    apply (DatabaseServiceExtras.users_ok_step _ (GetUserById uid rid now) Hs).
  - apply (DatabaseServiceExtras.users_ok_step _ (CreateUser name email now) Hs).
  - apply (DatabaseServiceExtras.users_ok_step _ DatabaseService.Tick Hs).
  - rewrite AppFacts.jobTimer_dbService.
    apply (DatabaseServiceExtras.users_ok_step _ DatabaseService.JobTimer Hs).
  - done.
  - done.
Qed.

Lemma app_run_users_ok evs : ∀ a,
  users_ok (dbService a) → users_ok (dbService (App.run a evs).2).
Proof.
  induction evs as [|e evs IH]; intros a Hs; simpl; [done|].
  pose proof (app_step_users_ok a e Hs) as Hs1.
  destruct (App.step a e) as [tr1 a1]. specialize (IH a1 Hs1).
  by destruct (App.run a1 evs).
Qed.

(** A request whose key the cache holds, unexpired, is answered from the
    cache and never reaches the service. *)
Lemma getUser_hit uid rid t rt a e :
  0 < uid →
  JsMap.get (cacheKey uid) (LRUCache.cache (userCache a)) = Some e →
  LRUCache.expired (userCache a) t e = false →
  (getUser uid rid t rt a).1 = [Reply_ rid (Ok (value e) true)] ∧
  dbService (getUser uid rid t rt a).2 = dbService a.
Proof.
  intros Hpos He Hexp. unfold getUser.
  destruct (Z.leb_spec uid 0); [lia|].
  destruct (LRUFacts.get_stored (cacheKey uid) t rt (userCache a) e He)
    as (Hr & _ & _).
  rewrite Hexp in Hr.
  destruct (LRUCache.get _ t rt (userCache a)) as [r cache]. simpl in Hr.
  by rewrite Hr.
Qed.

(** *** What stays in the cache *)

Lemma cacheKey_inj k1 k2 : cacheKey k1 = cacheKey k2 → k1 = k2.
Proof.
  unfold cacheKey. intros H. simpl in H. injection H as H.
  by apply (inj pretty).
Qed.

Lemma resume_all_cache_preserves (P : LRUCache.t User → Prop) now obs :
  (∀ c o, P c → P (LRUCache.apply c o)) →
  ∀ a, P (userCache a) → P (userCache (resume_all now a obs).2).
Proof.
  intros HP. induction obs as [|o obs IH]; intros a Ha; simpl; [done|].
  destruct (resume now a o) as [tr1 a1] eqn:Hr.
  assert (P (userCache a1)) as Ha1.
  { destruct o as [k|job user|job error]; cbn [resume] in Hr;
      injection Hr as _ <-; [done| |done].
    cbn [userCache].
    apply (HP (userCache a) (LRUCache.Set_ (cacheKey (userId job)) user now) Ha). }
  specialize (IH a1 Ha1). by destruct (resume_all now a1 obs).
Qed.

(** Whatever every operation of the cache keeps, every event of the
    application keeps. *)
Lemma app_step_cache_preserves (P : LRUCache.t User → Prop) a e :
  (∀ c o, P c → P (LRUCache.apply c o)) →
  P (userCache a) → P (userCache (App.step a e).2).
Proof.
  intros HP Ha.
  destruct e as [uid rid now rt|name email now| |now| |now];
    cbn -[LRUCache.set LRUCache.get LRUCache.cleanupExpired LRUCache.clear].
  - unfold getUser. destruct (uid <=? 0); [done|].
    pose proof (HP _ (LRUCache.Get (cacheKey uid) now rt) Ha) as H.
    cbn [LRUCache.apply] in H.
    destruct (LRUCache.get _ now rt (userCache a)) as [[user|] cache]; done.
  - unfold postUser. cbn -[LRUCache.set].
    apply (HP (userCache a) (LRUCache.Set_ _ _ now) Ha).
  - done.
  - unfold App.jobTimer.
    destruct (DatabaseService.jobTimer (dbService a)) as [obs db].
    pose proof (resume_all_cache_preserves P now obs HP
                  (App.mk (userCache a) db) Ha) as H.
    by destruct (resume_all now _ obs).
  - apply (HP (userCache a) LRUCache.Clear Ha).
  - apply (HP (userCache a) (LRUCache.CleanupExpired now) Ha).
Qed.

Lemma app_run_cache_preserves (P : LRUCache.t User → Prop) evs :
  (∀ c o, P c → P (LRUCache.apply c o)) →
  ∀ a, P (userCache a) → P (userCache (App.run a evs).2).
Proof.
  intros HP. induction evs as [|e evs IH]; intros a Ha; simpl; [done|].
  pose proof (app_step_cache_preserves P a e HP Ha) as Ha1.
  destruct (App.step a e) as [tr1 a1]. specialize (IH a1 Ha1).
  by destruct (App.run a1 evs).
Qed.

Lemma maxSize_apply (c : LRUCache.t User) o :
  LRUCache.cache_maxSize c = 1000 →
  LRUCache.cache_maxSize (LRUCache.apply c o) = 1000.
Proof. intros <-. apply LRUFacts.config_apply. Qed.

Lemma ttl_apply (c : LRUCache.t User) o :
  LRUCache.ttl c = 60000 → LRUCache.ttl (LRUCache.apply c o) = 60000.
Proof. intros <-. apply LRUFacts.config_apply. Qed.

(** The handlers of the waiters of one fetch all write the same entry:
    their writes amount to one. *)
Lemma cache_after_set user now c k ws :
  ws ≠ [] → Forall (λ w, userId w = k) ws →
  cache_after user now c ws = LRUCache.set (cacheKey k) user now c.
Proof.
  intros Hne Hall. destruct ws as [|w ws]; [done|]. clear Hne.
  apply Forall_cons in Hall as [<- Hall]. unfold cache_after. cbn [foldl].
  induction ws as [|w' ws IH]; cbn [foldl]; [done|].
  apply Forall_cons in Hall as [Hw' Hall]. rewrite Hw'.
  rewrite LRUExtras.set_twice. by apply IH.
Qed.

(** What the application keeps in every state it reaches. *)
Lemma app_run_invariants evs :
  let a := (App.run App.new evs).2 in
  LRUCache.wf (userCache a) ∧
  LRUCache.ttl (userCache a) = 60000 ∧
  LRUCache.cache_maxSize (userCache a) = 1000 ∧
  users_ok (dbService a) ∧ consistent (dbService a).
Proof.
  split_and!.
  - apply (app_run_cache_preserves LRUCache.wf);
      [intros c o; apply LRUFacts.wf_apply | apply LRUFacts.wf_new].
  - by apply (app_run_cache_preserves (λ c, LRUCache.ttl c = 60000));
      [apply ttl_apply|].
  - by apply (app_run_cache_preserves (λ c, LRUCache.cache_maxSize c = 1000));
      [apply maxSize_apply|].
  - apply app_run_users_ok, DatabaseServiceExtras.users_ok_new.
  - apply AppFacts.consistent_app_run, DatabaseServiceFacts.consistent_new.
Qed.

(** One event that is not [DELETE /cache], at a time from [lo] to
    [lo] + 60000, leaves the user stored who was cached at [lo] or later
    and is still in the backing record, as long as fewer than 999 entries
    are more recently used; afterwards at most one more is. *)
Lemma app_step_keeps_cached k user lo n a e :
  LRUCache.wf (userCache a) →
  LRUCache.ttl (userCache a) = 60000 →
  LRUCache.cache_maxSize (userCache a) = 1000 →
  users_ok (dbService a) → consistent (dbService a) →
  keeps_cache lo (lo + 60000) e → (n < 999)%nat →
  LRUCache.held_within (cacheKey k) user lo n (LRUCache.cache (userCache a)) →
  mockUsers (dbService a) !! k = Some user →
  LRUCache.held_within (cacheKey k) user lo (S n)
    (LRUCache.cache (userCache (App.step a e).2)) ∧
  mockUsers (dbService (App.step a e).2) !! k = Some user.
Proof.
  intros Hwf Httl Hmax Hu Hs He Hn Hheld Hk.
  assert (LRUCache.held_within (cacheKey k) user lo (S n)
            (LRUCache.cache (userCache a))) as Hsame
    by (apply (LRUExtras.held_within_mono _ _ _ n); [lia|done]).
  destruct e as [uid rid now rt|name email now| |now| |now];
    cbn [keeps_cache] in He; cbn [App.step].
  - unfold getUser. destruct (uid <=? 0); [done|].
    pose proof (LRUExtras.held_within_get_step _ _ _ _ _ (cacheKey uid) now rt
                  Hwf Hheld) as Hg.
    destruct (LRUCache.get (cacheKey uid) now rt (userCache a)) as [[u|] cache'];
      cbn [snd userCache dbService] in *.
    + split; [|done]. apply Hg. intros _. lia.
    + split; [apply Hg; intros _; lia|].
      unfold getUserById. by destruct (pendingRequests _ !! uid).
  - unfold postUser. cbn [createUser snd userCache dbService mockUsers id].
    assert (nextUserId (dbService a) ≠ k) as Hfresh.
    { destruct Hu as [_ Hb _ _]. specialize (Hb _ _ Hk). lia. }
    split.
    + apply LRUExtras.held_within_set_step; [done | done | lia |].
      intros Heq%cacheKey_inj. done.
    + by rewrite lookup_insert_ne.
  - cbn [snd userCache dbService]. split; [done|].
    unfold tick. destruct (isProcessing _ || _); [done|].
    by destruct (processingQueue _).
  - unfold App.jobTimer.
    destruct (processing (dbService a)) as [job|] eqn:Hp.
    2: { unfold DatabaseService.jobTimer. rewrite Hp. by cbn. }
    assert (in_process (dbService a) (userId job)) as Hin by (eexists; eauto).
    destruct (in_process_pending _ Hs _ Hin) as [[jobs Hjobs] _].
    destruct (pending_jobs _ Hs _ _ Hjobs) as [Hne Hall].
    rewrite (DatabaseServiceFacts.jobTimer_pending _ job jobs Hp Hjobs).
    unfold backend.
    destruct (mockUsers (dbService a) !! userId job) as [user'|] eqn:Hb.
    + change (settle (inl user')) with (λ w : QueueJob, Resolved w user').
      cbn [resume_all resume]. rewrite AppFacts.resume_all_resolved.
      cbn [snd userCache dbService after_job mockUsers].
      rewrite (cache_after_set user' now _ (userId job)) by done.
      split; [|done].
      apply LRUExtras.held_within_set_step; [done | done | lia |].
      intros Heq%cacheKey_inj. rewrite Heq in Hb. split; [congruence | lia].
    + change (settle (inr (UserNotFound (userId job))))
        with (λ w : QueueJob, Rejected w (UserNotFound (userId job))).
      cbn [resume_all resume]. rewrite AppFacts.resume_all_rejected.
      by cbn [snd userCache dbService after_job mockUsers].
  - done.
  - cbn [snd userCache dbService]. split; [|done].
    apply (LRUExtras.held_within_mono _ _ _ n); [lia|].
    apply LRUExtras.held_within_cleanupExpired; [done | done | lia].
Qed.

(** A cached user stays in the cache over up to 999 - [n] such events. *)
Lemma app_run_keeps_cached k user lo evs : ∀ n a,
  LRUCache.wf (userCache a) →
  LRUCache.ttl (userCache a) = 60000 →
  LRUCache.cache_maxSize (userCache a) = 1000 →
  users_ok (dbService a) → consistent (dbService a) →
  Forall (keeps_cache lo (lo + 60000)) evs →
  (n + length evs ≤ 999)%nat →
  LRUCache.held_within (cacheKey k) user lo n (LRUCache.cache (userCache a)) →
  mockUsers (dbService a) !! k = Some user →
  LRUCache.wf (userCache (App.run a evs).2) ∧
  LRUCache.ttl (userCache (App.run a evs).2) = 60000 ∧
  mockUsers (dbService (App.run a evs).2) !! k = Some user ∧
  ∃ e, JsMap.get (cacheKey k) (LRUCache.cache (userCache (App.run a evs).2)) = Some e ∧
       value e = user ∧ lo ≤ timestamp e.
Proof.
  induction evs as [|e evs IH]; intros n a Hwf Httl Hmax Hu Hs Hevs Hn Hheld Hk.
  - simpl. split_and!; [done..|].
    destruct Hwf as [Hnd _]. by apply (LRUExtras.held_within_get _ _ _ n).
  - apply Forall_cons in Hevs as [He Hevs]. simpl in Hn.
    destruct (app_step_keeps_cached k user lo n a e) as [Hheld1 Hk1];
      [done..|lia|done|done|].
    pose proof (app_step_cache_preserves LRUCache.wf a e
                  (λ c o, LRUFacts.wf_apply c o) Hwf) as Hwf1.
    pose proof (app_step_cache_preserves (λ c, LRUCache.ttl c = 60000) a e
                  ttl_apply Httl) as Httl1.
    pose proof (app_step_cache_preserves (λ c, LRUCache.cache_maxSize c = 1000) a e
                  maxSize_apply Hmax) as Hmax1.
    pose proof (app_step_users_ok a e Hu) as Hu1.
    pose proof (AppFacts.consistent_app_step a e Hs) as Hs1.
    simpl. destruct (App.step a e) as [tr1 a1]. cbn [snd] in *.
    specialize (IH (S n) a1 Hwf1 Httl1 Hmax1 Hu1 Hs1 Hevs).
    destruct (App.run a1 evs) as [tr2 a2]. cbn [snd] in *.
    apply IH; [lia | done | done].
Qed.

Lemma app_run_cons a e evs :
  (App.run a (e :: evs)).2 = (App.run (App.step a e).2 evs).2.
Proof.
  cbn [App.run]. destruct (App.step a e) as [tr1 a1]. cbn [snd].
  by destruct (App.run a1 evs).
Qed.

(** A user cached at [lo] or later is served from the cache by a
    request at any time up to [lo] + 60000. *)
Lemma getUser_cached k user lo rid t rt a e :
  0 < k → LRUCache.ttl (userCache a) = 60000 → t ≤ lo + 60000 →
  JsMap.get (cacheKey k) (LRUCache.cache (userCache a)) = Some e →
  value e = user → lo ≤ timestamp e →
  (App.step a (GetUser k rid t rt)).1 = [Reply_ rid (Ok user true)] ∧
  dbService (App.step a (GetUser k rid t rt)).2 = dbService a.
Proof.
  intros Hpos Httl Ht He <- Hlo.
  apply (getUser_hit k rid t rt a e Hpos He).
  unfold LRUCache.expired. rewrite Httl.
  destruct (Z.ltb_spec 60000 (t - timestamp e)); [lia|done].
Qed.

(** X21: once a fetch succeeded, its result is served from the cache for
    the time to live: in every reachable state, after the timer of a job
    for a user the backend has fired at time [now], and after any further
    events [evs1] (requests, creations, queue ticks, job timers, sweeps),
    at most 999 of them, none a [DELETE /cache], each at a time from
    [now] to [now] + 60000, a request for the same user that reaches the
    handler at any time up to [now] + 60000 is answered at once with that
    user, marked cached, without creating a job or touching the
    service. *)
Theorem repeat_request_is_served_from_cache
    (evs0 evs1 : list App.event) (job : QueueJob) (user : User) (now : Z) rid t rt :
  let a := (App.run App.new evs0).2 in
  let s := dbService a in
  let k := userId job in
  let a' := (App.run a (App.JobTimer now :: evs1)).2 in
  processing s = Some job →
  mockUsers s !! k = Some user →
  0 < k →
  Forall (keeps_cache now (now + 60000)) evs1 →
  (length evs1 ≤ 999)%nat →
  t ≤ now + 60000 →
  (App.step a' (GetUser k rid t rt)).1 = [Reply_ rid (Ok user true)] ∧
  dbService (App.step a' (GetUser k rid t rt)).2 = dbService a'.
Proof.
  intros a s k a' Hp Hhit Hpos Hevs Hlen Ht.
  destruct (app_run_invariants evs0) as (Hwf & Httl & Hmax & Hu & Hs).
  fold a in Hwf, Httl, Hmax, Hu, Hs. fold s in Hu, Hs.
  assert (in_process s k) as Hin by (eexists; eauto).
  destruct (in_process_pending s Hs _ Hin) as [[jobs Hjobs] _].
  destruct (pending_jobs s Hs _ _ Hjobs) as [Hne Hall].
  pose proof (DatabaseServiceFacts.jobTimer_pending s job jobs Hp Hjobs) as Hstep.
  unfold backend in Hstep. fold k in Hstep. rewrite Hhit in Hstep.
  change (settle (inl user)) with (λ w : QueueJob, Resolved w user) in Hstep.
  set (a1 := (App.step a (App.JobTimer now)).2).
  assert (userCache a1 = LRUCache.set (cacheKey k) user now (userCache a) ∧
          mockUsers (dbService a1) !! k = Some user) as [Hcache Hk1].
  { unfold a1. simpl. unfold App.jobTimer. fold s. rewrite Hstep.
    cbn [resume_all resume]. rewrite AppFacts.resume_all_resolved.
    cbn [snd userCache dbService after_job mockUsers].
    by rewrite (cache_after_set user now _ k). }
  assert (a' = (App.run a1 evs1).2) as ->.
  { apply app_run_cons. }
  destruct (app_run_keeps_cached k user now evs1 0 a1)
    as (_ & Httl' & Hk' & e & He & Hv & Hlo).
  - apply (app_step_cache_preserves LRUCache.wf a _
             (λ c o, LRUFacts.wf_apply c o) Hwf).
  - apply (app_step_cache_preserves (λ c, LRUCache.ttl c = 60000) a _
             ttl_apply Httl).
  - apply (app_step_cache_preserves (λ c, LRUCache.cache_maxSize c = 1000) a _
             maxSize_apply Hmax).
  - apply (app_step_users_ok a _ Hu).
  - apply (AppFacts.consistent_app_step a _ Hs).
  - done.
  - simpl. lia.
  - rewrite Hcache. apply LRUExtras.held_within_after_set.
  - done.
  - by apply (getUser_cached k user now rid t rt _ e).
Qed.

Lemma repeat_request_is_served_from_cache_witness :
  let evs0 := [GetUser 1 "a" 0 0; App.Tick] in
  let evs1 := [GetUser 2 "c" 300 0; App.Tick; PostUser "Ann" "ann@example.com" 400;
               Sweep 30000; App.JobTimer 30200; GetUser 1 "d" 40000 0] in
  let a' := (App.run (App.run App.new evs0).2 (App.JobTimer 250 :: evs1)).2 in
  let john := mkUser 1 "John Doe" "john@example.com" (Some 1672531200000) in
  (App.step a' (GetUser 1 "b" 60250 0)).1 = [Reply_ "b" (Ok john true)] ∧
  dbService (App.step a' (GetUser 1 "b" 60250 0)).2 = dbService a'.
Proof.
  intros evs0 evs1 a' john.
  apply (repeat_request_is_served_from_cache evs0 evs1 (mkQueueJob "a" 1 0) john 250
           "b" 60250 0 eq_refl eq_refl).
  - simpl. lia.
  - repeat constructor; simpl; lia.
  - simpl. lia.
  - lia.
Defined.

(** X22: a user created through [POST /users] is cached at once and
    served from the cache for the time to live: in every reachable state,
    after the creation at time [now] the user is in the backing record
    under a fresh id, and it stays there; after any further events [evs1]
    (requests, creations, queue ticks, job timers, sweeps), at most 999
    of them, none a [DELETE /cache], each at a time from [now] to
    [now] + 60000, a request for that id that reaches the handler at any
    time up to [now] + 60000 is answered from the cache with the new user,
    without creating a job. *)
Theorem created_user_is_served_from_cache
    (evs0 evs1 : list App.event) name email now rid t rt :
  let a := (App.run App.new evs0).2 in
  let u := mkUser (nextUserId (dbService a)) name email (Some now) in
  let a' := (App.run a (PostUser name email now :: evs1)).2 in
  Forall (keeps_cache now (now + 60000)) evs1 →
  (length evs1 ≤ 999)%nat →
  t ≤ now + 60000 →
  mockUsers (dbService a) !! id u = None ∧
  mockUsers (dbService a') !! id u = Some u ∧
  (App.step a' (GetUser (id u) rid t rt)).1 = [Reply_ rid (Ok u true)] ∧
  dbService (App.step a' (GetUser (id u) rid t rt)).2 = dbService a'.
Proof.
  intros a u a' Hevs Hlen Ht.
  destruct (app_run_invariants evs0) as (Hwf & Httl & Hmax & Hu & Hs).
  fold a in Hwf, Httl, Hmax, Hu, Hs.
  pose proof Hu as [_ Hb Hn _].
  set (a1 := (App.step a (PostUser name email now)).2).
  assert (a' = (App.run a1 evs1).2) as ->.
  { apply app_run_cons. }
  split.
  { simpl. destruct (mockUsers (dbService a) !! _) as [u0|] eqn:Hget; [|done].
    specialize (Hb _ _ Hget). lia. }
  cut (mockUsers (dbService (App.run a1 evs1).2) !! id u = Some u ∧
       ∃ e, LRUCache.ttl (userCache (App.run a1 evs1).2) = 60000 ∧
            JsMap.get (cacheKey (id u))
              (LRUCache.cache (userCache (App.run a1 evs1).2)) = Some e ∧
            value e = u ∧ now ≤ timestamp e).
  { intros (Hk' & e & Httl' & He & Hv & Hlo). split; [done|].
    apply (getUser_cached (id u) u now rid t rt _ e); [simpl; lia|done..]. }
  destruct (app_run_keeps_cached (id u) u now evs1 0 a1)
    as (_ & Httl' & Hk' & e & He & Hv & Hlo).
  - apply (app_step_cache_preserves LRUCache.wf a _
             (λ c o, LRUFacts.wf_apply c o) Hwf).
  - apply (app_step_cache_preserves (λ c, LRUCache.ttl c = 60000) a _
             ttl_apply Httl).
  - apply (app_step_cache_preserves (λ c, LRUCache.cache_maxSize c = 1000) a _
             maxSize_apply Hmax).
  - apply (app_step_users_ok a _ Hu).
  - apply (AppFacts.consistent_app_step a _ Hs).
  - done.
  - simpl. lia.
  - apply LRUExtras.held_within_after_set.
  - simpl. apply lookup_insert_eq.
  - split; [done|]. by exists e.
Qed.

Lemma created_user_is_served_from_cache_witness :
  let evs1 := [GetUser 1 "a" 20 0; App.Tick; Sweep 30010; App.JobTimer 30020;
               PostUser "Bob" "bob@example.com" 30030; GetUser 4 "q" 30040 0] in
  let a' := (App.run App.new (PostUser "Ann" "ann@example.com" 10 :: evs1)).2 in
  let ann := mkUser 4 "Ann" "ann@example.com" (Some 10) in
  mockUsers (dbService a') !! 4 = Some ann ∧
  (App.step a' (GetUser 4 "r" 60010 0)).1 = [Reply_ "r" (Ok ann true)].
Proof.
  intros evs1 a' ann.
  destruct (created_user_is_served_from_cache [] evs1 "Ann" "ann@example.com" 10
              "r" 60010 0) as (_ & Hset & Hreply & _).
  - repeat constructor; simpl; lia.
  - simpl. lia.
  - lia.
  - exact (conj Hset Hreply).
Defined.

Lemma failed_fetch_leaves_cache_untouched_witness :
  let evs0 := [GetUser 999 "a" 0 0; App.Tick; GetUser 999 "b" 100 0] in
  let a := (App.run App.new evs0).2 in
  (App.step a (App.JobTimer 250)).1 =
    [Db (Lookup 999);
     Db (Rejected (mkQueueJob "a" 999 0) (UserNotFound 999));
     Db (Rejected (mkQueueJob "b" 999 100) (UserNotFound 999));
     Reply_ "a" (NotFound (UserNotFound 999));
     Reply_ "b" (NotFound (UserNotFound 999))] ∧
  userCache (App.step a (App.JobTimer 250)).2 = userCache a.
Proof.
  intros evs0 a.
  apply (AppFacts.failed_fetch_leaves_cache_untouched evs0
           (mkQueueJob "a" 999 0) 250 eq_refl eq_refl).
Defined.
End AppExtras.
